(** * Supervised source localisation notebook: the test stage and its numerics

    A shallow embedding of [modules/supervised_source_localization/waspaa_paper.ipynb].

    Conventions of the embedding:
    - a numpy [float64] scalar is an exact real number ([R]); rounding, NaN
      and Inf are outside the model;
    - a 1-D array value is a list of reals, a 2-D array value carries its
      shape next to its rows (numpy keeps the shape of an array with no rows
      or no columns);
    - the arrays the notebook aliases or writes to ([W], [A], the eigen-pairs)
      live in a store of buffers; an [ndarray] is a view on a buffer, [.T]
      flips the view and shares the buffer;
    - a Python exception is a value of [exn]; a cell is a function from the
      store to the store and either an exception or a result;
    - [script_rtf] is not part of the notebook: what it exports is a
      parameter of the sections below, or is modelled from the specification
      where a property is about the helper itself. *)

From Stdlib Require Import Reals Lra Lia.
From stdpp Require Import base tactics option list sorting.

Set Default Proof Using "Type".

(** ** Exceptions and results *)

(** The exceptions of Python and numpy the cells can raise, and the report
    the specification asks of the Nystrom step for an eigenvalue it
    refuses. *)
Inductive exn : Type :=
  | IndexError
  | ValueError
  | TypeError
  | LinAlgError
  | NegligibleEigenvalue (j : nat).

Definition result (A : Type) : Type := (exn + A)%type.

Definition ok {A} (x : A) : result A := inr x.
Definition throw {A} (e : exn) : result A := inl e.

Definition rbind {A B} (c : result A) (f : A -> result B) : result B :=
  match c with
  | inl e => inl e
  | inr x => f x
  end.

Definition of_option {A} (e : exn) (o : option A) : result A :=
  match o with
  | Some x => inr x
  | None => inl e
  end.

Notation "'try' x := c 'in' k" := (rbind c (fun x => k))
  (at level 10, x name, c at level 100, k at level 200).

(** ** Array values *)

Abbreviation vec := (list R) (only parsing).

Record mat : Type := Mat {
  nrows : nat;
  ncols : nat;
  cells : list (list R)
}.

(** What numpy guarantees of every 2-D array: as many rows as its shape
    says, each as long as its shape says. *)
Definition mat_wf (a : mat) : Prop :=
  length (cells a) = nrows a /\ Forall (fun r => length r = ncols a) (cells a).

Definition mat_get (a : mat) (i j : nat) : option R :=
  match cells a !! i with
  | Some r => r !! j
  | None => None
  end.

Definition mat_at (a : mat) (i j : nat) : R := default 0%R (mat_get a i j).

Definition mat_set (a : mat) (i j : nat) (v : R) : mat :=
  Mat (nrows a) (ncols a) (alter (fun r => <[j := v]> r) i (cells a)).

Definition mat_col (a : mat) (j : nat) : vec :=
  (fun r => default 0%R (r !! j)) <$> cells a.

(** [a.T] as a value. *)
Definition mat_T (a : mat) : mat :=
  Mat (ncols a) (nrows a)
      ((fun j => (fun i => mat_at a i j) <$> seq 0 (nrows a)) <$> seq 0 (ncols a)).

(** ** The store *)

Inductive buffer : Type :=
  | Buf1 (v : vec)
  | Buf2 (a : mat).

Abbreviation heap := (list buffer) (only parsing).

(** A 2-D array object: a view on the buffer at [base], read transposed when
    [transposed] is set. *)
Record ndarray : Type := NdArray {
  base : nat;
  transposed : bool
}.

Definition Run (A : Type) : Type := heap -> heap * result A.

Definition run_ret {A} (x : A) : Run A := fun h => (h, inr x).

Definition run_raise {A} (e : exn) : Run A := fun h => (h, inl e).

Definition run_bind {A B} (c : Run A) (f : A -> Run B) : Run B :=
  fun h =>
    match c h with
    | (h', inr x) => f x h'
    | (h', inl e) => (h', inl e)
    end.

Definition lift {A} (c : result A) : Run A := fun h => (h, c).

Notation "'do' x <- c ; k" := (run_bind c (fun x => k))
  (at level 10, x name, c at level 100, k at level 200).
Notation "'do_' c ; k" := (run_bind c (fun _ => k))
  (at level 10, c at level 100, k at level 200).

Definition alloc (b : buffer) : Run nat := fun h => (h ++ [b], inr (length h)).

Definition load2 (l : nat) : Run mat :=
  fun h =>
    match h !! l with
    | Some (Buf2 a) => (h, inr a)
    | _ => (h, inl TypeError)
    end.

Definition load1 (l : nat) : Run vec :=
  fun h =>
    match h !! l with
    | Some (Buf1 v) => (h, inr v)
    | _ => (h, inl TypeError)
    end.

Definition store (l : nat) (b : buffer) : Run unit :=
  fun h => (<[l := b]> h, inr tt).

(** The value seen through a view. *)
Definition view (a : ndarray) (b : mat) : mat :=
  if transposed a then mat_T b else b.

Definition read_array (a : ndarray) : Run mat :=
  do b <- load2 (base a); run_ret (view a b).

(** [a.copy()]: a fresh buffer holding what the view shows. *)
Definition ndarray_copy (a : ndarray) : Run ndarray :=
  do v <- read_array a;
  do l <- alloc (Buf2 v);
  run_ret (NdArray l false).

(** [a.T]: the same buffer, read the other way round. *)
Definition ndarray_T (a : ndarray) : ndarray :=
  NdArray (base a) (negb (transposed a)).

(** [np.zeros((r, c))]. *)
Definition zeros (r c : nat) : mat := Mat r c (replicate r (replicate c 0%R)).

Definition np_zeros (r c : nat) : Run ndarray :=
  do l <- alloc (Buf2 (zeros r c));
  run_ret (NdArray l false).

(** [np.c_[a, b]]: a fresh array, the columns of [b] after those of [a]. *)
Definition hstack (x y : mat) : mat :=
  Mat (nrows x) (ncols x + ncols y) (zip_with app (cells x) (cells y)).

Definition np_c_ (a b : ndarray) : Run ndarray :=
  do x <- read_array a;
  do y <- read_array b;
  if decide (nrows x = nrows y)
  then do l <- alloc (Buf2 (hstack x y)); run_ret (NdArray l false)
  else run_raise ValueError.

(** [a[i, j] = v]: a write through the view into the shared buffer. *)
Definition setitem (a : ndarray) (i j : nat) (v : R) : Run unit :=
  do b <- load2 (base a);
  let r := if transposed a then j else i in
  let c := if transposed a then i else j in
  if decide (r < nrows b /\ c < ncols b)
  then store (base a) (Buf2 (mat_set b r c v))
  else run_raise IndexError.

(** [a.shape]. *)
Definition ndarray_shape (a : ndarray) : Run (nat * nat) :=
  do b <- read_array a;
  run_ret (nrows b, ncols b).

(** [for x in xs: body(x)]. *)
Fixpoint for_each {A} (xs : list A) (body : A -> Run unit) : Run unit :=
  match xs with
  | [] => run_ret tt
  | x :: rest => do_ body x; for_each rest body
  end.

Definition for_range (n : nat) (body : nat -> Run unit) : Run unit :=
  for_each (seq 0 n) body.

(** A run that leaves every buffer below [L] as it was, whatever its
    outcome, and whose result, if any, satisfies [Q]. *)
Definition keeps {A} (L : nat) (c : Run A) (Q : A -> Prop) : Prop :=
  forall h, L <= length h ->
    L <= length (fst (c h)) /\
    (forall l, l < L -> fst (c h) !! l = h !! l) /\
    (forall x, snd (c h) = inr x -> Q x).

(** A run that leaves the 2-D array in buffer [l] with the shape it had,
    whatever the outcome of the run. *)
Definition keeps_shape {A} (l : nat) (c : Run A) : Prop :=
  forall h a, h !! l = Some (Buf2 a) ->
    exists a', fst (c h) !! l = Some (Buf2 a') /\ nrows a' = nrows a /\ ncols a' = ncols a.

(** ** Arithmetic on array values *)

Definition rsum (xs : list R) : R := foldr Rplus 0%R xs.

(** [a - b] on 1-D arrays, with numpy's broadcasting of a length-one
    operand. *)
Definition np_sub (a b : vec) : result vec :=
  match a, b with
  | [x], _ => inr ((fun y => (x - y)%R) <$> b)
  | _, [y] => inr ((fun x => (x - y)%R) <$> a)
  | _, _ =>
      if decide (length a = length b)
      then inr (zip_with Rminus a b)
      else inl ValueError
  end.

Definition dot_raw (u v : vec) : R := rsum (zip_with Rmult u v).

(** [u @ v] on two 1-D arrays. *)
Definition np_dot (u v : vec) : result R :=
  if decide (length u = length v) then inr (dot_raw u v) else inl ValueError.

(** [u @ a] for a 1-D [u] and a 2-D [a]. *)
Definition np_vecmat (u : vec) (a : mat) : result vec :=
  if decide (length u = nrows a)
  then inr ((fun j => dot_raw u (mat_col a j)) <$> seq 0 (ncols a))
  else inl ValueError.

(** [a @ u] for a 2-D [a] and a 1-D [u]. *)
Definition np_matvec (a : mat) (u : vec) : result vec :=
  if decide (ncols a = length u)
  then inr ((fun r => dot_raw r u) <$> cells a)
  else inl ValueError.

(** [a @ b] on two 2-D arrays. *)
Definition np_matmul (a b : mat) : result mat :=
  if decide (ncols a = nrows b)
  then inr (Mat (nrows a) (ncols b)
              ((fun r => (fun j => dot_raw r (mat_col b j)) <$> seq 0 (ncols b))
                 <$> cells a))
  else inl ValueError.

Definition np_ones (r c : nat) : mat := Mat r c (replicate r (replicate c 1%R)).

Definition mat_map (f : R -> R) (a : mat) : mat :=
  Mat (nrows a) (ncols a) ((fun r : list R => f <$> r) <$> cells a).

(** [v.A1]: the entries of a matrix, flattened row by row. *)
Definition A1 (a : mat) : vec := concat (cells a).

(** [np.diag(v)] for a 1-D [v]. *)
Definition np_diag (v : vec) : mat :=
  Mat (length v) (length v)
      (imap (fun i x => <[i := x]> (replicate (length v) 0%R)) v).

(** ** Cell 2: the constants of the notebook *)

Module Cell2.
Definition fs : R := 8000.
Definition m : nat := 50.
Definition M : nat := 49.
Definition L : nat := 5.
Definition d : nat := 2.
Definition epsilon : R := 1e20.
Definition eps_var : R := 1e-5.
Definition k : nat := 3.
End Cell2.

(** ** The test stage: cells 4 and 5 of the notebook *)

Section TestStage.

(** [m], [M], [epsilon]: the constants of cell 2. [cov_matrices] is the
    list cell 3 gets from [compute_covMatrices]. *)
Variables m M : nat.
Variable epsilon : R.
Variable cov_matrices : list mat.

(** Helpers of [script_rtf] and numpy's inverse, used as black boxes. *)
Variable feature_Vector_testPos : nat -> result vec.
Variable feature_Vector_src : nat -> result vec.
Variable np_linalg_inv : mat -> result mat.

(** [nom = (test - train) @ inv_cov_mat_j @ (test - train).T]; [.T] of a
    1-D array is the array itself. *)
Definition mahalanobis_nom (test_featVect train_featVect : vec) (inv_cov_mat_j : mat)
  : result R :=
  try diff := np_sub test_featVect train_featVect in
  try left := np_vecmat diff inv_cov_mat_j in
  np_dot left diff.

(** [np.exp(-nom/epsilon)] for two feature vectors and the covariance
    matrix of the training source, inverted on the way. *)
Definition gaussian_kernel (test_featVect train_featVect : vec) (cov_j : mat)
  : result R :=
  try inv_cov_mat_j := np_linalg_inv cov_j in
  try nom := mahalanobis_nom test_featVect train_featVect inv_cov_mat_j in
  ok (exp (- nom / epsilon)).

(** The body of the inner loop up to the value that is written. *)
Definition affinity_entry (i j : nat) : result R :=
  try test_featVect := feature_Vector_testPos i in
  try train_featVect := feature_Vector_src j in
  try cov_j := of_option IndexError (cov_matrices !! j) in
  gaussian_kernel test_featVect train_featVect cov_j.

(** Cell 4: [A = W.copy(); A = np.c_[A.T, np.zeros((m,M))].T]. *)
Definition cell4 (W : ndarray) : Run ndarray :=
  do A <- ndarray_copy W;
  do Z <- np_zeros m M;
  do C <- np_c_ (ndarray_T A) Z;
  run_ret (ndarray_T C).

(** Cell 5: the double loop filling the rows of the test samples. *)
Definition cell5 (A : ndarray) : Run unit :=
  for_range M (fun i =>
    for_range m (fun j =>
      do v <- lift (affinity_entry i j);
      setitem A (i + m) j v)).

Definition test_stage (W : ndarray) : Run ndarray :=
  do A <- cell4 W;
  do_ cell5 A;
  run_ret A.

End TestStage.

(** ** Cell 7: the normalised kernel *)

(** [v = np.matrix(1. / np.sqrt(A.T @ A @ np.ones((m, 1))))],
    [S_sqrt = np.diag(v.A1)], [A_tilde = A @ S_sqrt]; [@] associates to the
    left. *)
Definition A_tilde (m : nat) (A : mat) : result mat :=
  try AtA := np_matmul (mat_T A) A in
  try deg := np_matmul AtA (np_ones m 1) in
  let v := mat_map (fun x => (1 / sqrt x)%R) deg in
  let S_sqrt := np_diag (A1 v) in
  np_matmul A S_sqrt.

(** ** Cells 3 to 8 as one run over the store *)

Section Embedding.

Variables m M d : nat.
Variable epsilon : R.
Variable cov_matrices : list mat.
Variable feature_Vector_testPos : nat -> result vec.
Variable feature_Vector_src : nat -> result vec.
Variable np_linalg_inv : mat -> result mat.
Variable np_linalg_eig : mat -> result (vec * mat).
Variable compute_train_featVects : nat -> result (list vec).
Variable compute_d_left_sing_vect : nat -> vec -> mat -> mat -> nat -> result mat.

(** Cell 3, last line: [eig_vals, eig_vects = np.linalg.eig(W)]. *)
Definition cell3_eig (W : ndarray) : Run (nat * ndarray) :=
  do w <- read_array W;
  do p <- lift (np_linalg_eig w);
  do eig_vals <- alloc (Buf1 (fst p));
  do eig_vects <- alloc (Buf2 (snd p));
  run_ret (eig_vals, NdArray eig_vects false).

Definition cell7 (A : ndarray) : Run mat :=
  do a <- read_array A;
  lift (A_tilde m a).

(** Cell 8: [train_featVects = compute_train_featVects(m=m)], then
    [singular_vects = compute_d_left_sing_vect(m+M, eig_vals, eig_vects, A_tilde, d)]. *)
Definition cell8 (eig_vals : nat) (eig_vects : ndarray) (At : mat)
  : Run (list vec * mat) :=
  do train_featVects <- lift (compute_train_featVects m);
  do vals <- load1 eig_vals;
  do vects <- read_array eig_vects;
  do singular_vects <- lift (compute_d_left_sing_vect (m + M) vals vects At d);
  run_ret (train_featVects, singular_vects).

Definition embedding (W : ndarray) : Run (list vec * mat) :=
  do e <- cell3_eig W;
  do A <- test_stage m M epsilon cov_matrices feature_Vector_testPos
            feature_Vector_src np_linalg_inv W;
  do At <- cell7 A;
  cell8 (fst e) (snd e) At.

End Embedding.

(** ** Cells 9 and 10: interpolation and evaluation *)

(** One entry of [training_Set_spherical] or [test_Set_spherical]: indices
    0, 1 and 2 of the Python triple. *)
Record spherical : Type := Spherical {
  radius : R;
  azimuth : R;
  elevation : R
}.

Record cell9_state : Type := Cell9 {
  thetas_pred : list (R * R);
  thetas_gt : list (R * R)
}.

Section Interpolation.

Variable estimate_theta_i : nat -> mat -> list vec -> list spherical -> result (R * R).
Variable rmse : list (R * R) -> list (R * R) -> result R.

Variable singular_vects : mat.
Variable train_featVects : list vec.
Variable training_Set_spherical : list spherical.

(** One iteration of the loop of cell 9; an exception leaves the lists as
    they are at that point. *)
Definition cell9_body (test_Set_spherical : list spherical) (i : nat) (st : cell9_state)
  : cell9_state * result unit :=
  match estimate_theta_i i singular_vects train_featVects training_Set_spherical with
  | inl e => (st, inl e)
  | inr theta_i_pred =>
      let st1 := Cell9 (thetas_pred st ++ [theta_i_pred]) (thetas_gt st) in
      match test_Set_spherical !! i with
      | None => (st1, inl IndexError)
      | Some s =>
          let theta_i_gt := (azimuth s, elevation s) in
          (Cell9 (thetas_pred st1) (thetas_gt st1 ++ [theta_i_gt]), inr tt)
      end
  end.

Fixpoint cell9_loop (test_Set_spherical : list spherical) (todo : list nat) (st : cell9_state)
  : cell9_state * result unit :=
  match todo with
  | [] => (st, inr tt)
  | i :: rest =>
      match cell9_body test_Set_spherical i st with
      | (st', inr _) => cell9_loop test_Set_spherical rest st'
      | (st', inl e) => (st', inl e)
      end
  end.

Definition cell9 (M : nat) (test_Set_spherical : list spherical) : cell9_state * result unit :=
  cell9_loop test_Set_spherical (seq 0 M) (Cell9 [] []).

(** Cell 10: [rmse_val = rmse(thetas_gt, thetas_pred)], run when cell 9
    has finished. *)
Definition cell10 (st : cell9_state) : result R :=
  rmse (thetas_gt st) (thetas_pred st).

Definition evaluate (M : nat) (test_Set_spherical : list spherical)
  : cell9_state * result R :=
  match cell9 M test_Set_spherical with
  | (st, inr _) => (st, cell10 st)
  | (st, inl e) => (st, inl e)
  end.

End Interpolation.

(** ** Helpers of [script_rtf], modelled from the specification *)

Fixpoint result_mapM {A B} (f : A -> result B) (xs : list A) : result (list B) :=
  match xs with
  | [] => ok []
  | x :: rest =>
      try y := f x in
      try ys := result_mapM f rest in
      ok (y :: ys)
  end.

Section Nystrom.

(** [tol]: the bound under which an eigenvalue counts as numerically
    negligible. [select]: which [d] eigen-pairs are retained, given the
    eigenvalues (the specification leaves open whether the leading one is
    among them). *)
Variable tol : R.
Variable select : vec -> nat -> list nat.

(** Modelled from the spec: one Nystrom-extended vector
    [psi_j = (1/sqrt lambda_j) * A_tilde * phi_j] of
    [compute_d_left_sing_vect] in [script_rtf], with the guard the
    specification asks for on the eigenvalue in the denominator. *)
Definition left_sing_vect (j : nat) (lambda_j : R) (phi_j : vec) (At : mat)
  : result vec :=
  if Rle_dec lambda_j tol
  then throw (NegligibleEigenvalue j)
  else
    try t := np_matvec At phi_j in
    ok ((fun x => (1 / sqrt lambda_j * x)%R) <$> t).

(** Modelled from the spec: [compute_d_left_sing_vect] of [script_rtf],
    which is not in the notebook. Column [c] of the result is the extended
    vector of the [c]-th retained eigen-pair; the result has [n] rows. *)
Definition compute_d_left_sing_vect (n : nat) (eig_vals : vec) (eig_vects : mat)
    (At : mat) (d : nat) : result mat :=
  if decide (nrows At = n)
  then
    try psis := result_mapM (fun j =>
                  try lambda_j := of_option IndexError (eig_vals !! j) in
                  left_sing_vect j lambda_j (mat_col eig_vects j) At)
                (select eig_vals d) in
    ok (mat_T (Mat (length psis) n psis))
  else throw ValueError.

End Nystrom.

(** Modelled from the spec: the two raw weights the specification names
    for a neighbour at distance [x], inverse distance and a kernel of the
    distance. *)
Definition inverse_distance (x : R) : R := (1 / x)%R.

Definition kernel_weight (sigma x : R) : R := exp (- (x * x) / sigma).

Section Interpolator.

(** [m] and [k]: the constants of cell 2, globals of [script_rtf].
    [weight]: the raw weight given to a neighbour at a given distance in
    the embedding (inverse distance, a kernel, ...). *)
Variables m k : nat.
Variable weight : R -> R.

(** Modelled from the spec: the distance between two rows of the
    [d]-dimensional embedding. *)
Definition dist (u v : vec) : R :=
  sqrt (rsum ((fun x => (x * x)%R) <$> zip_with Rminus u v)).

(** Insertion sort of (index, distance) pairs by distance, nearest first. *)
Fixpoint insert_by_dist (x : nat * R) (l : list (nat * R)) : list (nat * R) :=
  match l with
  | [] => [x]
  | y :: rest =>
      if Rle_dec (snd x) (snd y) then x :: y :: rest else y :: insert_by_dist x rest
  end.

Definition sort_by_dist (l : list (nat * R)) : list (nat * R) :=
  foldr insert_by_dist [] l.

(** Modelled from the spec: the [k] training samples nearest to test
    sample [i] in the embedding, with their distances. *)
Definition nearest (singular_vects : mat) (i : nat) : result (list (nat * R)) :=
  try psi_i := of_option IndexError (cells singular_vects !! (m + i)) in
  try ds := result_mapM (fun t =>
              try psi_t := of_option IndexError (cells singular_vects !! t) in
              ok (t, dist psi_i psi_t))
            (seq 0 m) in
  ok (take k (sort_by_dist ds)).

(** Modelled from the spec: the normalised interpolation weights
    [gamma_j] of test sample [i], one per neighbour. *)
Definition interp_weights (singular_vects : mat) (i : nat) : result (list (nat * R)) :=
  try nb := nearest singular_vects i in
  let total := rsum ((fun p => weight (snd p)) <$> nb) in
  ok ((fun p => (fst p, (weight (snd p) / total)%R)) <$> nb).

(** Modelled from the spec: the sum of one angle of the neighbours under
    the weights. *)
Definition weighted_sum (ws : list (nat * R)) (angle : spherical -> R)
    (training_Set_spherical : list spherical) : result R :=
  try terms := result_mapM (fun p =>
                 try s := of_option IndexError (training_Set_spherical !! fst p) in
                 ok (snd p * angle s)%R)
               ws in
  ok (rsum terms).

(** Modelled from the spec: [estimate_theta_i] of [script_rtf], which is
    not in the notebook: the weighted sum of the angles of the [k] nearest
    training samples. The notebook passes [train_featVects]; the
    specification gives it no part in the estimate. *)
Definition estimate_theta_i (i : nat) (singular_vects : mat) (train_featVects : list vec)
    (training_Set_spherical : list spherical) : result (R * R) :=
  try ws := interp_weights singular_vects i in
  try az := weighted_sum ws azimuth training_Set_spherical in
  try el := weighted_sum ws elevation training_Set_spherical in
  ok (az, el).

End Interpolator.

(** Modelled from the spec: [rmse] of [script_rtf], which is not in the
    notebook: the square root of the mean squared distance between the
    predicted and the true pair. *)
Definition rmse (thetas_gt thetas_pred : list (R * R)) : result R :=
  ok (sqrt (rsum (zip_with (fun g p =>
                    ((fst p - fst g) * (fst p - fst g) +
                     (snd p - snd g) * (snd p - snd g))%R)
                  thetas_gt thetas_pred)
            / INR (length thetas_pred))).

(** ** Mathematical counterparts *)

Definition sum_upto (n : nat) (f : nat -> R) : R := rsum (f <$> seq 0 n).

Definition vec_at (u : vec) (a : nat) : R := default 0%R (u !! a).

(** The squared Mahalanobis distance [d P d^T] as a double sum. *)
Definition mahalanobis_sq (d : vec) (P : mat) : R :=
  sum_upto (length d) (fun b =>
    sum_upto (length d) (fun a => (vec_at d a * mat_at P a b * vec_at d b)%R)).

(** The kernel of the specification, [exp (- d2 / epsilon)] with [d2] the
    squared Mahalanobis distance of [t] and [s] under the inverse
    covariance [P]. *)
Definition kernel_value (epsilon : R) (t s : vec) (P : mat) : R :=
  exp (- mahalanobis_sq (zip_with Rminus t s) P / epsilon).

(** Entry [j] of [A^T A 1]. *)
Definition degree (A : mat) (j : nat) : R :=
  sum_upto (ncols A) (fun c =>
    (sum_upto (nrows A) (fun r => (mat_at A r j * mat_at A r c)%R) * 1)%R).

(** The matrix the test stage is meant to leave in [A]: [W] on top, the
    kernel values [kern i j] of the test samples below. *)
Definition A_expected (m M : nat) (W : mat) (kern : nat -> nat -> R) : mat :=
  Mat (nrows W + M) m
      (cells W ++ ((fun i => (fun j => kern i j) <$> seq 0 m) <$> seq 0 M)).

(** The diagonal of [S^(-1/2)] for [S = diag(A^T A 1)]. *)
Definition S_inv_sqrt (m : nat) (A : mat) : vec :=
  (fun j => (1 / sqrt (degree A j))%R) <$> seq 0 m.

(** ** Small concrete runs *)

(** [np.linalg.inv] on 1 x 1 arrays, which is all the runs below invert. *)
Definition inv_1x1 (a : mat) : result mat :=
  match cells a with
  | [[x]] => if Req_dec_T x 0 then throw LinAlgError else ok (Mat 1 1 [[(1 / x)%R]])
  | _ => throw LinAlgError
  end.

(** [np.linalg.eig] on 1 x 1 arrays: the entry, and the unit vector. *)
Definition eig_1x1 (a : mat) : result (vec * mat) :=
  match cells a with
  | [[x]] => ok ([x], Mat 1 1 [[1%R]])
  | _ => throw LinAlgError
  end.

Definition features (fs : list vec) (i : nat) : result vec :=
  of_option IndexError (fs !! i).

(** Two training sources and one test source, one frequency bin each; the
    test source sits on training source 1. *)
Module Duo.
Definition m : nat := 2.
Definition M : nat := 1.
Definition epsilon : R := 1.
Definition cov_matrices : list mat := [Mat 1 1 [[1%R]]; Mat 1 1 [[1%R]]].
(** The same, with the covariance matrix of source 0, respectively of
    source 1, singular. *)
Definition singular_0 : list mat := [Mat 1 1 [[0%R]]; Mat 1 1 [[1%R]]].
Definition singular_1 : list mat := [Mat 1 1 [[1%R]]; Mat 1 1 [[0%R]]].
Definition feature_Vector_src : nat -> result vec := features [[0%R]; [1%R]].
Definition feature_Vector_testPos : nat -> result vec := features [[1%R]].
(** The feature vectors of the test and of the training sources, and the
    covariance matrix of each training source with its inverse. *)
Definition test_vect (i : nat) : vec := [1%R].
Definition src_vect (j : nat) : vec :=
  match j with
  | 0 => [0%R]
  | _ => [1%R]
  end.
Definition cov (j : nat) : mat := Mat 1 1 [[1%R]].
Definition inv_cov (j : nat) : mat := Mat 1 1 [[(1 / 1)%R]].
Definition W : mat := Mat 2 2 [[1; exp (-1)]; [exp (-1); 1]]%R.
Definition store : list buffer := [Buf2 W].
Definition W_ref : ndarray := NdArray 0 false.
Definition entry : nat -> nat -> result R :=
  affinity_entry epsilon cov_matrices feature_Vector_testPos feature_Vector_src inv_1x1.
Definition kern (i j : nat) : R :=
  match entry i j with
  | inr v => v
  | inl _ => 0%R
  end.
End Duo.

(** One training source and one test source sitting on it. *)
Module Solo.
Definition m : nat := 1.
Definition M : nat := 1.
Definition d : nat := 1.
Definition epsilon : R := 1.
Definition cov_matrices : list mat := [Mat 1 1 [[1%R]]].
Definition feature_Vector_src : nat -> result vec := features [[0%R]].
Definition feature_Vector_testPos : nat -> result vec := features [[0%R]].
Definition W : mat := Mat 1 1 [[1%R]].
Definition store : list buffer := [Buf2 W].
Definition W_ref : ndarray := NdArray 0 false.
Definition entry : nat -> nat -> result R :=
  affinity_entry epsilon cov_matrices feature_Vector_testPos feature_Vector_src inv_1x1.
Definition kern (i j : nat) : R :=
  match entry i j with
  | inr v => v
  | inl _ => 0%R
  end.
(** The eigen-pairs are retained in the order [np.linalg.eig] gives them,
    and only a non-positive eigenvalue is refused. *)
Definition select (eig_vals : vec) (d : nat) : list nat := seq 0 d.
Definition tol : R := 0.
(** [A] after the test stage, and the eigen-pair of [W]. *)
Definition A : mat := Mat 2 1 [[1%R]; [1%R]].
Definition eig_vals : vec := [1%R].
Definition eig_vects : mat := Mat 1 1 [[1%R]].
(** One neighbour, kernel weights, and two ground truths for the test
    source. *)
Definition k : nat := 1.
Definition weight (x : R) : R := exp (- x).
Definition train_featVects : list vec := [[0%R]].
Definition compute_train_featVects (m : nat) : result (list vec) := ok train_featVects.
Definition training_Set_spherical : list spherical := [Spherical 1 0 0].
Definition test_Set_spherical : list spherical := [Spherical 1 0 0].
Definition test_Set_other : list spherical := [Spherical 1 1 1].
End Solo.


(** Two training sources with the same feature vector and a test source
    sitting on them: [W] is all ones, with eigenvalues 2 and 0. *)
Module Twin.
Definition m : nat := 2.
Definition M : nat := 1.
Definition d : nat := 2.
Definition epsilon : R := 1.
Definition cov_matrices : list mat := [Mat 1 1 [[1%R]]; Mat 1 1 [[1%R]]].
Definition feature_Vector_src : nat -> result vec := features [[0%R]; [0%R]].
Definition feature_Vector_testPos : nat -> result vec := features [[0%R]].
Definition compute_train_featVects (m : nat) : result (list vec) :=
  ok [[0%R]; [0%R]].
Definition W : mat := Mat 2 2 [[1; 1]; [1; 1]]%R.
Definition store : list buffer := [Buf2 W].
Definition W_ref : ndarray := NdArray 0 false.
Definition eig_vals : vec := [2; 0]%R.
Definition eig_vects : mat :=
  Mat 2 2 [[1 / sqrt 2; - (1 / sqrt 2)]; [1 / sqrt 2; 1 / sqrt 2]]%R.
(** What [np.linalg.eig] returns for the [W] of this run. *)
Definition np_linalg_eig (a : mat) : result (vec * mat) := ok (eig_vals, eig_vects).
Definition select (eig_vals : vec) (d : nat) : list nat := seq 0 d.
(** An eigenvalue of at most one thousandth counts as negligible. *)
Definition tol : R := 1 / 1000.
End Twin.

(** An embedding in one dimension of three training sources, at 0, 3
    and 5, and of a test source at 1; two neighbours are used. *)
Module Trio.
Definition m : nat := 3.
Definition k : nat := 2.
Definition singular_vects : mat := Mat 4 1 [[0]; [3]; [5]; [1]]%R.
Definition train_featVects : list vec := [[0]; [0]; [0]]%R.
Definition training_Set_spherical : list spherical :=
  [Spherical 1 0 0; Spherical 1 1 2; Spherical 1 3 1].
End Trio.

(** An outcome is an exception from which [source_of] reads source [j]. *)
Definition reports_source {A} (source_of : exn -> option nat) (r : result A) (j : nat)
  : Prop :=
  exists e, r = inl e /\ source_of e = Some j.

(** Two reals agree within a tolerance. *)
Definition agree_within (tolerance x y : R) : Prop := (Rabs (x - y) <= tolerance)%R.


(** ** Cell 5 while it runs *)

(** The buffer behind [A] (it holds [A] transposed) when the loops of
    cell 5 are about to handle test sample [i] and training sample [j]: the
    buffer started as [C0]; the entries of the test samples handled so far
    hold their kernel values, every other entry is as in [C0]. *)
Definition filled_before (m M : nat) (C0 : mat) (kern : nat -> nat -> R) (i j : nat)
    (C : mat) : Prop :=
  mat_wf C /\ nrows C = m /\ ncols C = m + M /\
  forall r c, r < m -> c < m + M ->
    mat_get C r c =
      Some (if decide (m <= c /\ (c - m < i \/ (c - m = i /\ r < j)))
            then kern (c - m) r else mat_at C0 r c).

(** The kernel values written before the loops reach [(i0, j0)], and zero
    for the entries not reached. *)
Definition written_before (i0 j0 : nat) (kern : nat -> nat -> R) (i j : nat) : R :=
  if decide (i < i0 \/ (i = i0 /\ j < j0)) then kern i j else 0%R.

(** ** Further concrete inputs *)

(** One training source, and an array [W] with two columns where cell 4
    expects one. *)
Module Wide.
Definition m : nat := 1.
Definition M : nat := 1.
Definition W : mat := Mat 1 2 [[1; 1]]%R.
Definition store : list buffer := [Buf2 W].
Definition W_ref : ndarray := NdArray 0 false.
End Wide.

(** The run [Duo] with the covariance matrix of source 1 singular. *)
Module Singular.
Definition entry : nat -> nat -> result R :=
  affinity_entry Duo.epsilon Duo.singular_1 Duo.feature_Vector_testPos
    Duo.feature_Vector_src inv_1x1.
Definition kern (i j : nat) : R :=
  match entry i j with
  | inr v => v
  | inl _ => 0%R
  end.
End Singular.

(** One training source and two test sources with the same feature
    vector. *)
Module Pair.
Definition m : nat := 1.
Definition M : nat := 2.
Definition feature_Vector_testPos : nat -> result vec := features [[1%R]; [1%R]].
Definition entry : nat -> nat -> result R :=
  affinity_entry Solo.epsilon Solo.cov_matrices feature_Vector_testPos
    Solo.feature_Vector_src inv_1x1.
Definition kern (i j : nat) : R :=
  match entry i j with
  | inr v => v
  | inl _ => 0%R
  end.
End Pair.

(** The sizes of cell 2, an array [W] of ones, and helpers that raise at
    the first call. *)
Module Full.
Definition W : mat := Mat Cell2.m Cell2.m (replicate Cell2.m (replicate Cell2.m 1%R)).
Definition store : list buffer := [Buf2 W].
Definition W_ref : ndarray := NdArray 0 false.
Definition no_features : nat -> result vec := features [].
End Full.

(** The run [Duo] with only one covariance matrix in the list. *)
Module Short.
Definition cov_matrices : list mat := [Mat 1 1 [[1%R]]].
Definition entry : nat -> nat -> result R :=
  affinity_entry Duo.epsilon cov_matrices Duo.feature_Vector_testPos
    Duo.feature_Vector_src inv_1x1.
Definition kern (i j : nat) : R :=
  match entry i j with
  | inr v => v
  | inl _ => 0%R
  end.
End Short.

(** * Properties *)

(** ** Array values *)

Lemma mat_get_at a i j :
  mat_wf a -> i < nrows a -> j < ncols a -> mat_get a i j = Some (mat_at a i j).
Proof.
  intros [Hr Hc] Hi Hj. unfold mat_at, mat_get.
  destruct (cells a !! i) as [r|] eqn:Er.
  - assert (length r = ncols a) as Hl by exact (proj1 (Forall_lookup _ _) Hc i r Er).
    destruct (lookup_lt_is_Some_2 r j) as [x Hx]; [lia|]. by rewrite Hx.
  - apply lookup_ge_None in Er. lia.
Qed.

Lemma mat_wf_set a i j v : mat_wf a -> mat_wf (mat_set a i j v).
Proof.
  intros [Hr Hc]. split; simpl.
  - by rewrite length_alter.
  - apply Forall_alter; [done|]. intros r _ Hl. by rewrite length_insert.
Qed.

Lemma mat_get_set_eq a i j v :
  mat_wf a -> i < nrows a -> j < ncols a -> mat_get (mat_set a i j v) i j = Some v.
Proof.
  intros [Hr Hc] Hi Hj. unfold mat_get, mat_set; simpl.
  rewrite list_lookup_alter_eq.
  destruct (cells a !! i) as [r|] eqn:Er; simpl.
  - assert (length r = ncols a) as Hl by exact (proj1 (Forall_lookup _ _) Hc i r Er).
    apply list_lookup_insert_eq. lia.
  - apply lookup_ge_None in Er. lia.
Qed.

Lemma mat_get_set_ne a i j v i' j' :
  i <> i' \/ j <> j' -> mat_get (mat_set a i j v) i' j' = mat_get a i' j'.
Proof.
  intros Hne. unfold mat_get, mat_set; simpl.
  destruct (decide (i = i')) as [<-|Hi].
  - rewrite list_lookup_alter_eq. destruct (cells a !! i) as [r|]; simpl; [|done].
    apply list_lookup_insert_ne. by destruct Hne.
  - by rewrite list_lookup_alter_ne.
Qed.

Lemma mat_wf_T a : mat_wf (mat_T a).
Proof.
  split; simpl.
  - by rewrite length_fmap, length_seq.
  - apply Forall_fmap, Forall_forall. intros j _. simpl.
    by rewrite length_fmap, length_seq.
Qed.

Lemma mat_get_T a i j :
  i < ncols a -> j < nrows a -> mat_get (mat_T a) i j = Some (mat_at a j i).
Proof.
  intros Hi Hj. unfold mat_get, mat_T; simpl.
  rewrite list_lookup_fmap, lookup_seq_lt by done. simpl.
  by rewrite list_lookup_fmap, lookup_seq_lt.
Qed.

Lemma mat_at_T a i j : i < ncols a -> j < nrows a -> mat_at (mat_T a) i j = mat_at a j i.
Proof. intros Hi Hj. unfold mat_at at 1. by rewrite mat_get_T. Qed.

Lemma mat_at_zeros r c i j : mat_at (zeros r c) i j = 0%R.
Proof.
  unfold mat_at, mat_get, zeros; simpl.
  destruct (replicate r (replicate c 0%R) !! i) as [row|] eqn:Er; [|done].
  apply lookup_replicate in Er as [-> _].
  destruct (replicate c 0%R !! j) as [x|] eqn:Ex; [|done].
  by apply lookup_replicate in Ex as [-> _].
Qed.

Lemma mat_ext a b :
  mat_wf a -> mat_wf b -> nrows a = nrows b -> ncols a = ncols b ->
  (forall i j, i < nrows a -> j < ncols a -> mat_get a i j = mat_get b i j) ->
  a = b.
Proof.
  destruct a as [ra ca xa], b as [rb cb xb]. unfold mat_wf, mat_get; simpl.
  intros [Hra Hca] [Hrb Hcb] -> -> Hpt. f_equal.
  apply list_eq. intros i.
  destruct (decide (i < rb)) as [Hi|Hi].
  - destruct (lookup_lt_is_Some_2 xa i) as [r Hr]; [lia|].
    destruct (lookup_lt_is_Some_2 xb i) as [s Hs]; [lia|].
    rewrite Hr, Hs. f_equal. apply list_eq. intros j.
    assert (length r = cb) as Hlr by exact (proj1 (Forall_lookup _ _) Hca i r Hr).
    assert (length s = cb) as Hls by exact (proj1 (Forall_lookup _ _) Hcb i s Hs).
    destruct (decide (j < cb)) as [Hj|Hj].
    + specialize (Hpt i j Hi Hj). by rewrite Hr, Hs in Hpt.
    + rewrite (proj2 (lookup_ge_None r j)), (proj2 (lookup_ge_None s j)); [done|lia|lia].
  - rewrite (proj2 (lookup_ge_None xa i)), (proj2 (lookup_ge_None xb i)); [done|lia|lia].
Qed.

Lemma mat_T_T a : mat_wf a -> mat_T (mat_T a) = a.
Proof.
  intros Hwf. apply mat_ext; [apply mat_wf_T|done|done|done|].
  simpl. intros i j Hi Hj. rewrite mat_get_T by done.
  unfold mat_at. rewrite mat_get_T by done. simpl.
  symmetry. by apply mat_get_at.
Qed.

Lemma mat_wf_zeros r c : mat_wf (zeros r c).
Proof.
  split; simpl; [by rewrite length_replicate|].
  apply Forall_replicate. by rewrite length_replicate.
Qed.

Lemma mat_wf_hstack x y :
  mat_wf x -> mat_wf y -> nrows x = nrows y -> mat_wf (hstack x y).
Proof.
  intros [Hrx Hcx] [Hry Hcy] Hn. split; simpl.
  - rewrite length_zip_with. lia.
  - apply Forall_lookup. intros i r Hr.
    apply lookup_zip_with_Some in Hr as (u & v & -> & Hu & Hv).
    rewrite length_app.
    rewrite (proj1 (Forall_lookup _ _) Hcx i u Hu).
    by rewrite (proj1 (Forall_lookup _ _) Hcy i v Hv).
Qed.

Lemma mat_get_hstack x y i j :
  mat_wf x -> mat_wf y -> nrows x = nrows y -> i < nrows x -> j < ncols x + ncols y ->
  mat_get (hstack x y) i j =
    Some (if decide (j < ncols x) then mat_at x i j else mat_at y i (j - ncols x)).
Proof.
  intros Hx Hy Hn Hi Hj.
  destruct Hx as [Hrx Hcx]. destruct Hy as [Hry Hcy].
  destruct (lookup_lt_is_Some_2 (cells x) i) as [u Hu]; [lia|].
  destruct (lookup_lt_is_Some_2 (cells y) i) as [v Hv]; [lia|].
  assert (length u = ncols x) as Hlu by exact (proj1 (Forall_lookup _ _) Hcx i u Hu).
  assert (length v = ncols y) as Hlv by exact (proj1 (Forall_lookup _ _) Hcy i v Hv).
  unfold mat_get, hstack, mat_at, mat_get; simpl.
  rewrite lookup_zip_with, Hu, Hv. simpl.
  destruct (decide (j < ncols x)) as [Hlt|Hge].
  - rewrite lookup_app_l by lia.
    destruct (lookup_lt_is_Some_2 u j) as [z Hz]; [lia|]. by rewrite Hz.
  - rewrite lookup_app_r by lia. rewrite Hlu.
    destruct (lookup_lt_is_Some_2 v (j - ncols x)) as [z Hz]; [lia|]. by rewrite Hz.
Qed.

Lemma mat_wf_A_expected m M W kern :
  mat_wf W -> ncols W = m -> mat_wf (A_expected m M W kern).
Proof.
  intros [Hr Hc] Hm. split; simpl.
  - rewrite length_app, length_fmap, length_seq. lia.
  - apply Forall_app. split; [by rewrite <- Hm|].
    apply Forall_fmap, Forall_forall. intros i _. simpl.
    by rewrite length_fmap, length_seq.
Qed.

Lemma mat_get_A_expected m M W kern i j :
  mat_wf W -> ncols W = m -> i < nrows W + M -> j < m ->
  mat_get (A_expected m M W kern) i j =
    Some (if decide (i < nrows W) then mat_at W i j else kern (i - nrows W) j).
Proof.
  intros Hwf Hm Hi Hj. pose proof Hwf as [Hr Hc].
  unfold mat_get at 1. simpl. destruct (decide (i < nrows W)) as [Hlt|Hge].
  - rewrite lookup_app_l by lia.
    pose proof (mat_get_at W i j Hwf Hlt) as Hg. unfold mat_get in Hg.
    apply Hg. lia.
  - rewrite lookup_app_r by lia. rewrite Hr.
    rewrite list_lookup_fmap, lookup_seq_lt by lia. simpl.
    by rewrite list_lookup_fmap, lookup_seq_lt.
Qed.

(** Cell 6 of the notebook prints [A.shape] as [(99, 50)]. *)
Lemma cell6_shape W kern :
  nrows W = Cell2.m ->
  nrows (A_expected Cell2.m Cell2.M W kern) = 99 /\
  ncols (A_expected Cell2.m Cell2.M W kern) = 50.
Proof. intros HW. simpl. rewrite HW. done. Qed.

(** ** Runs over the store *)

Lemma for_each_seq_inv (I : nat -> heap -> Prop) (body : nat -> Run unit) n :
  forall s h,
    I s h ->
    (forall i hh, s <= i < s + n -> I i hh ->
       exists hh', body i hh = (hh', inr tt) /\ I (S i) hh') ->
    exists h', for_each (seq s n) body h = (h', inr tt) /\ I (s + n) h'.
Proof.
  induction n as [|n IH]; intros s h HI Hstep; simpl.
  - exists h. split; [done|]. by replace (s + 0) with s by lia.
  - destruct (Hstep s h ltac:(lia) HI) as (h1 & Hb & HI1).
    destruct (IH (S s) h1 HI1) as (h2 & Hrun & HI2).
    { intros i hh Hi. apply Hstep. lia. }
    exists h2. unfold run_bind. rewrite Hb. split; [done|].
    by replace (s + S n) with (S s + n) by lia.
Qed.

Lemma for_range_inv (I : nat -> heap -> Prop) (body : nat -> Run unit) n h :
  I 0 h ->
  (forall i hh, i < n -> I i hh -> exists hh', body i hh = (hh', inr tt) /\ I (S i) hh') ->
  exists h', for_range n body h = (h', inr tt) /\ I n h'.
Proof.
  intros HI Hstep. apply (for_each_seq_inv I body n 0 h HI).
  intros i hh Hi. apply Hstep. lia.
Qed.

Lemma for_each_seq_fail (I : nat -> heap -> Prop) (body : nat -> Run unit) e k :
  forall n s h,
    k < n ->
    I s h ->
    (forall i hh, s <= i < s + k -> I i hh ->
       exists hh', body i hh = (hh', inr tt) /\ I (S i) hh') ->
    (forall hh, I (s + k) hh -> exists hh', body (s + k) hh = (hh', inl e)) ->
    exists h', for_each (seq s n) body h = (h', inl e).
Proof.
  induction k as [|k IH]; intros n s h Hk HI Hstep Hfail.
  - destruct n as [|n]; [lia|]. simpl. unfold run_bind.
    replace (s + 0) with s in Hfail by lia.
    destruct (Hfail h HI) as [h' ->]. by exists h'.
  - destruct n as [|n]; [lia|]. simpl. unfold run_bind.
    destruct (Hstep s h ltac:(lia) HI) as (h1 & -> & HI1).
    apply (IH n (S s) h1); [lia|done| |].
    + intros i hh Hi. apply Hstep. lia.
    + intros hh Hhh. replace (S s + k) with (s + S k) by lia. apply Hfail.
      by replace (s + S k) with (S s + k) by lia.
Qed.

Lemma load2_last h a : load2 (length h) (h ++ [Buf2 a]) = (h ++ [Buf2 a], inr a).
Proof. unfold load2. by rewrite (list_lookup_middle h [] (Buf2 a) (length h) eq_refl). Qed.

Lemma setitem_transposed_last h C i j v :
  j < nrows C -> i < ncols C ->
  setitem (NdArray (length h) true) i j v (h ++ [Buf2 C])
  = (h ++ [Buf2 (mat_set C j i v)], inr tt).
Proof.
  intros Hj Hi. unfold setitem, run_bind. simpl. rewrite load2_last.
  destruct (decide (j < nrows C /\ i < ncols C)) as [_|Hn]; [|tauto].
  unfold store. f_equal.
  replace (length h) with (length h + 0) at 1 by lia.
  by rewrite insert_app_r.
Qed.

Lemma keeps_ret {A} L (x : A) (Q : A -> Prop) : Q x -> keeps L (run_ret x) Q.
Proof. intros HQ h Hh. simpl. repeat split; [done|]. by intros y [= <-]. Qed.

Lemma keeps_raise {A} L e (Q : A -> Prop) : keeps L (run_raise e) Q.
Proof. intros h Hh. simpl. by repeat split. Qed.

Lemma keeps_lift {A} L (c : result A) : keeps L (lift c) (fun _ => True).
Proof. intros h Hh. simpl. by repeat split. Qed.

Lemma keeps_load2 L l : keeps L (load2 l) (fun _ => True).
Proof.
  intros h Hh. unfold load2. by destruct (h !! l) as [[v|a]|]; simpl; repeat split.
Qed.

Lemma keeps_alloc L b : keeps L (alloc b) (fun l => L <= l).
Proof.
  intros h Hh. unfold alloc; simpl. rewrite length_app. simpl. repeat split.
  - lia.
  - intros l Hl. apply lookup_app_l. lia.
  - by intros x [= <-].
Qed.

Lemma keeps_store L l b : L <= l -> keeps L (store l b) (fun _ => True).
Proof.
  intros Hl h Hh. unfold store; simpl. rewrite length_insert. repeat split; [done|].
  intros l' Hl'. apply list_lookup_insert_ne. lia.
Qed.

Lemma keeps_bind {A B} L (c : Run A) (f : A -> Run B) (P : A -> Prop) (Q : B -> Prop) :
  keeps L c P -> (forall x, P x -> keeps L (f x) Q) -> keeps L (run_bind c f) Q.
Proof.
  intros Hc Hf h Hh. destruct (Hc h Hh) as (Hlen & Hframe & Hres).
  unfold run_bind. destruct (c h) as [h1 [e|x]]; simpl in *.
  - by repeat split.
  - destruct (Hf x (Hres x eq_refl) h1 Hlen) as (Hlen2 & Hframe2 & Hres2).
    repeat split; [done| |done].
    intros l Hl. rewrite Hframe2 by done. by apply Hframe.
Qed.

Lemma keeps_for_each {A} L (xs : list A) (body : A -> Run unit) :
  (forall x, keeps L (body x) (fun _ => True)) ->
  keeps L (for_each xs body) (fun _ => True).
Proof.
  intros Hb. induction xs as [|x xs IH]; simpl.
  - by apply keeps_ret.
  - apply (keeps_bind L _ _ (fun _ => True)); [apply Hb|done].
Qed.

Lemma keeps_read_array L a : keeps L (read_array a) (fun _ => True).
Proof.
  apply (keeps_bind L _ _ (fun _ => True)); [apply keeps_load2|].
  intros b _. by apply keeps_ret.
Qed.

Lemma keeps_fresh_array L b :
  keeps L (do l <- alloc b; run_ret (NdArray l false)) (fun a => L <= base a).
Proof.
  apply (keeps_bind L _ _ (fun l => L <= l)); [apply keeps_alloc|].
  intros l Hl. by apply keeps_ret.
Qed.

Lemma keeps_setitem L a i j v : L <= base a -> keeps L (setitem a i j v) (fun _ => True).
Proof.
  intros Ha. apply (keeps_bind L _ _ (fun _ => True)); [apply keeps_load2|].
  intros b _. simpl. case_decide.
  - by apply keeps_store.
  - apply keeps_raise.
Qed.


(** ** Sums *)

Lemma sum_upto_S_l n f : sum_upto (S n) f = (f 0%nat + sum_upto n (fun i => f (S i)))%R.
Proof.
  unfold sum_upto. simpl. f_equal.
  rewrite <- fmap_S_seq, <- list_fmap_compose. done.
Qed.

Lemma sum_upto_ext n f g :
  (forall i, i < n -> f i = g i) -> sum_upto n f = sum_upto n g.
Proof.
  revert f g. induction n as [|n IH]; intros f g Hfg; [done|].
  rewrite !sum_upto_S_l. rewrite (Hfg 0) by lia. f_equal.
  apply IH. intros i Hi. apply Hfg. lia.
Qed.

Lemma sum_upto_scale_r n f c :
  (sum_upto n f * c)%R = sum_upto n (fun i => (f i * c)%R).
Proof.
  revert f. induction n as [|n IH]; intros f.
  - unfold sum_upto. simpl. lra.
  - rewrite !sum_upto_S_l, <- IH. lra.
Qed.

Lemma sum_upto_zero n f : (forall i, i < n -> f i = 0%R) -> sum_upto n f = 0%R.
Proof.
  revert f. induction n as [|n IH]; intros f Hf; [done|].
  rewrite sum_upto_S_l, (Hf 0) by lia. rewrite IH; [lra|].
  intros i Hi. apply Hf. lia.
Qed.

Lemma sum_upto_single n f j :
  j < n -> (forall i, i < n -> i <> j -> f i = 0%R) -> sum_upto n f = f j.
Proof.
  revert f j. induction n as [|n IH]; intros f j Hj Hf; [lia|].
  rewrite sum_upto_S_l. destruct j as [|j].
  - rewrite sum_upto_zero; [lra|]. intros i Hi. apply Hf; lia.
  - rewrite (Hf 0) by lia. rewrite (IH (fun i => f (S i)) j); [lra|lia|].
    intros i Hi Hne. apply Hf; lia.
Qed.

Lemma dot_raw_sum u v :
  length u = length v ->
  dot_raw u v = sum_upto (length u) (fun a => (vec_at u a * vec_at v a)%R).
Proof.
  revert v. induction u as [|x u IH]; intros [|y v] Hl; try done.
  simpl in Hl. simpl length. rewrite sum_upto_S_l.
  unfold dot_raw in *. simpl. f_equal. apply IH. lia.
Qed.

Lemma vec_at_fmap_seq (f : nat -> R) n i : i < n -> vec_at (f <$> seq 0 n) i = f i.
Proof.
  intros Hi. unfold vec_at. by rewrite list_lookup_fmap, lookup_seq_lt.
Qed.

Lemma vec_at_mat_col a i j : mat_wf a -> i < nrows a -> vec_at (mat_col a j) i = mat_at a i j.
Proof.
  intros [Hr _] Hi. unfold vec_at, mat_col, mat_at, mat_get.
  rewrite list_lookup_fmap.
  destruct (lookup_lt_is_Some_2 (cells a) i) as [r Er]; [lia|]. by rewrite Er.
Qed.

Lemma length_mat_col a j : length (mat_col a j) = length (cells a).
Proof. unfold mat_col. by rewrite length_fmap. Qed.


Lemma vec_ext (u v : vec) :
  length u = length v -> (forall i, i < length u -> vec_at u i = vec_at v i) -> u = v.
Proof.
  intros Hl Hpt. apply list_eq. intros i.
  destruct (decide (i < length u)) as [Hi|Hi].
  - specialize (Hpt i Hi). unfold vec_at in Hpt.
    destruct (lookup_lt_is_Some_2 u i Hi) as [x Hx].
    destruct (lookup_lt_is_Some_2 v i) as [y Hy]; [lia|].
    rewrite Hx, Hy in *. simpl in Hpt. by subst.
  - rewrite (proj2 (lookup_ge_None u i)), (proj2 (lookup_ge_None v i)); [done|lia|lia].
Qed.

(** ** Matrix products and the normalised kernel *)

Lemma vec_at_row a i r k : cells a !! i = Some r -> vec_at r k = mat_at a i k.
Proof. intros Hr. unfold vec_at, mat_at, mat_get. by rewrite Hr. Qed.

Lemma row_length a i r : mat_wf a -> cells a !! i = Some r -> length r = ncols a.
Proof. intros [_ Hc] Hr. exact (proj1 (Forall_lookup _ _) Hc i r Hr). Qed.

Lemma np_matmul_spec a b :
  mat_wf a -> mat_wf b -> ncols a = nrows b ->
  exists p,
    np_matmul a b = inr p /\ mat_wf p /\ nrows p = nrows a /\ ncols p = ncols b /\
    forall i j, i < nrows a -> j < ncols b ->
      mat_at p i j = sum_upto (ncols a) (fun k => (mat_at a i k * mat_at b k j)%R).
Proof.
  intros Ha Hb Hab. unfold np_matmul. case_decide; [|done].
  eexists. split; [done|]. split_and!; try done.
  - split; simpl.
    + rewrite length_fmap. by destruct Ha.
    + apply Forall_fmap, Forall_forall. intros r _. simpl.
      by rewrite length_fmap, length_seq.
  - intros i j Hi Hj. unfold mat_at at 1. unfold mat_get. simpl.
    rewrite list_lookup_fmap.
    destruct (lookup_lt_is_Some_2 (cells a) i) as [r Er]; [destruct Ha; lia|].
    rewrite Er. simpl. rewrite list_lookup_fmap, lookup_seq_lt by done. simpl.
    pose proof (row_length a i r Ha Er) as Hlr.
    rewrite dot_raw_sum by (rewrite length_mat_col; destruct Hb; lia).
    rewrite Hlr. apply sum_upto_ext. intros k Hk.
    rewrite (vec_at_row a i r k Er). by rewrite vec_at_mat_col by (done || lia).
Qed.

Lemma mat_wf_np_ones r c : mat_wf (np_ones r c).
Proof.
  split; simpl; [by rewrite length_replicate|].
  apply Forall_replicate. by rewrite length_replicate.
Qed.

Lemma mat_at_np_ones r c i j : i < r -> j < c -> mat_at (np_ones r c) i j = 1%R.
Proof.
  intros Hi Hj. unfold mat_at, mat_get, np_ones; simpl.
  rewrite lookup_replicate_2 by done. by rewrite lookup_replicate_2.
Qed.

Lemma mat_wf_map f a : mat_wf a -> mat_wf (mat_map f a).
Proof.
  intros [Hr Hc]. split; simpl; [by rewrite length_fmap|].
  apply Forall_fmap. eapply Forall_impl; [exact Hc|].
  intros r Hl. simpl. by rewrite length_fmap.
Qed.

Lemma mat_at_map f a i j :
  mat_wf a -> i < nrows a -> j < ncols a -> mat_at (mat_map f a) i j = f (mat_at a i j).
Proof.
  intros Ha Hi Hj. pose proof (mat_get_at a i j Ha Hi Hj) as Hg.
  unfold mat_at at 1. unfold mat_get in *. simpl. rewrite list_lookup_fmap.
  destruct (cells a !! i) as [r|]; [|done]. simpl.
  rewrite list_lookup_fmap, Hg. done.
Qed.

Lemma A1_column a :
  mat_wf a -> ncols a = 1 ->
  length (A1 a) = nrows a /\ forall i, i < nrows a -> vec_at (A1 a) i = mat_at a i 0.
Proof.
  intros [Hr Hc] H1. rewrite H1 in Hc.
  assert (A1 a = (fun r => default 0%R (r !! 0)) <$> cells a) as ->.
  { unfold A1. clear Hr. induction (cells a) as [|r l IH]; [done|].
    apply Forall_cons in Hc as [Hl Hc]. simpl. rewrite IH by done.
    by destruct r as [|x [|y r]]. }
  split; [by rewrite length_fmap|].
  intros i Hi. unfold vec_at, mat_at, mat_get. rewrite list_lookup_fmap.
  destruct (lookup_lt_is_Some_2 (cells a) i) as [r Er]; [lia|]. by rewrite Er.
Qed.

Lemma mat_wf_np_diag (v : vec) : mat_wf (np_diag v).
Proof.
  split; simpl; [by rewrite length_imap|].
  apply Forall_lookup. intros i r Hr.
  rewrite list_lookup_imap in Hr.
  destruct (v !! i) as [x|]; [|done]. simpl in Hr. injection Hr as <-.
  by rewrite length_insert, length_replicate.
Qed.

Lemma mat_at_np_diag (v : vec) i j :
  i < length v -> j < length v ->
  mat_at (np_diag v) i j = if decide (i = j) then vec_at v i else 0%R.
Proof.
  intros Hi Hj. unfold mat_at, mat_get, np_diag, vec_at; simpl.
  rewrite list_lookup_imap.
  destruct (lookup_lt_is_Some_2 v i Hi) as [x Ex]. rewrite Ex. simpl.
  case_decide as Hij.
  - subst j. by rewrite list_lookup_insert_eq by by rewrite length_replicate.
  - rewrite list_lookup_insert_ne by done. by rewrite lookup_replicate_2.
Qed.

Lemma np_matmul_cells a b p :
  np_matmul a b = inr p ->
  cells p = (fun r => (fun j => dot_raw r (mat_col b j)) <$> seq 0 (ncols b)) <$> cells a.
Proof. unfold np_matmul. case_decide; [|done]. by intros [= <-]. Qed.

(** Cell 7 on an array with [m] columns: it returns, and scales column [j]
    by [1 / sqrt ((A^T A 1)_j)]. *)
Lemma A_tilde_spec m A :
  mat_wf A -> ncols A = m ->
  exists At,
    A_tilde m A = inr At /\ np_matmul A (np_diag (S_inv_sqrt m A)) = inr At /\
    mat_wf At /\ nrows At = nrows A /\ ncols At = m /\
    forall i j, i < nrows A -> j < m ->
      mat_at At i j = (mat_at A i j * (1 / sqrt (degree A j)))%R.
Proof.
  intros HA Hm. unfold A_tilde.
  destruct (np_matmul_spec (mat_T A) A (mat_wf_T A) HA eq_refl)
    as (AtA & -> & HwfG & HrG & HcG & HG). simpl in HrG, HG. simpl.
  destruct (np_matmul_spec AtA (np_ones m 1) HwfG (mat_wf_np_ones m 1))
    as (deg & -> & HwfD & HrD & HcD & HD); [simpl; lia|]. simpl in HcD, HD. simpl.
  set (v := mat_map (fun x => (1 / sqrt x)%R) deg).
  assert (mat_wf v) as Hwfv by by apply mat_wf_map.
  destruct (A1_column v Hwfv) as [Hlen Hv1]; [done|]. simpl in Hlen, Hv1.
  assert (A1 v = S_inv_sqrt m A) as ->.
  { apply vec_ext; unfold S_inv_sqrt; [rewrite length_fmap, length_seq; lia|].
    intros j Hj. rewrite Hv1, vec_at_fmap_seq by lia.
    unfold v. rewrite mat_at_map by (done || lia). do 2 f_equal.
    rewrite HD by lia. unfold degree. rewrite HcG, Hm.
    apply sum_upto_ext. intros c Hc. rewrite mat_at_np_ones by lia. f_equal.
    rewrite HG by lia. apply sum_upto_ext. intros r Hr.
    by rewrite mat_at_T by lia. }
  assert (length (S_inv_sqrt m A) = m) as HlS.
  { unfold S_inv_sqrt. by rewrite length_fmap, length_seq. }
  destruct (np_matmul_spec A (np_diag (S_inv_sqrt m A)) HA (mat_wf_np_diag _))
    as (At & HAt & HwfT & HrT & HcT & HT); [simpl; lia|]. simpl in HcT, HT.
  rewrite HAt. exists At. split_and!; try done; [lia|].
  intros i j Hi Hj. rewrite HT by lia.
  rewrite (sum_upto_single _ _ j) by
    (lia || (intros k Hk Hne; rewrite mat_at_np_diag by lia;
             case_decide; [done|lra])).
  rewrite mat_at_np_diag by lia. case_decide; [|done]. f_equal.
  unfold S_inv_sqrt. by rewrite vec_at_fmap_seq by lia.
Qed.

(** ** The test stage *)

Section TestStageFacts.

Variables m M : nat.
Variable epsilon : R.
Variable cov_matrices : list mat.
Variable feature_Vector_testPos : nat -> result vec.
Variable feature_Vector_src : nat -> result vec.
Variable np_linalg_inv : mat -> result mat.

Local Abbreviation entry :=
  (affinity_entry epsilon cov_matrices feature_Vector_testPos feature_Vector_src
     np_linalg_inv).
Local Abbreviation fill :=
  (cell5 m M epsilon cov_matrices feature_Vector_testPos feature_Vector_src
     np_linalg_inv).
Local Abbreviation stage :=
  (test_stage m M epsilon cov_matrices feature_Vector_testPos feature_Vector_src
     np_linalg_inv).

(** What cell 4 leaves in the store: the copy of [W], the block of zeros,
    and the buffer of [np.c_], of which [A] is the transposed view. *)
Lemma cell4_spec h W w :
  h !! base W = Some (Buf2 w) ->
  mat_wf (view W w) -> nrows (view W w) = m -> ncols (view W w) = m ->
  cell4 m M W h =
    (h ++ [Buf2 (view W w); Buf2 (zeros m M);
           Buf2 (hstack (mat_T (view W w)) (zeros m M))],
     inr (NdArray (length h + 2) true)).
Proof.
  intros Hw Hwf Hr Hc. set (Wv := view W w) in *.
  unfold cell4, ndarray_copy, np_zeros, np_c_, read_array, run_bind, alloc, run_ret.
  unfold load2 at 1. rewrite Hw. fold Wv. simpl.
  unfold load2 at 1.
  rewrite (lookup_app_l (h ++ [Buf2 Wv])) by (rewrite length_app; simpl; lia).
  rewrite (list_lookup_middle h [] (Buf2 Wv) (length h) eq_refl).
  unfold load2 at 1. rewrite length_app. simpl.
  rewrite (list_lookup_middle (h ++ [Buf2 Wv]) [] (Buf2 (zeros m M)) (length h + 1))
    by (rewrite length_app; simpl; lia).
  unfold view at 1 2 3 4. simpl.
  destruct (decide (ncols Wv = m)) as [_|Hn]; [|done].
  rewrite !length_app. simpl. rewrite <- !app_assoc. simpl.
  unfold view, ndarray_T. simpl. do 3 f_equal. lia.
Qed.

(** The double loop, run on the buffer cell 4 built: it returns, and fills
    the columns of the test samples of the buffer and nothing else. *)
Lemma cell5_spec h1 C Wv kern :
  (forall i j, i < M -> j < m -> entry i j = inr (kern i j)) ->
  mat_wf C -> nrows C = m -> ncols C = m + M ->
  (forall r c, r < m -> c < m + M ->
     mat_get C r c = Some (if decide (c < m) then mat_at Wv c r else 0%R)) ->
  exists C',
    fill (NdArray (length h1) true) (h1 ++ [Buf2 C]) = (h1 ++ [Buf2 C'], inr tt) /\
    mat_wf C' /\ nrows C' = m /\ ncols C' = m + M /\
    (forall r c, r < m -> c < m + M ->
       mat_get C' r c =
         Some (if decide (c < m) then mat_at Wv c r else kern (c - m) r)).
Proof.
  intros Hk HwfC HrC HcC HC.
  pose (Inv := fun (i j : nat) (hh : heap) =>
    exists C', hh = h1 ++ [Buf2 C'] /\
      mat_wf C' /\ nrows C' = m /\ ncols C' = m + M /\
      forall r c, r < m -> c < m + M ->
        mat_get C' r c =
          Some (if decide (c < m) then mat_at Wv c r
                else if decide (c - m < i \/ (c - m = i /\ r < j))
                     then kern (c - m) r else 0%R)).
  destruct (for_range_inv (fun i => Inv i 0)
              (fun i => for_range m (fun j =>
                 do v <- lift (entry i j);
                 setitem (NdArray (length h1) true) (i + m) j v))
              M (h1 ++ [Buf2 C])) as (h' & Hrun & HI).
  - exists C. split_and!; try done.
    intros r c Hr Hc. rewrite HC by done. f_equal.
    repeat case_decide; try done; lia.
  - intros i hh Hi HIi.
    destruct (for_range_inv (fun j => Inv i j)
                (fun j => do v <- lift (entry i j);
                          setitem (NdArray (length h1) true) (i + m) j v)
                m hh HIi) as (hh' & Hrun & HI).
    + intros j h2 Hj (C2 & -> & Hwf2 & Hr2 & Hc2 & Hpt2).
      exists (h1 ++ [Buf2 (mat_set C2 j (i + m) (kern i j))]). split.
      * unfold run_bind, lift. rewrite Hk by done.
        apply setitem_transposed_last; lia.
      * exists (mat_set C2 j (i + m) (kern i j)).
        split; [done|]. split; [by apply mat_wf_set|]. split_and!; try done.
        intros r c Hr Hc.
        destruct (decide (j = r /\ i + m = c)) as [[<- <-]|Hne].
        -- rewrite mat_get_set_eq by (done || lia). f_equal.
           repeat case_decide; try done; try lia.
           replace (i + m - m) with i by lia. done.
        -- rewrite mat_get_set_ne by lia. rewrite Hpt2 by done. f_equal.
           repeat case_decide; try done; lia.
    + exists hh'. split; [done|].
      destruct HI as (C2 & -> & Hwf2 & Hr2 & Hc2 & Hpt2).
      exists C2. split_and!; try done.
      intros r c Hr Hc. rewrite Hpt2 by done. f_equal.
      repeat case_decide; try done; lia.
  - destruct HI as (C' & -> & Hwf' & Hr' & Hc' & Hpt').
    exists C'. split_and!; try done.
    intros r c Hr Hc. rewrite Hpt' by done. f_equal.
    repeat case_decide; try done; lia.
Qed.


(** The whole test stage on a well-formed [m] x [m] array [W], when every
    kernel evaluation returns: the store grows by three buffers, the last
    of which holds [A] transposed. *)
Lemma test_stage_spec h W w kern :
  h !! base W = Some (Buf2 w) ->
  mat_wf (view W w) -> nrows (view W w) = m -> ncols (view W w) = m ->
  (forall i j, i < M -> j < m -> entry i j = inr (kern i j)) ->
  stage W h =
    (h ++ [Buf2 (view W w); Buf2 (zeros m M);
           Buf2 (mat_T (A_expected m M (view W w) kern))],
     inr (NdArray (length h + 2) true)).
Proof.
  intros Hw Hwf Hr Hc Hk. set (Wv := view W w) in *.
  unfold test_stage, run_bind. rewrite (cell4_spec h W w Hw Hwf Hr Hc). fold Wv.
  set (h1 := h ++ [Buf2 Wv; Buf2 (zeros m M)]).
  set (C := hstack (mat_T Wv) (zeros m M)).
  assert (length h + 2 = length h1) as ->.
  { unfold h1. rewrite length_app. simpl. lia. }
  assert (forall b, h ++ [Buf2 Wv; Buf2 (zeros m M); b] = h1 ++ [b]) as Happ.
  { intros b. unfold h1. by rewrite <- app_assoc. }
  rewrite !Happ.
  assert (mat_wf C) as HwfC.
  { apply mat_wf_hstack; [apply mat_wf_T|apply mat_wf_zeros|]. simpl. lia. }
  destruct (cell5_spec h1 C Wv kern Hk HwfC) as (C' & Hrun & Hwf' & Hr' & Hc' & Hpt').
  - simpl. lia.
  - simpl. lia.
  - intros r c Hrr Hcc. unfold C.
    rewrite mat_get_hstack; [|apply mat_wf_T|apply mat_wf_zeros|simpl; lia..].
    f_equal. simpl. rewrite Hr.
    case_decide; [|apply mat_at_zeros].
    apply mat_at_T; lia.
  - rewrite Hrun. unfold run_ret. do 4 f_equal.
    assert (mat_wf (A_expected m M Wv kern)) as HwfA by by apply mat_wf_A_expected.
    apply mat_ext; [done|apply mat_wf_T|simpl; lia|simpl; lia|].
    intros r c Hrr Hcc. rewrite Hpt' by lia.
    rewrite mat_get_T by (simpl; lia). f_equal.
    unfold mat_at at 2. rewrite mat_get_A_expected by (done || lia). simpl.
    rewrite Hr. by repeat case_decide; try lia.
Qed.

(** What the test stage leaves in [A], read through the view. *)
Lemma test_stage_read h b1 b2 Aexp :
  mat_wf Aexp ->
  read_array (NdArray (length h + 2) true) (h ++ [b1; b2; Buf2 (mat_T Aexp)])
  = (h ++ [b1; b2; Buf2 (mat_T Aexp)], inr Aexp).
Proof.
  intros Hwf. unfold read_array, run_bind, load2, run_ret. simpl.
  rewrite lookup_app_r by lia.
  replace (length h + 2 - length h) with 2 by lia. simpl.
  unfold view. simpl. by rewrite mat_T_T.
Qed.

(** Whatever happens in the test stage, the buffers that were in the
    store before it are left as they were. *)
Lemma test_stage_keeps L W : keeps L (stage W) (fun A => L <= base A).
Proof.
  unfold test_stage.
  apply (keeps_bind L _ _ (fun A => L <= base A)).
  - unfold cell4.
    apply (keeps_bind L _ _ (fun A => L <= base A)).
    { unfold ndarray_copy.
      apply (keeps_bind L _ _ (fun _ => True)); [apply keeps_read_array|].
      intros v _. apply keeps_fresh_array. }
    intros A HA.
    apply (keeps_bind L _ _ (fun A => L <= base A)).
    { apply keeps_fresh_array. }
    intros Z HZ.
    apply (keeps_bind L _ _ (fun A => L <= base A)).
    { unfold np_c_.
      apply (keeps_bind L _ _ (fun _ => True)); [apply keeps_read_array|].
      intros x _.
      apply (keeps_bind L _ _ (fun _ => True)); [apply keeps_read_array|].
      intros y _. case_decide; [apply keeps_fresh_array|apply keeps_raise]. }
    intros C HC. by apply keeps_ret.
  - intros A HA.
    apply (keeps_bind L _ _ (fun _ => True)); [|intros _ _; by apply keeps_ret].
    unfold cell5, for_range. apply keeps_for_each. intros i.
    apply keeps_for_each. intros j.
    apply (keeps_bind L _ _ (fun _ => True)); [apply keeps_lift|].
    intros v _. by apply keeps_setitem.
Qed.

Lemma affinity_entry_inv i j v :
  entry i j = inr v ->
  exists t s cov,
    feature_Vector_testPos i = inr t /\ feature_Vector_src j = inr s /\
    cov_matrices !! j = Some cov /\
    gaussian_kernel epsilon np_linalg_inv t s cov = inr v.
Proof.
  unfold affinity_entry, rbind.
  destruct (feature_Vector_testPos i) as [e|t]; [done|].
  destruct (feature_Vector_src j) as [e|s]; [done|].
  destruct (cov_matrices !! j) as [cov|]; [|done]. simpl.
  intros Hv. by exists t, s, cov.
Qed.

Lemma np_sub_same_length (a b : vec) :
  length a = length b -> np_sub a b = inr (zip_with Rminus a b).
Proof.
  intros Hl. unfold np_sub.
  destruct a as [|x [|x' a]], b as [|y [|y' b]]; simpl in *; try done;
    by case_decide.
Qed.

Lemma vec_at_sub_self (t : vec) a : vec_at (zip_with Rminus t t) a = 0%R.
Proof.
  unfold vec_at. rewrite lookup_zip_with.
  destruct (t !! a) as [x|]; simpl; [lra|done].
Qed.

(** The quadratic form the loop computes with two matrix products is the
    squared Mahalanobis distance. *)
Lemma mahalanobis_nom_spec (t s : vec) P :
  mat_wf P -> nrows P = length t -> ncols P = length t -> length s = length t ->
  mahalanobis_nom t s P = inr (mahalanobis_sq (zip_with Rminus t s) P).
Proof.
  intros HwfP Hr Hc Hs. unfold mahalanobis_nom.
  rewrite np_sub_same_length by done. simpl.
  set (d := zip_with Rminus t s).
  assert (length d = length t) as Hd.
  { unfold d. rewrite length_zip_with. lia. }
  unfold np_vecmat. case_decide; [|lia]. simpl.
  unfold np_dot. rewrite length_fmap, length_seq. case_decide; [|lia].
  f_equal. rewrite dot_raw_sum by (rewrite length_fmap, length_seq; lia).
  rewrite length_fmap, length_seq. unfold mahalanobis_sq.
  rewrite Hc, Hd. apply sum_upto_ext. intros b Hb.
  rewrite vec_at_fmap_seq by lia.
  rewrite dot_raw_sum by (rewrite length_mat_col; destruct HwfP; lia).
  rewrite sum_upto_scale_r, Hd. apply sum_upto_ext. intros a Ha.
  by rewrite vec_at_mat_col by (done || lia).
Qed.

Lemma mahalanobis_sq_self (t : vec) P : mahalanobis_sq (zip_with Rminus t t) P = 0%R.
Proof.
  unfold mahalanobis_sq. apply sum_upto_zero. intros b _.
  apply sum_upto_zero. intros a _. rewrite !vec_at_sub_self. lra.
Qed.

Lemma gaussian_kernel_spec (t s : vec) cov P :
  np_linalg_inv cov = inr P ->
  mat_wf P -> nrows P = length t -> ncols P = length t -> length s = length t ->
  gaussian_kernel epsilon np_linalg_inv t s cov =
    inr (exp (- mahalanobis_sq (zip_with Rminus t s) P / epsilon)).
Proof.
  intros Hinv HwfP Hr Hc Hs. unfold gaussian_kernel. rewrite Hinv. simpl.
  by rewrite mahalanobis_nom_spec.
Qed.

(** C1: after the test stage [A] has [m+M] rows and [m] columns; entry
    [(i, j)] of its top [m] x [m] block is [W[i, j]]; entry [(m+i, j)] of
    its bottom block is [exp (- d2 / epsilon)], with [d2] the squared
    Mahalanobis distance of test feature vector [i] and training feature
    vector [j] under the inverse of the covariance of training source [j].
    When [W] holds that kernel for the pairs of training feature vectors,
    every row of [A] holds it for the feature vector of its sample. Stated
    for a well-formed [m] x [m] array [W], feature vectors of one length
    [D] and covariance matrices [np.linalg.inv] inverts to well-formed [D]
    x [D] arrays. *)
Theorem C1_test_affinity_blocks h W w D (T S : nat -> vec) (C P : nat -> mat) :
  h !! base W = Some (Buf2 w) ->
  mat_wf (view W w) -> nrows (view W w) = m -> ncols (view W w) = m ->
  (forall i, i < M -> feature_Vector_testPos i = inr (T i) /\ length (T i) = D) ->
  (forall j, j < m ->
     feature_Vector_src j = inr (S j) /\ length (S j) = D /\
     cov_matrices !! j = Some (C j) /\ np_linalg_inv (C j) = inr (P j) /\
     mat_wf (P j) /\ nrows (P j) = D /\ ncols (P j) = D) ->
  exists h' A Av,
    stage W h = (h', inr A) /\ read_array A h' = (h', inr Av) /\
    mat_wf Av /\ nrows Av = m + M /\ ncols Av = m /\
    (forall i j, i < m -> j < m -> mat_get Av i j = mat_get (view W w) i j) /\
    (forall i j, i < M -> j < m ->
       gaussian_kernel epsilon np_linalg_inv (T i) (S j) (C j) =
         inr (kernel_value epsilon (T i) (S j) (P j)) /\
       mat_get Av (m + i) j = Some (kernel_value epsilon (T i) (S j) (P j))) /\
    ((forall t j, t < m -> j < m ->
        mat_get (view W w) t j = Some (kernel_value epsilon (S t) (S j) (P j))) ->
     forall r j, r < m + M -> j < m ->
       mat_get Av r j =
         Some (kernel_value epsilon (if decide (r < m) then S r else T (r - m))
                 (S j) (P j))).
Proof.
  intros Hw Hwf Hr Hc HT HS.
  set (kern := fun i j => kernel_value epsilon (T i) (S j) (P j)).
  assert (forall i j, i < M -> j < m ->
            gaussian_kernel epsilon np_linalg_inv (T i) (S j) (C j) = inr (kern i j))
    as Hg.
  { intros i j Hi Hj. destruct (HT i Hi) as [_ HlT].
    destruct (HS j Hj) as (_ & HlS & _ & Hinv & HwfP & HrP & HcP).
    apply gaussian_kernel_spec; (done || lia). }
  assert (forall i j, i < M -> j < m -> entry i j = inr (kern i j)) as Hk.
  { intros i j Hi Hj. destruct (HT i Hi) as [Ht _].
    destruct (HS j Hj) as (Hs & _ & Hcov & _).
    unfold affinity_entry. rewrite Ht, Hs, Hcov. simpl. by apply Hg. }
  assert (mat_wf (A_expected m M (view W w) kern)) as HwfA
    by by apply mat_wf_A_expected.
  assert (forall i j, i < M -> j < m ->
            mat_get (A_expected m M (view W w) kern) (m + i) j = Some (kern i j))
    as Hbottom.
  { intros i j Hi Hj. rewrite mat_get_A_expected by (done || lia).
    case_decide; [lia|]. do 2 f_equal. lia. }
  assert (forall i j, i < m -> j < m ->
            mat_get (A_expected m M (view W w) kern) i j = mat_get (view W w) i j)
    as Htop.
  { intros i j Hi Hj. rewrite mat_get_A_expected by (done || lia).
    case_decide; [|lia]. symmetry. apply mat_get_at; (done || lia). }
  eexists _, _, (A_expected m M (view W w) kern).
  split; [by apply test_stage_spec|].
  split; [by apply test_stage_read|].
  split_and!; try done; [simpl; lia|..].
  - intros i j Hi Hj. split; [by apply Hg|by apply Hbottom].
  - intros HW r j Hrr Hj. case_decide as Hlt.
    + rewrite Htop by done. by apply HW.
    + replace r with (m + (r - m)) at 1 by lia. apply Hbottom; lia.
Qed.

(** C2: for test sample [i] and training sample [j] the kernel entry is
    [exp (- d2 / epsilon)], with [d2] the squared Mahalanobis distance
    [(T_i - T_j) C_j^(-1) (T_i - T_j)^T] under the inverse of the covariance
    of source [j]; for identical feature vectors it is exactly 1. *)
Theorem C2_kernel_entry i j (t s : vec) cov P :
  feature_Vector_testPos i = inr t -> feature_Vector_src j = inr s ->
  cov_matrices !! j = Some cov -> np_linalg_inv cov = inr P ->
  mat_wf P -> nrows P = length t -> ncols P = length t -> length s = length t ->
  entry i j = inr (exp (- mahalanobis_sq (zip_with Rminus t s) P / epsilon)) /\
  (t = s -> entry i j = inr 1%R).
Proof.
  intros Ht Hs Hcov Hinv HwfP Hr Hc Hl.
  assert (entry i j =
          inr (exp (- mahalanobis_sq (zip_with Rminus t s) P / epsilon))) as He.
  { unfold affinity_entry. rewrite Ht, Hs, Hcov. simpl.
    by apply gaussian_kernel_spec. }
  split; [done|]. intros <-. rewrite He, mahalanobis_sq_self. f_equal.
  replace (- 0 / epsilon)%R with 0%R by (unfold Rdiv; lra). apply exp_0.
Qed.

(** The test stage stops at the first kernel evaluation that raises, with
    that exception. *)
Lemma test_stage_raises h W w kern j0 e :
  h !! base W = Some (Buf2 w) ->
  mat_wf (view W w) -> nrows (view W w) = m -> ncols (view W w) = m ->
  0 < M -> j0 < m ->
  (forall j, j < j0 -> entry 0 j = inr (kern j)) ->
  entry 0 j0 = inl e ->
  snd (stage W h) = inl e.
Proof.
  intros Hw Hwf Hr Hc HM Hj0 Hbefore Hfail. set (Wv := view W w) in *.
  unfold test_stage, run_bind. rewrite (cell4_spec h W w Hw Hwf Hr Hc). fold Wv.
  set (h1 := h ++ [Buf2 Wv; Buf2 (zeros m M)]).
  set (C := hstack (mat_T Wv) (zeros m M)).
  assert (length h + 2 = length h1) as ->.
  { unfold h1. rewrite length_app. simpl. lia. }
  assert (h ++ [Buf2 Wv; Buf2 (zeros m M); Buf2 C] = h1 ++ [Buf2 C]) as ->.
  { unfold h1. by rewrite <- app_assoc. }
  assert (mat_wf C) as HwfC.
  { apply mat_wf_hstack; [apply mat_wf_T|apply mat_wf_zeros|]. simpl. lia. }
  pose (Inv := fun (_ : nat) (hh : heap) =>
    exists C', hh = h1 ++ [Buf2 C'] /\ mat_wf C' /\ nrows C' = m /\ ncols C' = m + M).
  assert (Inv 0 (h1 ++ [Buf2 C])) as HI0.
  { exists C. split_and!; try done; simpl; lia. }
  destruct (for_each_seq_fail Inv
              (fun i => for_range m (fun j =>
                 do v <- lift (entry i j);
                 setitem (NdArray (length h1) true) (i + m) j v))
              e 0 M 0 (h1 ++ [Buf2 C]) HM HI0) as [h' Hrun].
  - intros i hh Hi. lia.
  - intros hh Hhh. simpl.
    apply (for_each_seq_fail Inv _ e j0 m 0 hh Hj0 Hhh).
    + intros j h2 Hj (C2 & -> & Hwf2 & Hr2 & Hc2).
      exists (h1 ++ [Buf2 (mat_set C2 j (0 + m) (kern j))]). split.
      * unfold run_bind, lift. rewrite Hbefore by lia.
        apply setitem_transposed_last; lia.
      * exists (mat_set C2 j (0 + m) (kern j)).
        split; [done|]. split; [by apply mat_wf_set|]. done.
    + intros h2 _. exists h2. unfold run_bind, lift. simpl. by rewrite Hfail.
  - unfold cell5. unfold for_range in *. by rewrite Hrun.
Qed.

(** C6, amended: the test stage has no check or diagnostic of its own on
    the covariance matrices. When [np.linalg.inv] refuses the matrix of
    source [j0] in the first pass of the outer loop, the stage stops with the
    exception [np.linalg.inv] raised, unchanged; a matrix [np.linalg.inv]
    accepts is used as it is returned. *)
Theorem C6_inverse_failure h W w kern j0 t s cov e :
  h !! base W = Some (Buf2 w) ->
  mat_wf (view W w) -> nrows (view W w) = m -> ncols (view W w) = m ->
  0 < M -> j0 < m ->
  (forall j, j < j0 -> entry 0 j = inr (kern j)) ->
  feature_Vector_testPos 0 = inr t -> feature_Vector_src j0 = inr s ->
  cov_matrices !! j0 = Some cov -> np_linalg_inv cov = inl e ->
  snd (stage W h) = inl e /\
  (forall t' s' cov' P,
     np_linalg_inv cov' = inr P ->
     mat_wf P -> nrows P = length t' -> ncols P = length t' -> length s' = length t' ->
     gaussian_kernel epsilon np_linalg_inv t' s' cov' =
       inr (exp (- mahalanobis_sq (zip_with Rminus t' s') P / epsilon))).
Proof.
  intros Hw Hwf Hr Hc HM Hj0 Hbefore Ht Hs Hcov Hinv. split.
  - apply (test_stage_raises h W w kern j0 e); try done.
    unfold affinity_entry, gaussian_kernel. rewrite Ht, Hs, Hcov. simpl.
    by rewrite Hinv.
  - intros t' s' cov' P. apply gaussian_kernel_spec.
Qed.

End TestStageFacts.

(** ** Cells 3 to 8 *)

Section EmbeddingFacts.

Variables m M d : nat.
Variable epsilon : R.
Variable cov_matrices : list mat.
Variable feature_Vector_testPos : nat -> result vec.
Variable feature_Vector_src : nat -> result vec.
Variable np_linalg_inv : mat -> result mat.
Variable np_linalg_eig : mat -> result (vec * mat).
Variable compute_train_featVects : nat -> result (list vec).
Variable compute_d_left_sing_vect : nat -> vec -> mat -> mat -> nat -> result mat.

Local Abbreviation entry :=
  (affinity_entry epsilon cov_matrices feature_Vector_testPos feature_Vector_src
     np_linalg_inv).
Local Abbreviation stage :=
  (test_stage m M epsilon cov_matrices feature_Vector_testPos feature_Vector_src
     np_linalg_inv).
Local Abbreviation embed :=
  (embedding m M d epsilon cov_matrices feature_Vector_testPos feature_Vector_src
     np_linalg_inv np_linalg_eig compute_train_featVects compute_d_left_sing_vect).

Lemma lookup_app_add {A} (h l : list A) k : (h ++ l) !! (length h + k) = l !! k.
Proof. rewrite lookup_app_r by lia. f_equal. lia. Qed.

(** The run of cells 3 to 8 when every step returns: the Nystrom step is
    called on the eigen-pairs [np.linalg.eig] gave for [W] and on the
    normalised [A]. *)
Lemma embedding_spec h W w kern vals vects tf :
  h !! base W = Some (Buf2 w) ->
  mat_wf (view W w) -> nrows (view W w) = m -> ncols (view W w) = m ->
  (forall i j, i < M -> j < m -> entry i j = inr (kern i j)) ->
  np_linalg_eig (view W w) = inr (vals, vects) ->
  compute_train_featVects m = inr tf ->
  exists At,
    A_tilde m (A_expected m M (view W w) kern) = inr At /\
    embed W h =
      (h ++ [Buf1 vals; Buf2 vects; Buf2 (view W w); Buf2 (zeros m M);
             Buf2 (mat_T (A_expected m M (view W w) kern))],
       try singular_vects := compute_d_left_sing_vect (m + M) vals vects At d in
       ok (tf, singular_vects)).
Proof.
  intros Hw Hwf Hr Hc Hk Heig Htf. set (Wv := view W w) in *.
  assert (mat_wf (A_expected m M Wv kern)) as HwfA by by apply mat_wf_A_expected.
  destruct (A_tilde_spec m (A_expected m M Wv kern) HwfA eq_refl)
    as (At & HAt & _).
  exists At. split; [done|].
  pose proof (lookup_lt_Some _ _ _ Hw) as Hlt.
  unfold embedding, run_bind.
  assert (cell3_eig np_linalg_eig W h
          = (h ++ [Buf1 vals; Buf2 vects],
             inr (length h, NdArray (length h + 1) false))) as ->.
  { unfold cell3_eig, read_array, run_bind, load2, lift, alloc, run_ret.
    rewrite Hw. fold Wv. rewrite Heig. simpl.
    rewrite <- app_assoc, length_app. simpl. done. }
  set (he := h ++ [Buf1 vals; Buf2 vects]).
  assert (he !! base W = Some (Buf2 w)) as Hwe.
  { unfold he. by rewrite lookup_app_l. }
  rewrite (test_stage_spec m M epsilon cov_matrices feature_Vector_testPos
             feature_Vector_src np_linalg_inv he W w kern Hwe Hwf Hr Hc Hk).
  fold Wv. unfold cell7, run_bind.
  rewrite test_stage_read by done. unfold lift. rewrite HAt.
  unfold cell8, run_bind, load1, read_array, load2, run_ret, lift, view.
  rewrite Htf. simpl.
  unfold he. rewrite <- !app_assoc. simpl.
  rewrite (list_lookup_middle h _ (Buf1 vals) (length h) eq_refl).
  unfold run_bind. rewrite lookup_app_add. simpl.
  by destruct (compute_d_left_sing_vect (m + M) vals vects At d).
Qed.

(** C10: the test stage leaves every buffer that was in the store before
    it as it was, whatever its outcome: [W] and the eigen-pairs are not
    written to. When the stage returns, [A] is a fresh array whose first
    [m] rows are the rows of [W], [W] still reads as before, and the
    Nystrom step of cell 8 is called on the eigenvalues and eigenvectors
    [np.linalg.eig] gave for [W]. *)
Theorem C10_test_stage_frame h W :
  (forall l, l < length h -> fst (stage W h) !! l = h !! l) /\
  (forall w kern vals vects tf,
     h !! base W = Some (Buf2 w) ->
     mat_wf (view W w) -> nrows (view W w) = m -> ncols (view W w) = m ->
     (forall i j, i < M -> j < m -> entry i j = inr (kern i j)) ->
     np_linalg_eig (view W w) = inr (vals, vects) ->
     compute_train_featVects m = inr tf ->
     exists h' A Av At,
       stage W h = (h', inr A) /\ length h <= base A /\
       read_array A h' = (h', inr Av) /\
       (forall i, i < m -> cells Av !! i = cells (view W w) !! i) /\
       read_array W h' = (h', inr (view W w)) /\
       A_tilde m Av = inr At /\
       snd (embed W h) =
         (try singular_vects := compute_d_left_sing_vect (m + M) vals vects At d in
          ok (tf, singular_vects))).
Proof.
  split.
  - intros l Hl.
    destruct (test_stage_keeps m M epsilon cov_matrices feature_Vector_testPos
                feature_Vector_src np_linalg_inv (length h) W h (le_n _))
      as (_ & Hkeep & _).
    by apply Hkeep.
  - intros w kern vals vects tf Hw Hwf Hr Hc Hk Heig Htf.
    destruct (embedding_spec h W w kern vals vects tf Hw Hwf Hr Hc Hk Heig Htf)
      as (At & HAt & Hrun).
    assert (mat_wf (A_expected m M (view W w) kern)) as HwfA
      by by apply mat_wf_A_expected.
    pose proof (lookup_lt_Some _ _ _ Hw) as Hlt.
    eexists _, _, (A_expected m M (view W w) kern), At.
    split; [by apply test_stage_spec|].
    split; [simpl; lia|].
    split; [by apply test_stage_read|].
    split_and!; try done.
    + intros i Hi. simpl. apply lookup_app_l. destruct Hwf. lia.
    + unfold read_array, run_bind, load2, run_ret.
      rewrite lookup_app_l by done. by rewrite Hw.
    + by rewrite Hrun.
Qed.


End EmbeddingFacts.

(** ** The normalised kernel *)

(** C3: the normalised kernel is [A S^(-1/2)] for [S = diag(A^T A 1)]: cell 7
    returns the product of [A] with the diagonal matrix of the
    [1 / sqrt ((A^T A 1)_j)], that is, column [j] of [A] scaled by that
    factor. *)
Theorem C3_normalised_kernel m A :
  mat_wf A -> ncols A = m ->
  exists At,
    A_tilde m A = inr At /\
    np_matmul A (np_diag (S_inv_sqrt m A)) = inr At /\
    nrows At = nrows A /\ ncols At = m /\
    forall i j, i < nrows A -> j < m ->
      mat_get At i j = Some (mat_at A i j * (1 / sqrt (degree A j)))%R.
Proof.
  intros HA Hm.
  destruct (A_tilde_spec m A HA Hm) as (At & H1 & H2 & Hwf & Hr & Hc & Hpt).
  exists At. split_and!; try done.
  intros i j Hi Hj. rewrite mat_get_at by (done || lia). f_equal. by apply Hpt.
Qed.

(** ** The concrete runs *)

Lemma inv_1x1_spec x : x <> 0%R -> inv_1x1 (Mat 1 1 [[x]]) = inr (Mat 1 1 [[(1 / x)%R]]).
Proof.
  intros Hx. unfold inv_1x1. simpl. by destruct (Req_dec_T x 0).
Qed.

Lemma inv_1x1_zero : inv_1x1 (Mat 1 1 [[0%R]]) = inl LinAlgError.
Proof.
  unfold inv_1x1. simpl. by destruct (Req_dec_T 0 0).
Qed.

Lemma duo_entry_returns i j : i < 1 -> j < 2 -> exists v, Duo.entry i j = inr v.
Proof.
  intros Hi Hj. destruct i as [|i]; [|lia].
  destruct j as [|[|j]]; [| |lia];
    unfold Duo.entry, affinity_entry, gaussian_kernel; simpl;
    rewrite inv_1x1_spec by lra; simpl; by eexists.
Qed.

Lemma duo_entry_kern i j :
  i < Duo.M -> j < Duo.m ->
  affinity_entry Duo.epsilon Duo.cov_matrices Duo.feature_Vector_testPos
    Duo.feature_Vector_src inv_1x1 i j = inr (Duo.kern i j).
Proof.
  intros Hi Hj. destruct (duo_entry_returns i j Hi Hj) as [v Hv].
  unfold Duo.kern. fold Duo.entry. by rewrite Hv.
Qed.

Lemma duo_W_wf : mat_wf Duo.W.
Proof. split; [done|]. by repeat constructor. Qed.

Lemma duo_W_kernel t j :
  t < Duo.m -> j < Duo.m ->
  mat_get Duo.W t j =
    Some (kernel_value Duo.epsilon (Duo.src_vect t) (Duo.src_vect j) (Duo.inv_cov j)).
Proof.
  unfold Duo.m. intros Ht Hj.
  destruct t as [|[|t]]; [| |lia]; (destruct j as [|[|j]]; [| |lia]);
    unfold kernel_value, mahalanobis_sq, sum_upto, vec_at, mat_at, mat_get, Duo.epsilon;
    simpl; f_equal;
    first [ by (f_equal; lra)
          | by (etransitivity; [symmetry; apply exp_0|]; f_equal; lra) ].
Qed.

Lemma C1_test_affinity_blocks_witness :
  exists h' A Av,
    test_stage Duo.m Duo.M Duo.epsilon Duo.cov_matrices Duo.feature_Vector_testPos
      Duo.feature_Vector_src inv_1x1 Duo.W_ref Duo.store = (h', inr A) /\
    read_array A h' = (h', inr Av) /\
    mat_wf Av /\ nrows Av = 3 /\ ncols Av = 2 /\
    (forall i j, i < 2 -> j < 2 -> mat_get Av i j = mat_get Duo.W i j) /\
    (forall i j, i < 1 -> j < 2 ->
       mat_get Av (2 + i) j =
         Some (kernel_value Duo.epsilon (Duo.test_vect i) (Duo.src_vect j)
                 (Duo.inv_cov j))) /\
    (forall r j, r < 3 -> j < 2 ->
       mat_get Av r j =
         Some (kernel_value Duo.epsilon
                 (if decide (r < 2) then Duo.src_vect r else Duo.test_vect (r - 2))
                 (Duo.src_vect j) (Duo.inv_cov j))).
Proof.
  destruct (C1_test_affinity_blocks Duo.m Duo.M Duo.epsilon Duo.cov_matrices
              Duo.feature_Vector_testPos Duo.feature_Vector_src inv_1x1
              Duo.store Duo.W_ref Duo.W 1 Duo.test_vect Duo.src_vect Duo.cov
              Duo.inv_cov)
    as (h' & A & Av & Hrun & Hread & Hwf & Hr & Hc & Htop & Hbottom & Hsame).
  - reflexivity.
  - exact duo_W_wf.
  - reflexivity.
  - reflexivity.
  - unfold Duo.M. intros i Hi. replace i with 0 by lia. split; reflexivity.
  - unfold Duo.m. intros j Hj.
    assert (inv_1x1 (Duo.cov j) = inr (Duo.inv_cov j)) as Hinv
      by (apply inv_1x1_spec; lra).
    assert (mat_wf (Duo.inv_cov j)) as Hwfj
      by (split; [reflexivity|by repeat constructor]).
    destruct j as [|[|j]]; [| |lia]; by split_and!.
  - exists h', A, Av. split_and!; try done.
    + intros i j Hi Hj. by apply Hbottom.
    + by apply Hsame, duo_W_kernel.
Defined.

Lemma C2_kernel_entry_witness :
  Duo.entry 0 1 =
    inr (exp (- mahalanobis_sq (zip_with Rminus [1%R] [1%R]) (Mat 1 1 [[(1 / 1)%R]])
             / Duo.epsilon)) /\
  ([1%R] = [1%R] -> Duo.entry 0 1 = inr 1%R).
Proof.
  apply (C2_kernel_entry Duo.epsilon Duo.cov_matrices Duo.feature_Vector_testPos
           Duo.feature_Vector_src inv_1x1 0 1 [1%R] [1%R] (Mat 1 1 [[1%R]])
           (Mat 1 1 [[(1 / 1)%R]])).
  - reflexivity.
  - reflexivity.
  - reflexivity.
  - apply inv_1x1_spec. lra.
  - split; [reflexivity|]. by repeat constructor.
  - reflexivity.
  - reflexivity.
  - reflexivity.
Defined.

Lemma solo_A_wf : mat_wf Solo.A.
Proof. split; [done|]. by repeat constructor. Qed.

Lemma C3_normalised_kernel_witness :
  exists At,
    A_tilde 1 Solo.A = inr At /\
    np_matmul Solo.A (np_diag (S_inv_sqrt 1 Solo.A)) = inr At /\
    nrows At = 2 /\ ncols At = 1 /\
    forall i j, i < 2 -> j < 1 ->
      mat_get At i j = Some (mat_at Solo.A i j * (1 / sqrt (degree Solo.A j)))%R.
Proof.
  apply (C3_normalised_kernel 1 Solo.A).
  - exact solo_A_wf.
  - reflexivity.
Defined.

(** ** The Nystrom extension *)

Lemma result_mapM_fmap {A B} (f : A -> result B) (g : A -> B) xs :
  Forall (fun x => f x = inr (g x)) xs -> result_mapM f xs = inr (g <$> xs).
Proof.
  induction 1 as [|x xs Hx _ IH]; simpl; [done|]. by rewrite Hx, IH.
Qed.

Lemma result_mapM_inr {A B} (f : A -> result B) xs ys :
  result_mapM f xs = inr ys -> Forall2 (fun x y => f x = inr y) xs ys.
Proof.
  revert ys. induction xs as [|x xs IH]; intros ys; simpl.
  - intros [= <-]. constructor.
  - destruct (f x) as [e|y] eqn:Ey; simpl; [done|].
    destruct (result_mapM f xs) as [e|ys']; simpl; [done|].
    intros [= <-]. constructor; [done|]. by apply IH.
Qed.

Lemma result_mapM_fails {A B} (f : A -> result B) xs x e :
  x ∈ xs -> f x = inl e -> exists e', result_mapM f xs = inl e'.
Proof.
  intros Hx Hfx. induction Hx as [x xs|x x' xs Hx IH]; simpl.
  - rewrite Hfx. by eexists.
  - destruct (f x') as [e'|y]; simpl; [by eexists|].
    destruct (IH Hfx) as [e' ->]. by eexists.
Qed.

Lemma result_mapM_inl {A B} (f : A -> result B) xs e :
  result_mapM f xs = inl e -> exists x, x ∈ xs /\ f x = inl e.
Proof.
  induction xs as [|x xs IH]; simpl; [done|].
  destruct (f x) as [e'|y] eqn:Ex; simpl.
  - intros [= <-]. exists x. split; [by left|done].
  - destruct (result_mapM f xs) as [e'|ys]; simpl; [|done].
    intros [= <-]. destruct (IH eq_refl) as (x' & Hx' & Hf).
    exists x'. split; [by right|done].
Qed.

Section NystromFacts.

Variable tol : R.
Variable select : vec -> nat -> list nat.

Local Abbreviation psi := (left_sing_vect tol).
Local Abbreviation nystrom := (compute_d_left_sing_vect tol select).

Lemma left_sing_vect_refuses j lambda_j phi_j At :
  (lambda_j <= tol)%R -> psi j lambda_j phi_j At = inl (NegligibleEigenvalue j).
Proof. intros Hle. unfold left_sing_vect. by destruct (Rle_dec lambda_j tol). Qed.

Lemma left_sing_vect_inr j lambda_j phi_j At v :
  psi j lambda_j phi_j At = inr v ->
  (tol < lambda_j)%R /\ ncols At = length phi_j /\
  v = (fun r => (1 / sqrt lambda_j * dot_raw r phi_j)%R) <$> cells At.
Proof.
  unfold left_sing_vect. destruct (Rle_dec lambda_j tol) as [|Hn]; [done|].
  unfold np_matvec. case_decide; [|done]. simpl. intros [= <-].
  split; [lra|]. split; [done|]. by rewrite <- list_fmap_compose.
Qed.

Lemma left_sing_vect_returns j lambda_j phi_j At :
  (tol < lambda_j)%R -> ncols At = length phi_j ->
  psi j lambda_j phi_j At =
    inr ((fun r => (1 / sqrt lambda_j * dot_raw r phi_j)%R) <$> cells At).
Proof.
  intros Hlt Hl. unfold left_sing_vect.
  destruct (Rle_dec lambda_j tol) as [|Hn]; [lra|].
  unfold np_matvec. case_decide; [|done]. simpl. by rewrite <- list_fmap_compose.
Qed.

(** What a returned embedding is made of: one extended vector per retained
    eigen-pair, each with an eigenvalue above [tol]. *)
Lemma compute_d_left_sing_vect_inr n eig_vals eig_vects At d Psi :
  nystrom n eig_vals eig_vects At d = inr Psi ->
  nrows At = n /\
  exists psis,
    Psi = mat_T (Mat (length psis) n psis) /\
    Forall2 (fun j v =>
               exists lambda_j,
                 eig_vals !! j = Some lambda_j /\ (tol < lambda_j)%R /\
                 v = (fun r => (1 / sqrt lambda_j * dot_raw r (mat_col eig_vects j))%R)
                       <$> cells At)
            (select eig_vals d) psis.
Proof.
  unfold compute_d_left_sing_vect. case_decide as Hn; [|done]. intros Hrun.
  split; [done|].
  destruct (result_mapM _ (select eig_vals d)) as [e|psis] eqn:Hm; simpl in Hrun; [done|].
  injection Hrun as <-. exists psis. split; [done|].
  apply result_mapM_inr in Hm. eapply Forall2_impl; [exact Hm|].
  intros j v Hv. simpl in Hv.
  destruct (eig_vals !! j) as [lambda_j|]; simpl in Hv; [|done].
  apply left_sing_vect_inr in Hv as (Hlt & _ & ->). by exists lambda_j.
Qed.

(** C5: an eigenvalue that is non-positive or negligible makes the Nystrom
    step raise instead of dividing by its square root; a returned embedding
    was computed from eigenvalues above [tol] only, whose square roots are
    positive; on well-shaped inputs the only exception is the one that names
    the refused eigenvalue. *)
Theorem C5_eigenvalue_guard n eig_vals eig_vects At d :
  (0 <= tol)%R ->
  (forall j lambda_j,
     j ∈ select eig_vals d -> eig_vals !! j = Some lambda_j ->
     (lambda_j <= 0 \/ Rabs lambda_j <= tol)%R ->
     (forall phi_j, psi j lambda_j phi_j At = inl (NegligibleEigenvalue j)) /\
     exists e, nystrom n eig_vals eig_vects At d = inl e) /\
  (forall Psi,
     nystrom n eig_vals eig_vects At d = inr Psi ->
     forall j, j ∈ select eig_vals d ->
       exists lambda_j,
         eig_vals !! j = Some lambda_j /\ (tol < lambda_j)%R /\ (0 < sqrt lambda_j)%R) /\
  (forall e,
     nystrom n eig_vals eig_vects At d = inl e ->
     nrows At = n -> ncols At = length (cells eig_vects) ->
     (forall j, j ∈ select eig_vals d -> is_Some (eig_vals !! j)) ->
     exists j lambda_j,
       j ∈ select eig_vals d /\ eig_vals !! j = Some lambda_j /\
       (lambda_j <= tol)%R /\ e = NegligibleEigenvalue j).
Proof.
  intros Htol. split_and!.
  - intros j lambda_j Hj Hlam Hbad.
    assert (lambda_j <= tol)%R as Hle.
    { destruct Hbad as [H0|Ha]; [lra|]. pose proof (Rle_abs lambda_j). lra. }
    split; [intros phi_j; by apply left_sing_vect_refuses|].
    unfold compute_d_left_sing_vect. case_decide; [|by eexists].
    destruct (result_mapM_fails
                (fun j => try lambda_j := of_option IndexError (eig_vals !! j) in
                          psi j lambda_j (mat_col eig_vects j) At)
                (select eig_vals d) j (NegligibleEigenvalue j) Hj) as [e' He'].
    { rewrite Hlam. simpl. by apply left_sing_vect_refuses. }
    rewrite He'. by eexists.
  - intros Psi HPsi j Hj.
    apply compute_d_left_sing_vect_inr in HPsi as (_ & psis & _ & Hall).
    apply list_elem_of_lookup in Hj as [c Hc].
    destruct (Forall2_lookup_l _ _ _ _ _ Hall Hc) as (v & _ & lambda_j & Hlam & Hlt & _).
    exists lambda_j. split_and!; [done..|]. apply sqrt_lt_R0. lra.
  - intros e Hrun Hn Hc Hdef. unfold compute_d_left_sing_vect in Hrun.
    case_decide; [|done].
    destruct (result_mapM _ (select eig_vals d)) as [e'|psis] eqn:Hm;
      simpl in Hrun; [|done].
    injection Hrun as ->. apply result_mapM_inl in Hm as (j & Hj & Hf).
    destruct (Hdef j Hj) as [lambda_j Hlam]. rewrite Hlam in Hf. simpl in Hf.
    exists j, lambda_j. split_and!; try done.
    + unfold left_sing_vect in Hf.
      destruct (Rle_dec lambda_j tol); [done|].
      unfold np_matvec in Hf. rewrite length_mat_col in Hf.
      by case_decide.
    + unfold left_sing_vect in Hf.
      destruct (Rle_dec lambda_j tol); [by injection Hf|].
      unfold np_matvec in Hf. rewrite length_mat_col in Hf.
      by case_decide.
Qed.


(** Entry [(r, c)] of a returned embedding: row [r] of the normalised
    kernel against the eigenvector of the [c]-th retained eigen-pair. *)
Lemma compute_d_left_sing_vect_entry n eig_vals eig_vects At d Psi c j r :
  nystrom n eig_vals eig_vects At d = inr Psi ->
  select eig_vals d !! c = Some j -> r < n ->
  exists lambda_j,
    eig_vals !! j = Some lambda_j /\ (tol < lambda_j)%R /\
    mat_get Psi r c =
      Some (default 0%R
              ((fun row => (1 / sqrt lambda_j * dot_raw row (mat_col eig_vects j))%R)
                 <$> cells At !! r)).
Proof.
  intros HPsi Hc Hr.
  apply compute_d_left_sing_vect_inr in HPsi as (_ & psis & -> & Hall).
  destruct (Forall2_lookup_l _ _ _ _ _ Hall Hc) as (v & Hv & lambda_j & Hlam & Hlt & ->).
  exists lambda_j. split_and!; try done.
  rewrite mat_get_T by (simpl; (done || by eapply lookup_lt_Some)).
  f_equal. unfold mat_at, mat_get. simpl. rewrite Hv.
  by rewrite list_lookup_fmap.
Qed.


End NystromFacts.

(** ** A training sample used as a test query *)

Section RoundTrip.

Variables m M d : nat.
Variable epsilon : R.
Variable cov_matrices : list mat.
Variable feature_Vector_testPos : nat -> result vec.
Variable feature_Vector_src : nat -> result vec.
Variable np_linalg_inv : mat -> result mat.
Variable np_linalg_eig : mat -> result (vec * mat).
Variable compute_train_featVects : nat -> result (list vec).
Variable tol : R.
Variable select : vec -> nat -> list nat.

Local Abbreviation entry :=
  (affinity_entry epsilon cov_matrices feature_Vector_testPos feature_Vector_src
     np_linalg_inv).
Local Abbreviation embed :=
  (embedding m M d epsilon cov_matrices feature_Vector_testPos feature_Vector_src
     np_linalg_inv np_linalg_eig compute_train_featVects
   (compute_d_left_sing_vect tol select)).

(** The row of [A] of a test sample that has the feature vector of training
    sample [t] is row [t] of [W], when [W] was filled by the same kernel. *)
Lemma reinserted_row W kern i t :
  mat_wf W -> nrows W = m -> ncols W = m -> i < M -> t < m ->
  (forall j, j < m -> kern i j = mat_at W t j) ->
  cells (A_expected m M W kern) !! (m + i) = cells (A_expected m M W kern) !! t.
Proof.
  intros HW Hr Hc Hi Ht Hk. pose proof HW as [Hlen Hrows]. simpl.
  rewrite lookup_app_r by lia. rewrite lookup_app_l by lia.
  replace (m + i - length (cells W)) with i by lia.
  rewrite list_lookup_fmap, lookup_seq_lt by lia. simpl.
  destruct (lookup_lt_is_Some_2 (cells W) t) as [row Hrow]; [lia|].
  rewrite Hrow. f_equal.
  pose proof (row_length W t row HW Hrow) as Hl.
  apply vec_ext; [rewrite length_fmap, length_seq; lia|].
  rewrite length_fmap, length_seq. intros j Hj.
  rewrite vec_at_fmap_seq by done.
  rewrite (vec_at_row W t row j Hrow). by apply Hk.
Qed.

(** C4, amended: when test sample [i] has the feature vector of training
    sample [t], and row [t] of [W] was filled by the kernel of the test
    stage, every coordinate of the extended embedding of the test sample
    equals the coordinate of the extended embedding of training row [t]
    itself, and that coordinate is
    [(1/sqrt lambda_j) * sum_k W[t,k] * S^(-1/2)[k] * phi_j[k]]. *)
Theorem C4_round_trip h W w kern vals vects tf i t Psi :
  h !! base W = Some (Buf2 w) ->
  mat_wf (view W w) -> nrows (view W w) = m -> ncols (view W w) = m ->
  (forall i j, i < M -> j < m -> entry i j = inr (kern i j)) ->
  np_linalg_eig (view W w) = inr (vals, vects) ->
  compute_train_featVects m = inr tf ->
  mat_wf vects -> nrows vects = m ->
  i < M -> t < m ->
  feature_Vector_testPos i = feature_Vector_src t ->
  (forall j, j < m ->
     exists T s cov,
       feature_Vector_src t = inr T /\ feature_Vector_src j = inr s /\
       cov_matrices !! j = Some cov /\
       gaussian_kernel epsilon np_linalg_inv T s cov = inr (mat_at (view W w) t j)) ->
  snd (embed W h) = inr (tf, Psi) ->
  forall c j, select vals d !! c = Some j ->
    mat_get Psi (m + i) c = mat_get Psi t c /\
    exists lambda_j,
      vals !! j = Some lambda_j /\
      mat_get Psi t c =
        Some (1 / sqrt lambda_j *
              sum_upto m (fun k =>
                mat_at (view W w) t k *
                (1 / sqrt (degree (A_expected m M (view W w) kern) k)) *
                mat_at vects k j))%R.
Proof.
  intros Hw Hwf Hr Hc Hk Heig Htf Hwfv Hrv Hi Ht Hsame Hrow HPsi c j Hsel.
  set (Wv := view W w) in *. set (Aexp := A_expected m M Wv kern).
  destruct (embedding_spec m M d epsilon cov_matrices feature_Vector_testPos
              feature_Vector_src np_linalg_inv np_linalg_eig compute_train_featVects
              (compute_d_left_sing_vect tol select) h W w kern vals vects tf
              Hw Hwf Hr Hc Hk Heig Htf) as (At & HAt & Hrun).
  fold Wv Aexp in HAt, Hrun. rewrite Hrun in HPsi. simpl in HPsi.
  destruct (compute_d_left_sing_vect tol select (m + M) vals vects At d)
    as [e|Psi'] eqn:HPsi'; simpl in HPsi; [done|].
  injection HPsi as <-. rename HPsi' into HPsi.
  assert (mat_wf Aexp) as HwfA by by apply mat_wf_A_expected.
  destruct (A_tilde_spec m Aexp HwfA eq_refl)
    as (At' & HAt' & Hmul & HwfT & HrT & HcT & HT).
  rewrite HAt in HAt'. injection HAt' as <-. simpl in HrT.
  assert (forall j', j' < m -> kern i j' = mat_at Wv t j') as Hkern.
  { intros j' Hj'. destruct (Hrow j' Hj') as (T & s & cov & HT' & Hs & Hcov & Hg).
    pose proof (Hk i j' Hi Hj') as He. unfold affinity_entry in He.
    rewrite Hsame, HT', Hs, Hcov in He. simpl in He. rewrite Hg in He.
    by injection He. }
  assert (cells At !! (m + i) = cells At !! t) as Hrows.
  { rewrite (np_matmul_cells _ _ _ Hmul), !list_lookup_fmap. f_equal.
    by apply reinserted_row. }
  destruct (compute_d_left_sing_vect_entry tol select _ _ _ _ _ _ c j (m + i) HPsi Hsel)
    as (lam1 & Hl1 & _ & Hg1); [lia|].
  destruct (compute_d_left_sing_vect_entry tol select _ _ _ _ _ _ c j t HPsi Hsel)
    as (lam2 & Hl2 & _ & Hg2); [lia|].
  rewrite Hl1 in Hl2. injection Hl2 as <-.
  split; [by rewrite Hg1, Hg2, Hrows|].
  exists lam1. split; [done|]. rewrite Hg2.
  destruct (lookup_lt_is_Some_2 (cells At) t) as [row Erow];
    [destruct HwfT; lia|].
  rewrite Erow. simpl. do 2 f_equal.
  pose proof (row_length At t row HwfT Erow) as Hlrow.
  rewrite dot_raw_sum by (rewrite length_mat_col; destruct Hwfv; lia).
  rewrite Hlrow, HcT. apply sum_upto_ext. intros k Hk'.
  rewrite (vec_at_row At t row k Erow), HT by (simpl; lia).
  rewrite vec_at_mat_col by (done || lia). do 2 f_equal.
  unfold mat_at at 1. unfold Aexp. rewrite mat_get_A_expected by (done || lia).
  by case_decide; [|lia].
Qed.


End RoundTrip.

(** ** The run with one training source *)

Lemma solo_W_wf : mat_wf Solo.W.
Proof. split; [done|]. by repeat constructor. Qed.

Lemma solo_entry_one : Solo.entry 0 0 = inr 1%R.
Proof.
  unfold Solo.entry, affinity_entry, gaussian_kernel. simpl.
  rewrite inv_1x1_spec by lra. simpl. unfold ok. f_equal.
  unfold dot_raw, mat_col, Solo.epsilon. simpl.
  rewrite <- exp_0. f_equal. lra.
Qed.

Lemma solo_entry_kern i j :
  i < Solo.M -> j < Solo.m ->
  affinity_entry Solo.epsilon Solo.cov_matrices Solo.feature_Vector_testPos
    Solo.feature_Vector_src inv_1x1 i j = inr (Solo.kern i j).
Proof.
  unfold Solo.M, Solo.m. intros Hi Hj.
  destruct i as [|i]; [|lia]. destruct j as [|j]; [|lia].
  unfold Solo.kern. fold Solo.entry. by rewrite solo_entry_one.
Qed.

Lemma solo_A_expected : A_expected Solo.m Solo.M Solo.W Solo.kern = Solo.A.
Proof.
  unfold A_expected, Solo.A. simpl. unfold Solo.kern. by rewrite solo_entry_one.
Qed.

Lemma solo_degree : degree Solo.A 0 = 2%R.
Proof. unfold degree, sum_upto, mat_at. simpl. lra. Qed.

Lemma sqrt2_bound : (4 / 3 < sqrt 2)%R.
Proof.
  rewrite <- (sqrt_square (4 / 3)) by lra. apply sqrt_lt_1; lra.
Qed.

Lemma inv_sqrt2_bound : (1 / sqrt 2 < 3 / 4)%R.
Proof.
  pose proof sqrt2_bound as Hs.
  apply (Rmult_lt_reg_r (sqrt 2)); [lra|].
  unfold Rdiv. rewrite Rmult_assoc, Rinv_l by lra. lra.
Qed.

(** Cells 3 to 8 on the run with one training source: both rows of the
    embedding hold [1 / sqrt 2]. *)
Lemma solo_embedding :
  exists h Psi,
    embedding Solo.m Solo.M Solo.d Solo.epsilon Solo.cov_matrices
      Solo.feature_Vector_testPos Solo.feature_Vector_src inv_1x1 eig_1x1
      Solo.compute_train_featVects (compute_d_left_sing_vect Solo.tol Solo.select)
      Solo.W_ref Solo.store
    = (h, inr (Solo.train_featVects, Psi)) /\
    mat_get Psi 0 0 = Some (1 / sqrt 2)%R /\ mat_get Psi 1 0 = Some (1 / sqrt 2)%R.
Proof.
  destruct (embedding_spec Solo.m Solo.M Solo.d Solo.epsilon Solo.cov_matrices
              Solo.feature_Vector_testPos Solo.feature_Vector_src inv_1x1 eig_1x1
              Solo.compute_train_featVects
              (compute_d_left_sing_vect Solo.tol Solo.select)
              Solo.store Solo.W_ref Solo.W Solo.kern Solo.eig_vals Solo.eig_vects
              Solo.train_featVects
              eq_refl solo_W_wf eq_refl eq_refl solo_entry_kern eq_refl eq_refl)
    as (At & HAt & Hrun).
  change (view Solo.W_ref Solo.W) with Solo.W in *.
  rewrite solo_A_expected in HAt.
  destruct (A_tilde_spec 1 Solo.A solo_A_wf eq_refl)
    as (At' & HAt' & _ & HwfT & HrT & HcT & HT).
  change Solo.m with 1 in HAt. rewrite HAt in HAt'. injection HAt' as <-.
  simpl in HrT.
  assert (exists Psi, compute_d_left_sing_vect Solo.tol Solo.select
                        (Solo.m + Solo.M) Solo.eig_vals Solo.eig_vects At Solo.d
                      = inr Psi) as [Psi HPsi].
  { unfold compute_d_left_sing_vect. case_decide; [|done]. simpl.
    rewrite left_sing_vect_returns; [by eexists|unfold Solo.tol; lra|done]. }
  assert (forall r, r < 2 -> mat_get Psi r 0 = Some (1 / sqrt 2)%R) as Hent.
  { intros r Hr.
    destruct (compute_d_left_sing_vect_entry Solo.tol Solo.select _ _ _ _ _ _ 0 0 r
                HPsi eq_refl) as (lam & Hlam & _ & Hg); [done|].
    injection Hlam as <-. rewrite Hg. f_equal.
    destruct (lookup_lt_is_Some_2 (cells At) r) as [row Erow];
      [destruct HwfT; lia|].
    rewrite Erow. simpl.
    pose proof (row_length At r row HwfT Erow) as Hlrow. rewrite HcT in Hlrow.
    rewrite dot_raw_sum by done. rewrite Hlrow. unfold sum_upto. simpl.
    rewrite (vec_at_row At r row 0 Erow), HT by (simpl; lia).
    rewrite solo_degree, sqrt_1.
    assert (mat_at Solo.A r 0 = 1%R) as ->.
    { by destruct r as [|[|r]]; [| |lia]. }
    unfold vec_at. simpl. lra. }
  eexists _, Psi. rewrite Hrun. split; [by rewrite HPsi|].
  split; apply Hent; lia.
Qed.

Lemma solo_eig_vects_wf : mat_wf Solo.eig_vects.
Proof. split; [done|]. by repeat constructor. Qed.

Lemma solo_W_row j :
  j < Solo.m ->
  exists T s cov,
    Solo.feature_Vector_src 0 = inr T /\ Solo.feature_Vector_src j = inr s /\
    Solo.cov_matrices !! j = Some cov /\
    gaussian_kernel Solo.epsilon inv_1x1 T s cov = inr (mat_at Solo.W 0 j).
Proof.
  unfold Solo.m. intros Hj. destruct j as [|j]; [|lia].
  exists [0%R], [0%R], (Mat 1 1 [[1%R]]). split_and!; try done.
  exact solo_entry_one.
Qed.

(** The claim C4 fails on the run with one training source, whose test
    sample is the training sample itself: the eigen-pair of [W] is
    [(1, [1])], yet both rows of the embedding hold [1 / sqrt 2], which is
    neither the eigenvector coordinate nor that coordinate scaled by
    [sqrt lambda], by a margin of more than a quarter. *)
Lemma C4_counterexample :
  Solo.feature_Vector_testPos 0 = Solo.feature_Vector_src 0 /\
  eig_1x1 Solo.W = inr ([1%R], Solo.eig_vects) /\
  exists h Psi,
    embedding Solo.m Solo.M Solo.d Solo.epsilon Solo.cov_matrices
      Solo.feature_Vector_testPos Solo.feature_Vector_src inv_1x1 eig_1x1
      Solo.compute_train_featVects (compute_d_left_sing_vect Solo.tol Solo.select)
      Solo.W_ref Solo.store
    = (h, inr (Solo.train_featVects, Psi)) /\
    ~ agree_within (1 / 4) (mat_at Psi (Solo.m + 0) 0) (mat_at Solo.eig_vects 0 0) /\
    ~ agree_within (1 / 4) (mat_at Psi 0 0) (sqrt 1 * mat_at Solo.eig_vects 0 0).
Proof.
  split; [done|]. split; [done|].
  destruct solo_embedding as (h & Psi & Hrun & H0 & H1).
  exists h, Psi. split; [done|].
  pose proof inv_sqrt2_bound as Hb.
  assert (mat_at Solo.eig_vects 0 0 = 1%R) as -> by done.
  unfold agree_within, mat_at. change (Solo.m + 0) with 1. rewrite H0, H1. simpl.
  rewrite sqrt_1.
  split; intros Habs; unfold Rabs in Habs;
    destruct (Rcase_abs _) as [Hneg|Hpos] in Habs; lra.
Qed.

Lemma C4_round_trip_witness :
  exists Psi,
    forall c j, Solo.select Solo.eig_vals Solo.d !! c = Some j ->
      mat_get Psi (Solo.m + 0) c = mat_get Psi 0 c /\
      exists lambda_j,
        Solo.eig_vals !! j = Some lambda_j /\
        mat_get Psi 0 c =
          Some (1 / sqrt lambda_j *
                sum_upto Solo.m (fun k =>
                  mat_at Solo.W 0 k *
                  (1 / sqrt (degree (A_expected Solo.m Solo.M Solo.W Solo.kern) k)) *
                  mat_at Solo.eig_vects k j))%R.
Proof.
  destruct solo_embedding as (h & Psi & Hrun & _).
  exists Psi.
  apply (C4_round_trip Solo.m Solo.M Solo.d Solo.epsilon Solo.cov_matrices
           Solo.feature_Vector_testPos Solo.feature_Vector_src inv_1x1 eig_1x1
           Solo.compute_train_featVects
           Solo.tol Solo.select Solo.store Solo.W_ref Solo.W Solo.kern
           Solo.eig_vals Solo.eig_vects Solo.train_featVects 0 0 Psi).
  - reflexivity.
  - exact solo_W_wf.
  - reflexivity.
  - reflexivity.
  - exact solo_entry_kern.
  - reflexivity.
  - reflexivity.
  - exact solo_eig_vects_wf.
  - reflexivity.
  - unfold Solo.M. lia.
  - unfold Solo.m. lia.
  - reflexivity.
  - exact solo_W_row.
  - rewrite Hrun. reflexivity.
Defined.

Lemma C10_test_stage_frame_witness :
  (forall l, l < 1 ->
     fst (test_stage Solo.m Solo.M Solo.epsilon Solo.cov_matrices
            Solo.feature_Vector_testPos Solo.feature_Vector_src inv_1x1
            Solo.W_ref Solo.store) !! l = Solo.store !! l) /\
  exists h' A Av At,
    test_stage Solo.m Solo.M Solo.epsilon Solo.cov_matrices
      Solo.feature_Vector_testPos Solo.feature_Vector_src inv_1x1
      Solo.W_ref Solo.store = (h', inr A) /\
    1 <= base A /\
    read_array A h' = (h', inr Av) /\
    (forall i, i < 1 -> cells Av !! i = cells Solo.W !! i) /\
    read_array Solo.W_ref h' = (h', inr Solo.W) /\
    A_tilde 1 Av = inr At /\
    snd (embedding Solo.m Solo.M Solo.d Solo.epsilon Solo.cov_matrices
           Solo.feature_Vector_testPos Solo.feature_Vector_src inv_1x1 eig_1x1
           Solo.compute_train_featVects
           (compute_d_left_sing_vect Solo.tol Solo.select) Solo.W_ref Solo.store)
    = (try singular_vects :=
         compute_d_left_sing_vect Solo.tol Solo.select (1 + 1) Solo.eig_vals
           Solo.eig_vects At 1 in
       ok (Solo.train_featVects, singular_vects)).
Proof.
  destruct (C10_test_stage_frame Solo.m Solo.M Solo.d Solo.epsilon Solo.cov_matrices
              Solo.feature_Vector_testPos Solo.feature_Vector_src inv_1x1 eig_1x1
              Solo.compute_train_featVects
              (compute_d_left_sing_vect Solo.tol Solo.select)
              Solo.store Solo.W_ref) as [Hframe Hrun].
  split; [exact Hframe|].
  apply (Hrun Solo.W Solo.kern Solo.eig_vals Solo.eig_vects Solo.train_featVects).
  - reflexivity.
  - exact solo_W_wf.
  - reflexivity.
  - reflexivity.
  - exact solo_entry_kern.
  - reflexivity.
  - reflexivity.
Defined.

(** ** The runs with a singular covariance matrix *)

Lemma duo_singular_0_raises :
  snd (test_stage Duo.m Duo.M Duo.epsilon Duo.singular_0 Duo.feature_Vector_testPos
         Duo.feature_Vector_src inv_1x1 Duo.W_ref Duo.store) = inl LinAlgError.
Proof.
  apply (test_stage_raises Duo.m Duo.M Duo.epsilon Duo.singular_0
           Duo.feature_Vector_testPos Duo.feature_Vector_src inv_1x1
           Duo.store Duo.W_ref Duo.W (fun _ => 0%R) 0 LinAlgError).
  - reflexivity.
  - exact duo_W_wf.
  - reflexivity.
  - reflexivity.
  - unfold Duo.M. lia.
  - unfold Duo.m. lia.
  - intros j Hj. lia.
  - unfold affinity_entry, gaussian_kernel. simpl. by rewrite inv_1x1_zero.
Qed.

Lemma duo_singular_1_first :
  exists v,
    affinity_entry Duo.epsilon Duo.singular_1 Duo.feature_Vector_testPos
      Duo.feature_Vector_src inv_1x1 0 0 = inr v.
Proof.
  unfold affinity_entry, gaussian_kernel. simpl.
  rewrite inv_1x1_spec by lra. simpl. by eexists.
Qed.

Lemma duo_singular_1_raises :
  snd (test_stage Duo.m Duo.M Duo.epsilon Duo.singular_1 Duo.feature_Vector_testPos
         Duo.feature_Vector_src inv_1x1 Duo.W_ref Duo.store) = inl LinAlgError.
Proof.
  destruct duo_singular_1_first as [v Hv].
  apply (test_stage_raises Duo.m Duo.M Duo.epsilon Duo.singular_1
           Duo.feature_Vector_testPos Duo.feature_Vector_src inv_1x1
           Duo.store Duo.W_ref Duo.W (fun _ => v) 1 LinAlgError).
  - reflexivity.
  - exact duo_W_wf.
  - reflexivity.
  - reflexivity.
  - unfold Duo.M. lia.
  - unfold Duo.m. lia.
  - intros j Hj. by replace j with 0 by lia.
  - unfold affinity_entry, gaussian_kernel. simpl. by rewrite inv_1x1_zero.
Qed.

(** The claim C6 fails on two runs that differ in which source has the
    singular covariance matrix: both stop with the same [LinAlgError] of
    [np.linalg.inv], so no reading of the exception gives source 0 in the
    first run and source 1 in the second. *)
Lemma C6_counterexample :
  ~ exists source_of : exn -> option nat,
      reports_source source_of
        (snd (test_stage Duo.m Duo.M Duo.epsilon Duo.singular_0
                Duo.feature_Vector_testPos Duo.feature_Vector_src inv_1x1
                Duo.W_ref Duo.store)) 0 /\
      reports_source source_of
        (snd (test_stage Duo.m Duo.M Duo.epsilon Duo.singular_1
                Duo.feature_Vector_testPos Duo.feature_Vector_src inv_1x1
                Duo.W_ref Duo.store)) 1.
Proof.
  intros (source_of & (e0 & He0 & Hs0) & (e1 & He1 & Hs1)).
  rewrite duo_singular_0_raises in He0. rewrite duo_singular_1_raises in He1.
  injection He0 as <-. injection He1 as <-. congruence.
Qed.

Lemma C6_inverse_failure_witness :
  snd (test_stage Duo.m Duo.M Duo.epsilon Duo.singular_1 Duo.feature_Vector_testPos
         Duo.feature_Vector_src inv_1x1 Duo.W_ref Duo.store) = inl LinAlgError /\
  (forall (t' s' : vec) cov' P,
     inv_1x1 cov' = inr P ->
     mat_wf P -> nrows P = length t' -> ncols P = length t' -> length s' = length t' ->
     gaussian_kernel Duo.epsilon inv_1x1 t' s' cov' =
       inr (exp (- mahalanobis_sq (zip_with Rminus t' s') P / Duo.epsilon))).
Proof.
  destruct duo_singular_1_first as [v Hv].
  apply (C6_inverse_failure Duo.m Duo.M Duo.epsilon Duo.singular_1
           Duo.feature_Vector_testPos Duo.feature_Vector_src inv_1x1
           Duo.store Duo.W_ref Duo.W (fun _ => v) 1 [1%R] [1%R] (Mat 1 1 [[0%R]])
           LinAlgError).
  - reflexivity.
  - exact duo_W_wf.
  - reflexivity.
  - reflexivity.
  - unfold Duo.M. lia.
  - unfold Duo.m. lia.
  - intros j Hj. replace j with 0 by lia. exact Hv.
  - reflexivity.
  - reflexivity.
  - reflexivity.
  - exact inv_1x1_zero.
Defined.

(** ** Interpolation of the test locations *)

Lemma rsum_div (f : nat * R -> R) c (l : list (nat * R)) :
  rsum ((fun p => (f p / c)%R) <$> l) = (rsum (f <$> l) / c)%R.
Proof.
  unfold rsum. induction l as [|p l IH].
  - simpl. unfold Rdiv. lra.
  - rewrite !fmap_cons. cbn [foldr]. rewrite IH. unfold Rdiv. lra.
Qed.

Lemma rsum_pos (f : nat * R -> R) (l : list (nat * R)) :
  l <> [] -> Forall (fun p => (0 < f p)%R) l -> (0 < rsum (f <$> l))%R.
Proof.
  unfold rsum. intros Hne Hall.
  destruct Hall as [|p l Hp Hall]; [done|].
  rewrite fmap_cons. cbn [foldr].
  assert (0 <= foldr Rplus 0 (f <$> l))%R as Hge.
  { clear Hne. induction Hall as [|q l Hq Hall IH]; [simpl; lra|].
    rewrite fmap_cons. cbn [foldr]. lra. }
  lra.
Qed.

Section InterpolatorFacts.

Variables m k : nat.
Variable weight : R -> R.

Local Abbreviation neighbours := (nearest m k).
Local Abbreviation gammas := (interp_weights m k weight).
Local Abbreviation estimate := (estimate_theta_i m k weight).

Lemma dist_nonneg u v : (0 <= dist u v)%R.
Proof. unfold dist. apply sqrt_pos. Qed.

Lemma length_insert_by_dist x l : length (insert_by_dist x l) = S (length l).
Proof.
  induction l as [|y l IH]; simpl; [done|].
  destruct (Rle_dec (snd x) (snd y)); simpl; [done|]. by rewrite IH.
Qed.

Lemma length_sort_by_dist l : length (sort_by_dist l) = length l.
Proof.
  induction l as [|x l IH]; simpl; [done|].
  by rewrite length_insert_by_dist, IH.
Qed.

Lemma Forall_insert_by_dist (P : nat * R -> Prop) x l :
  P x -> Forall P l -> Forall P (insert_by_dist x l).
Proof.
  intros Hx Hl. induction Hl as [|y l Hy Hl IH]; simpl.
  - by repeat constructor.
  - destruct (Rle_dec (snd x) (snd y)); by repeat constructor.
Qed.

Lemma Forall_sort_by_dist (P : nat * R -> Prop) l :
  Forall P l -> Forall P (sort_by_dist l).
Proof.
  induction 1 as [|x l Hx Hl IH]; simpl; [constructor|].
  by apply Forall_insert_by_dist.
Qed.

Lemma insert_by_dist_perm x l : insert_by_dist x l ≡ₚ x :: l.
Proof.
  induction l as [|y l IH]; simpl; [done|].
  destruct (Rle_dec (snd x) (snd y)); [done|].
  rewrite IH. apply Permutation_swap.
Qed.

Lemma sort_by_dist_perm l : sort_by_dist l ≡ₚ l.
Proof.
  induction l as [|x l IH]; simpl; [done|].
  by rewrite insert_by_dist_perm, IH.
Qed.

Lemma insert_by_dist_sorted x l :
  StronglySorted (fun p q : nat * R => (snd p <= snd q)%R) l ->
  StronglySorted (fun p q : nat * R => (snd p <= snd q)%R) (insert_by_dist x l).
Proof.
  induction 1 as [|y l Hl IH Hy]; simpl.
  - by repeat constructor.
  - destruct (Rle_dec (snd x) (snd y)) as [Hle|Hgt].
    + constructor; [by constructor|]. constructor; [done|].
      eapply Forall_impl; [exact Hy|]. intros z Hz. simpl in *. lra.
    + constructor; [done|]. apply Forall_insert_by_dist; [simpl; lra|done].
Qed.

Lemma sort_by_dist_sorted l :
  StronglySorted (fun p q : nat * R => (snd p <= snd q)%R) (sort_by_dist l).
Proof.
  induction l as [|x l IH]; simpl; [constructor|]. by apply insert_by_dist_sorted.
Qed.

(** The neighbours of a test sample that has a row in the embedding: the
    first [k] training samples in the order of their distance to it. *)
Lemma nearest_eq singular_vects i psi_i :
  cells singular_vects !! (m + i) = Some psi_i ->
  neighbours singular_vects i =
    inr (take k (sort_by_dist
                   ((fun t => (t, dist psi_i (default [] (cells singular_vects !! t))))
                      <$> seq 0 m))).
Proof.
  intros Hpsi. pose proof (lookup_lt_Some _ _ _ Hpsi) as Hrow.
  unfold nearest. rewrite Hpsi. simpl.
  rewrite (result_mapM_fmap _
             (fun t => (t, dist psi_i (default [] (cells singular_vects !! t)))));
    [done|].
  apply Forall_forall. intros t Ht%elem_of_seq.
  destruct (lookup_lt_is_Some_2 (cells singular_vects) t) as [psi_t Hpsi_t]; [lia|].
  by rewrite Hpsi_t.
Qed.

(** As many as asked for, if there are that many training samples, each a
    training index with a distance that is not negative. *)
Lemma nearest_returns singular_vects i :
  m + i < length (cells singular_vects) ->
  exists nb,
    neighbours singular_vects i = inr nb /\ length nb = Nat.min k m /\
    Forall (fun p => fst p < m /\ (0 <= snd p)%R) nb.
Proof.
  intros Hrow.
  destruct (lookup_lt_is_Some_2 (cells singular_vects) (m + i) Hrow) as [psi_i Hpsi].
  eexists. split; [by apply nearest_eq|]. split.
  - by rewrite length_take, length_sort_by_dist, length_fmap, length_seq.
  - apply Forall_take, Forall_sort_by_dist, Forall_fmap, Forall_forall.
    intros t Ht%elem_of_seq. simpl. split; [lia|apply dist_nonneg].
Qed.

(** No training sample left out is nearer than one that was taken. *)
Lemma nearest_closest singular_vects i nb psi_i p t psi_t :
  neighbours singular_vects i = inr nb ->
  cells singular_vects !! (m + i) = Some psi_i ->
  cells singular_vects !! t = Some psi_t ->
  p ∈ nb -> t < m -> t ∉ fst <$> nb ->
  (snd p <= dist psi_i psi_t)%R.
Proof.
  intros Hnb Hpsi Hpsi_t Hp Ht Hout.
  rewrite (nearest_eq singular_vects i psi_i Hpsi) in Hnb. injection Hnb as <-.
  set (g := fun t => (t, dist psi_i (default [] (cells singular_vects !! t)))) in *.
  set (sorted := sort_by_dist (g <$> seq 0 m)) in *.
  assert (g t ∈ sorted) as Hin.
  { unfold sorted. rewrite sort_by_dist_perm. apply list_elem_of_fmap_2.
    apply elem_of_seq. lia. }
  rewrite <- (take_drop k sorted) in Hin. apply elem_of_app in Hin as [Hin|Hin].
  - exfalso. apply Hout. by apply (list_elem_of_fmap_2 fst) in Hin.
  - pose proof (sort_by_dist_sorted (g <$> seq 0 m)) as Hsorted. fold sorted in Hsorted.
    rewrite <- (take_drop k sorted) in Hsorted.
    pose proof (StronglySorted_app_1_elem_of _ _ _ _ _ Hsorted Hp Hin) as Hle.
    unfold g in Hle. simpl in Hle. by rewrite Hpsi_t in Hle.
Qed.

Lemma weighted_sum_returns (ws : list (nat * R)) angle (training_Set_spherical : list spherical) :
  Forall (fun p => fst p < length training_Set_spherical) ws ->
  weighted_sum ws angle training_Set_spherical =
    inr (rsum ((fun p =>
                  (snd p * default 0 (angle <$> training_Set_spherical !! fst p))%R)
               <$> ws)).
Proof.
  intros Hws. unfold weighted_sum.
  rewrite (result_mapM_fmap _
             (fun p => (snd p * default 0 (angle <$> training_Set_spherical !! fst p))%R));
    [done|].
  eapply Forall_impl; [exact Hws|]. intros p Hp. simpl in *.
  destruct (lookup_lt_is_Some_2 training_Set_spherical (fst p) Hp) as [s ->].
  done.
Qed.

(** The neighbours are distinct training samples, each recorded with its
    own distance to the test sample. *)
Lemma nearest_distances singular_vects i psi_i nb :
  cells singular_vects !! (m + i) = Some psi_i ->
  neighbours singular_vects i = inr nb ->
  NoDup (fst <$> nb) /\
  forall p, p ∈ nb ->
    fst p < m /\
    exists psi_t, cells singular_vects !! fst p = Some psi_t /\ snd p = dist psi_i psi_t.
Proof.
  intros Hpsi Hnb. pose proof (lookup_lt_Some _ _ _ Hpsi) as Hrow.
  rewrite (nearest_eq singular_vects i psi_i Hpsi) in Hnb. injection Hnb as <-.
  set (g := fun t => (t, dist psi_i (default [] (cells singular_vects !! t)))).
  split.
  - rewrite fmap_take. eapply sublist_NoDup; [|apply sublist_take].
    rewrite sort_by_dist_perm, <- list_fmap_compose.
    assert (fst ∘ g <$> seq 0 m = seq 0 m) as ->; [|apply NoDup_seq].
    apply list_eq. intros t. rewrite list_lookup_fmap.
    by destruct (seq 0 m !! t).
  - intros p Hp.
    assert (Forall (fun p => fst p < m /\
                      snd p = dist psi_i (default [] (cells singular_vects !! fst p)))
              (take k (sort_by_dist (g <$> seq 0 m)))) as Hall.
    { apply Forall_take, Forall_sort_by_dist, Forall_fmap, Forall_forall.
      intros t Ht%elem_of_seq. simpl. split; [lia|done]. }
    destruct (proj1 (Forall_forall _ _) Hall p Hp) as [Hlt Hd]. split; [done|].
    destruct (lookup_lt_is_Some_2 (cells singular_vects) (fst p)) as [psi_t Hpt]; [lia|].
    exists psi_t. split; [done|]. by rewrite Hd, Hpt.
Qed.

Local Abbreviation total nb := (rsum ((fun q => weight (snd q)) <$> nb)).
Local Abbreviation normalised nb :=
  ((fun p => (fst p, Rdiv (weight (snd p)) (total nb))) <$> nb).

Lemma rsum_normalised (nb : list (nat * R)) :
  rsum (snd <$> normalised nb) = Rdiv (total nb) (total nb).
Proof.
  rewrite <- list_fmap_compose.
  change (rsum ((fun p => Rdiv (weight (snd p)) (total nb)) <$> nb) =
          Rdiv (total nb) (total nb)).
  by rewrite (rsum_div (fun p => weight (snd p)) (total nb) nb).
Qed.

(** The normalised weights sum to 1 exactly when the raw weights of the
    neighbours do not sum to 0. *)
Lemma normalised_sum (nb : list (nat * R)) :
  rsum (snd <$> normalised nb) = 1%R <-> total nb <> 0%R.
Proof.
  rewrite rsum_normalised. split.
  - intros H1 H0. rewrite H0 in H1. unfold Rdiv in H1. rewrite Rmult_0_l in H1. lra.
  - intros Hne. unfold Rdiv. by apply Rinv_r.
Qed.

Lemma total_nonneg (nb : list (nat * R)) :
  (forall p, p ∈ nb -> (0 <= weight (snd p))%R) -> (0 <= total nb)%R.
Proof.
  unfold rsum. induction nb as [|q nb IH]; intros Hall; [simpl; lra|].
  rewrite fmap_cons. cbn [foldr].
  pose proof (Hall q ltac:(left)) as Hq.
  pose proof (IH ltac:(intros p Hp; apply Hall; by right)). lra.
Qed.

Lemma normalised_nonneg (nb : list (nat * R)) :
  (forall p, p ∈ nb -> (0 <= weight (snd p))%R) ->
  Forall (fun p => (0 <= snd p)%R) (normalised nb).
Proof.
  intros Hall. pose proof (total_nonneg nb Hall) as Ht.
  apply Forall_fmap, Forall_forall. intros p Hp. simpl.
  pose proof (Hall p Hp) as Hw.
  destruct (Req_dec_T (total nb) 0) as [H0|Hne].
  - rewrite H0. unfold Rdiv. rewrite Rinv_0. lra.
  - assert (0 < / total nb)%R as Hinv by (apply Rinv_0_lt_compat; lra).
    unfold Rdiv. nra.
Qed.

Lemma normalised_positive (nb : list (nat * R)) :
  nb <> [] -> (forall p, p ∈ nb -> (0 < weight (snd p))%R) ->
  Forall (fun p => (0 < snd p)%R) (normalised nb) /\ rsum (snd <$> normalised nb) = 1%R.
Proof.
  intros Hne Hall.
  assert (0 < total nb)%R as Ht.
  { apply rsum_pos; [done|]. by apply Forall_forall. }
  split.
  - apply Forall_fmap, Forall_forall. intros p Hp. simpl.
    apply Rdiv_lt_0_compat; [by apply Hall|done].
  - apply normalised_sum. lra.
Qed.

(** What the interpolator returns for a test sample with given
    neighbours. *)
Lemma estimate_theta_i_eq singular_vects (train_featVects : list vec)
    (training_Set_spherical : list spherical) i nb :
  neighbours singular_vects i = inr nb ->
  (forall p, p ∈ nb -> fst p < m) -> m <= length training_Set_spherical ->
  gammas singular_vects i = inr (normalised nb) /\
  estimate i singular_vects train_featVects training_Set_spherical =
    inr (rsum ((fun p =>
                  (snd p * default 0 (azimuth <$> training_Set_spherical !! fst p))%R)
               <$> normalised nb),
         rsum ((fun p =>
                  (snd p * default 0 (elevation <$> training_Set_spherical !! fst p))%R)
               <$> normalised nb)).
Proof.
  intros Hnb Hlt Htrain.
  assert (gammas singular_vects i = inr (normalised nb)) as Hws.
  { unfold interp_weights. by rewrite Hnb. }
  split; [done|]. unfold estimate_theta_i. rewrite Hws. simpl.
  rewrite !weighted_sum_returns; [done|..];
    (apply Forall_fmap, Forall_forall; intros p Hp; simpl;
     specialize (Hlt p Hp); lia).
Qed.

End InterpolatorFacts.

Lemma nonempty_of_length {A} (l : list A) n : length l = n -> 0 < n -> l <> [].
Proof. intros Hl Hn ->. simpl in Hl. lia. Qed.

(** C7: for a test sample that has a row in the embedding, the
    interpolator takes its [k] nearest training samples (distinct, each
    with its own distance, none left out is nearer than one taken), gives
    them their raw weights divided by the sum of these, and returns the sums
    of the training azimuths and of the training elevations under these
    weights. The weights sum to 1 exactly when the raw weights do not sum
    to 0, and are not negative when no raw weight is. For the two
    weightings the specification names: kernel weights are positive and sum
    to 1 for every test sample, inverse-distance weights when no neighbour
    sits on the test sample. *)
Theorem C7_interpolation_weights m k singular_vects (train_featVects : list vec)
    (training_Set_spherical : list spherical) i :
  0 < k -> 0 < m ->
  m + i < length (cells singular_vects) ->
  m <= length training_Set_spherical ->
  exists nb psi_i,
    cells singular_vects !! (m + i) = Some psi_i /\
    nearest m k singular_vects i = inr nb /\
    length nb = Nat.min k m /\ NoDup (fst <$> nb) /\
    (forall p, p ∈ nb ->
       fst p < m /\
       exists psi_t,
         cells singular_vects !! fst p = Some psi_t /\ snd p = dist psi_i psi_t) /\
    (forall p t psi_t,
       p ∈ nb -> t < m -> t ∉ fst <$> nb ->
       cells singular_vects !! t = Some psi_t ->
       (snd p <= dist psi_i psi_t)%R) /\
    (forall weight,
       exists ws,
         ws = (fun p => (fst p,
                         (weight (snd p) / rsum ((fun q => weight (snd q)) <$> nb))%R))
                <$> nb /\
         interp_weights m k weight singular_vects i = inr ws /\
         estimate_theta_i m k weight i singular_vects train_featVects
           training_Set_spherical =
           inr (rsum ((fun p =>
                         (snd p *
                          default 0 (azimuth <$> training_Set_spherical !! fst p))%R)
                      <$> ws),
                rsum ((fun p =>
                         (snd p *
                          default 0 (elevation <$> training_Set_spherical !! fst p))%R)
                      <$> ws)) /\
         (rsum (snd <$> ws) = 1%R <->
          rsum ((fun q => weight (snd q)) <$> nb) <> 0%R) /\
         ((forall p, p ∈ nb -> (0 <= weight (snd p))%R) ->
          Forall (fun p => (0 <= snd p)%R) ws)) /\
    (forall sigma,
       exists ws,
         interp_weights m k (kernel_weight sigma) singular_vects i = inr ws /\
         Forall (fun p => (0 < snd p)%R) ws /\ rsum (snd <$> ws) = 1%R) /\
    ((forall p, p ∈ nb -> (0 < snd p)%R) ->
     exists ws,
       interp_weights m k inverse_distance singular_vects i = inr ws /\
       Forall (fun p => (0 < snd p)%R) ws /\ rsum (snd <$> ws) = 1%R).
Proof.
  intros Hk Hm Hrow Htrain.
  destruct (lookup_lt_is_Some_2 (cells singular_vects) (m + i) Hrow) as [psi_i Hpsi].
  destruct (nearest_returns m k singular_vects i Hrow) as (nb & Hnb & Hlen & _).
  destruct (nearest_distances m k singular_vects i psi_i nb Hpsi Hnb) as [Hdup Hdist].
  assert (nb <> []) as Hne by (apply (nonempty_of_length nb _ Hlen); lia).
  assert (forall p, p ∈ nb -> fst p < m) as Hlt.
  { intros p Hp. by destruct (Hdist p Hp). }
  exists nb, psi_i. split_and!; try done.
  - intros p t psi_t Hp Ht Hout Hpt.
    by apply (nearest_closest m k singular_vects i nb psi_i p t psi_t).
  - intros weight.
    destruct (estimate_theta_i_eq m k weight singular_vects train_featVects
                training_Set_spherical i nb Hnb Hlt Htrain) as [Hws Hest].
    eexists. split; [reflexivity|]. split_and!; try done.
    + apply normalised_sum.
    + apply normalised_nonneg.
  - intros sigma.
    destruct (estimate_theta_i_eq m k (kernel_weight sigma) singular_vects
                train_featVects training_Set_spherical i nb Hnb Hlt Htrain)
      as [Hws _].
    eexists. split; [exact Hws|].
    apply normalised_positive; [done|]. intros p _. apply exp_pos.
  - intros Hpos.
    destruct (estimate_theta_i_eq m k inverse_distance singular_vects
                train_featVects training_Set_spherical i nb Hnb Hlt Htrain)
      as [Hws _].
    eexists. split; [exact Hws|].
    apply normalised_positive; [done|]. intros p Hp.
    unfold inverse_distance. apply Rdiv_lt_0_compat; [lra|by apply Hpos].
Qed.

(** ** Predictions and ground truth *)

Section InterpolationFacts.

Variable estimate_theta_i : nat -> mat -> list vec -> list spherical -> result (R * R).
Variable rmse : list (R * R) -> list (R * R) -> result R.
Variable singular_vects : mat.
Variable train_featVects : list vec.
Variable training_Set_spherical : list spherical.

Local Abbreviation loop :=
  (cell9_loop estimate_theta_i singular_vects train_featVects training_Set_spherical).
Local Abbreviation run9 :=
  (cell9 estimate_theta_i singular_vects train_featVects training_Set_spherical).
Local Abbreviation run9_10 :=
  (evaluate estimate_theta_i rmse singular_vects train_featVects
     training_Set_spherical).
Local Abbreviation predict i :=
  (estimate_theta_i i singular_vects train_featVects training_Set_spherical).

Lemma evaluate_state M (gt : list spherical) : fst (run9_10 M gt) = fst (run9 M gt).
Proof. unfold evaluate. by destruct (run9 M gt) as [st [e|u]]. Qed.

(** Two runs of the loop on ground truths of the same length, started with
    the same predictions, end with the same predictions and the same
    outcome. *)
Lemma cell9_loop_same_predictions (gt1 gt2 : list spherical) todo :
  length gt1 = length gt2 ->
  forall st1 st2,
    thetas_pred st1 = thetas_pred st2 ->
    thetas_pred (fst (loop gt1 todo st1)) = thetas_pred (fst (loop gt2 todo st2)) /\
    snd (loop gt1 todo st1) = snd (loop gt2 todo st2).
Proof.
  intros Hlen. induction todo as [|i todo IH]; intros st1 st2 Hst; simpl; [done|].
  unfold cell9_body. destruct (predict i) as [e|theta]; simpl; [done|].
  destruct (gt1 !! i) as [s1|] eqn:E1.
  - destruct (lookup_lt_is_Some_2 gt2 i) as [s2 ->].
    { rewrite <- Hlen. by eapply lookup_lt_Some. }
    apply IH. simpl. by rewrite Hst.
  - rewrite (proj2 (lookup_ge_None gt2 i)); [simpl; by rewrite Hst|].
    rewrite <- Hlen. by apply lookup_ge_None.
Qed.

(** A loop that finishes has appended, for each index in turn, what
    [estimate_theta_i] returned for it. *)
Lemma cell9_loop_predictions (gt : list spherical) todo :
  forall st st',
    loop gt todo st = (st', inr tt) ->
    exists preds,
      thetas_pred st' = thetas_pred st ++ preds /\
      Forall2 (fun i theta => predict i = inr theta) todo preds.
Proof.
  induction todo as [|i todo IH]; intros st st'; simpl.
  - intros [= <-]. exists []. by rewrite app_nil_r.
  - unfold cell9_body. destruct (predict i) as [e|theta] eqn:Ep; simpl; [done|].
    destruct (gt !! i) as [s|]; [|done].
    intros Hrun. apply IH in Hrun as (preds & Hpreds & Hall). simpl in Hpreds.
    exists (theta :: preds). split; [by rewrite Hpreds, <- app_assoc|].
    by constructor.
Qed.

(** C8: two runs of cells 9 and 10 that differ only in the ground truth of
    the test set end with the same predictions, and cell 9 with the same
    outcome; when cell 9 finishes, prediction [i] is what [estimate_theta_i]
    returned from the embedding, the training feature vectors and the
    training angles. The ground truth reaches only [thetas_gt], hence only
    the RMSE. *)
Theorem C8_ground_truth_noninterference M (gt1 gt2 : list spherical) :
  length gt1 = length gt2 ->
  thetas_pred (fst (run9_10 M gt1)) = thetas_pred (fst (run9_10 M gt2)) /\
  snd (run9 M gt1) = snd (run9 M gt2) /\
  (snd (run9 M gt1) = inr tt ->
   Forall2 (fun i theta => predict i = inr theta) (seq 0 M)
     (thetas_pred (fst (run9_10 M gt1)))).
Proof.
  intros Hlen. rewrite !evaluate_state. unfold cell9.
  destruct (cell9_loop_same_predictions gt1 gt2 (seq 0 M) Hlen
              (Cell9 [] []) (Cell9 [] []) eq_refl) as [Hp Ho].
  split; [done|]. split; [done|].
  destruct (loop gt1 (seq 0 M) (Cell9 [] [])) as [st' r] eqn:Hrun. simpl.
  intros ->. by apply cell9_loop_predictions in Hrun as (preds & -> & Hall).
Qed.

End InterpolationFacts.

(** ** The run with one training source, continued *)

Lemma dist_1d x y : dist [x] [y] = Rabs (x - y).
Proof.
  unfold dist, rsum. simpl.
  replace ((x - y) * (x - y) + 0)%R with (Rsqr (x - y)) by (unfold Rsqr; lra).
  apply sqrt_Rsqr_abs.
Qed.

(** The neighbours of the test source of [Trio]: the training sources at 0
    and at 3, at distances 1 and 2; the one at 5 is left out. *)
Lemma trio_neighbours :
  nearest Trio.m Trio.k Trio.singular_vects 0 = inr [(0, 1%R); (1, 2%R)].
Proof.
  rewrite (nearest_eq Trio.m Trio.k Trio.singular_vects 0 [1%R] eq_refl).
  cbn [Trio.m Trio.k Trio.singular_vects cells seq fmap list_fmap lookup list_lookup
       default from_option Datatypes.id take].
  unfold Datatypes.id. rewrite !dist_1d.
  assert (Rabs (1 - 0) = 1)%R as -> by (unfold Rabs; destruct (Rcase_abs _); lra).
  assert (Rabs (1 - 3) = 2)%R as -> by (unfold Rabs; destruct (Rcase_abs _); lra).
  assert (Rabs (1 - 5) = 4)%R as -> by (unfold Rabs; destruct (Rcase_abs _); lra).
  unfold sort_by_dist, Trio.k. cbn [foldr insert_by_dist snd].
  destruct (Rle_dec 2 4) as [_|Hn]; [|lra]. cbn [insert_by_dist snd].
  destruct (Rle_dec 1 2) as [_|Hn]; [|lra]. done.
Qed.

(** What the interpolator returns for the test source of [Trio], for any
    weighting. *)
Lemma trio_estimate weight :
  estimate_theta_i Trio.m Trio.k weight 0 Trio.singular_vects Trio.train_featVects
    Trio.training_Set_spherical =
  inr ((weight 1 / (weight 1 + (weight 2 + 0)) * 0 +
        (weight 2 / (weight 1 + (weight 2 + 0)) * 1 + 0))%R,
       (weight 1 / (weight 1 + (weight 2 + 0)) * 0 +
        (weight 2 / (weight 1 + (weight 2 + 0)) * 2 + 0))%R).
Proof.
  destruct (estimate_theta_i_eq Trio.m Trio.k weight Trio.singular_vects
              Trio.train_featVects Trio.training_Set_spherical 0 _ trio_neighbours)
    as [_ ->]; [| |done].
  - intros p Hp. unfold Trio.m.
    apply elem_of_cons in Hp as [->|Hp]; [simpl; lia|].
    apply elem_of_cons in Hp as [->|Hp]; [simpl; lia|].
    by apply elem_of_nil in Hp.
  - unfold Trio.m, Trio.training_Set_spherical. simpl. lia.
Qed.

Lemma C7_interpolation_weights_witness :
  exists nb psi_i,
    cells Trio.singular_vects !! (Trio.m + 0) = Some psi_i /\
    nearest Trio.m Trio.k Trio.singular_vects 0 = inr nb /\
    length nb = Nat.min Trio.k Trio.m /\ NoDup (fst <$> nb) /\
    (forall p, p ∈ nb ->
       fst p < Trio.m /\
       exists psi_t,
         cells Trio.singular_vects !! fst p = Some psi_t /\ snd p = dist psi_i psi_t) /\
    (forall p t psi_t,
       p ∈ nb -> t < Trio.m -> t ∉ fst <$> nb ->
       cells Trio.singular_vects !! t = Some psi_t ->
       (snd p <= dist psi_i psi_t)%R) /\
    (forall weight,
       exists ws,
         ws = (fun p => (fst p,
                         (weight (snd p) / rsum ((fun q => weight (snd q)) <$> nb))%R))
                <$> nb /\
         interp_weights Trio.m Trio.k weight Trio.singular_vects 0 = inr ws /\
         estimate_theta_i Trio.m Trio.k weight 0 Trio.singular_vects
           Trio.train_featVects Trio.training_Set_spherical =
           inr (rsum ((fun p =>
                         (snd p *
                          default 0 (azimuth <$> Trio.training_Set_spherical !! fst p))%R)
                      <$> ws),
                rsum ((fun p =>
                         (snd p *
                          default 0
                            (elevation <$> Trio.training_Set_spherical !! fst p))%R)
                      <$> ws)) /\
         (rsum (snd <$> ws) = 1%R <->
          rsum ((fun q => weight (snd q)) <$> nb) <> 0%R) /\
         ((forall p, p ∈ nb -> (0 <= weight (snd p))%R) ->
          Forall (fun p => (0 <= snd p)%R) ws)) /\
    (forall sigma,
       exists ws,
         interp_weights Trio.m Trio.k (kernel_weight sigma) Trio.singular_vects 0
         = inr ws /\
         Forall (fun p => (0 < snd p)%R) ws /\ rsum (snd <$> ws) = 1%R) /\
    ((forall p, p ∈ nb -> (0 < snd p)%R) ->
     exists ws,
       interp_weights Trio.m Trio.k inverse_distance Trio.singular_vects 0 = inr ws /\
       Forall (fun p => (0 < snd p)%R) ws /\ rsum (snd <$> ws) = 1%R).
Proof.
  apply (C7_interpolation_weights Trio.m Trio.k Trio.singular_vects
           Trio.train_featVects Trio.training_Set_spherical 0).
  - unfold Trio.k. lia.
  - unfold Trio.m. lia.
  - unfold Trio.m, Trio.singular_vects. simpl. lia.
  - unfold Trio.m, Trio.training_Set_spherical. simpl. lia.
Defined.

Lemma C8_ground_truth_noninterference_witness :
  thetas_pred
    (fst (evaluate (estimate_theta_i Solo.m Solo.k Solo.weight) rmse Solo.A
            Solo.train_featVects Solo.training_Set_spherical Solo.M
            Solo.test_Set_spherical)) =
  thetas_pred
    (fst (evaluate (estimate_theta_i Solo.m Solo.k Solo.weight) rmse Solo.A
            Solo.train_featVects Solo.training_Set_spherical Solo.M
            Solo.test_Set_other)).
Proof.
  apply (C8_ground_truth_noninterference (estimate_theta_i Solo.m Solo.k Solo.weight)
           rmse Solo.A Solo.train_featVects Solo.training_Set_spherical Solo.M
           Solo.test_Set_spherical Solo.test_Set_other).
  reflexivity.
Defined.

(** ** The run with two identical training sources *)

Lemma twin_W_wf : mat_wf Twin.W.
Proof. split; [done|]. by repeat constructor. Qed.

Lemma twin_entry i j :
  i < Twin.M -> j < Twin.m ->
  affinity_entry Twin.epsilon Twin.cov_matrices Twin.feature_Vector_testPos
    Twin.feature_Vector_src inv_1x1 i j = inr 1%R.
Proof.
  unfold Twin.M, Twin.m. intros Hi Hj. destruct i as [|i]; [|lia].
  destruct j as [|[|j]]; [| |lia];
    unfold affinity_entry, gaussian_kernel; simpl;
    rewrite inv_1x1_spec by lra; simpl; unfold ok; f_equal;
    unfold dot_raw, mat_col, Twin.epsilon; simpl;
    rewrite <- exp_0; f_equal; lra.
Qed.

Lemma twin_eigenpairs i j :
  i < 2 -> j < 2 ->
  sum_upto 2 (fun k => (mat_at Twin.W i k * mat_at Twin.eig_vects k j)%R) =
    (mat_at Twin.eig_vects i j * vec_at Twin.eig_vals j)%R.
Proof.
  intros Hi Hj. destruct i as [|[|i]]; [| |lia];
    (destruct j as [|[|j]]; [| |lia]);
    unfold sum_upto, mat_at, vec_at; simpl; ring.
Qed.

(** Cells 3 to 8 on the run with two identical training sources: [W] is
    all ones, [np.linalg.eig] gives it the eigenvalues 2 and 0 with the
    eigenvectors of [Twin.eig_vects], and the Nystrom step refuses the
    second eigen-pair and reports it. *)
Lemma twin_embedding_refused :
  snd (embedding Twin.m Twin.M Twin.d Twin.epsilon Twin.cov_matrices
         Twin.feature_Vector_testPos Twin.feature_Vector_src inv_1x1 Twin.np_linalg_eig
         Twin.compute_train_featVects (compute_d_left_sing_vect Twin.tol Twin.select)
         Twin.W_ref Twin.store)
  = inl (NegligibleEigenvalue 1).
Proof.
  destruct (embedding_spec Twin.m Twin.M Twin.d Twin.epsilon Twin.cov_matrices
              Twin.feature_Vector_testPos Twin.feature_Vector_src inv_1x1
              Twin.np_linalg_eig Twin.compute_train_featVects
              (compute_d_left_sing_vect Twin.tol Twin.select)
              Twin.store Twin.W_ref Twin.W (fun _ _ => 1%R) Twin.eig_vals
              Twin.eig_vects [[0%R]; [0%R]]
              eq_refl twin_W_wf eq_refl eq_refl twin_entry eq_refl eq_refl)
    as (At & HAt & Hrun).
  change (view Twin.W_ref Twin.W) with Twin.W in *.
  destruct (A_tilde_spec Twin.m (A_expected Twin.m Twin.M Twin.W (fun _ _ => 1%R)))
    as (At' & HAt' & _ & HwfT & HrT & HcT & _);
    [by apply mat_wf_A_expected; [exact twin_W_wf|]|done|].
  rewrite HAt in HAt'. injection HAt' as <-. simpl in HrT.
  rewrite Hrun. unfold compute_d_left_sing_vect.
  destruct (decide (nrows At = Twin.m + Twin.M)) as [_|Hn]; [|done].
  cbn [Twin.select Twin.d seq result_mapM Twin.eig_vals lookup list_lookup of_option rbind].
  rewrite left_sing_vect_returns; [|unfold Twin.tol; lra|by rewrite HcT].
  cbn [rbind].
  rewrite left_sing_vect_refuses; [done|unfold Twin.tol; lra].
Qed.

Lemma C5_eigenvalue_guard_witness :
  (forall phi_j,
     left_sing_vect Twin.tol 1 0 phi_j (A_expected Twin.m Twin.M Twin.W (fun _ _ => 1%R))
     = inl (NegligibleEigenvalue 1)) /\
  exists e,
    compute_d_left_sing_vect Twin.tol Twin.select 3 Twin.eig_vals Twin.eig_vects
      (A_expected Twin.m Twin.M Twin.W (fun _ _ => 1%R)) Twin.d = inl e.
Proof.
  assert (0 <= Twin.tol)%R as Htol by (unfold Twin.tol; lra).
  apply (proj1 (C5_eigenvalue_guard Twin.tol Twin.select 3 Twin.eig_vals Twin.eig_vects
                  (A_expected Twin.m Twin.M Twin.W (fun _ _ => 1%R)) Twin.d Htol)
           1 0%R).
  - unfold Twin.select, Twin.d. simpl. apply list_elem_of_further, list_elem_of_here.
  - reflexivity.
  - left. apply Rle_refl.
Defined.

(** ** Cell 4 and cell 5, step by step *)

Lemma for_each_seq_fail_at (I : nat -> heap -> Prop) (J : heap -> Prop)
    (body : nat -> Run unit) e k :
  forall n s h,
    k < n ->
    I s h ->
    (forall i hh, s <= i < s + k -> I i hh ->
       exists hh', body i hh = (hh', inr tt) /\ I (S i) hh') ->
    (forall hh, I (s + k) hh -> exists hh', body (s + k) hh = (hh', inl e) /\ J hh') ->
    exists h', for_each (seq s n) body h = (h', inl e) /\ J h'.
Proof.
  induction k as [|k IH]; intros n s h Hk HI Hstep Hfail.
  - destruct n as [|n]; [lia|]. simpl. unfold run_bind.
    replace (s + 0) with s in Hfail by lia.
    destruct (Hfail h HI) as (h' & -> & HJ). by exists h'.
  - destruct n as [|n]; [lia|]. simpl. unfold run_bind.
    destruct (Hstep s h ltac:(lia) HI) as (h1 & -> & HI1).
    apply (IH n (S s) h1); [lia|done| |].
    + intros i hh Hi. apply Hstep. lia.
    + intros hh Hhh. replace (S s + k) with (s + S k) by lia. apply Hfail.
      by replace (s + S k) with (S s + k) by lia.
Qed.

Lemma hstack_T_zeros m M Wv :
  mat_wf Wv -> ncols Wv = m ->
  hstack (mat_T Wv) (zeros m M) = mat_T (A_expected m M Wv (fun _ _ => 0%R)).
Proof.
  intros Hwf Hc.
  assert (mat_wf (A_expected m M Wv (fun _ _ => 0%R))) as HwfA
    by by apply mat_wf_A_expected.
  apply mat_ext.
  - apply mat_wf_hstack; [apply mat_wf_T|apply mat_wf_zeros|]. simpl. lia.
  - apply mat_wf_T.
  - simpl. lia.
  - simpl. lia.
  - simpl. intros i j Hi Hj.
    rewrite mat_get_hstack; [|apply mat_wf_T|apply mat_wf_zeros|simpl; lia..].
    rewrite mat_get_T by (simpl; lia). f_equal. simpl.
    unfold mat_at at 3. rewrite mat_get_A_expected by (done || lia). simpl.
    case_decide; [apply mat_at_T; lia|apply mat_at_zeros].
Qed.

Lemma filled_before_start m M C0 kern :
  mat_wf C0 -> nrows C0 = m -> ncols C0 = m + M -> filled_before m M C0 kern 0 0 C0.
Proof.
  intros Hwf Hr Hc. split_and!; try done.
  intros r c Hrr Hcc. rewrite mat_get_at by (done || lia). f_equal.
  case_decide; [lia|done].
Qed.

Lemma filled_before_next_row m M C0 kern i C :
  filled_before m M C0 kern i m C -> filled_before m M C0 kern (S i) 0 C.
Proof.
  intros (Hwf & Hr & Hc & Hpt). split_and!; try done.
  intros r c Hrr Hcc. rewrite Hpt by done. f_equal.
  repeat case_decide; try done; lia.
Qed.

Lemma filled_before_set m M C0 kern i j C :
  i < M -> j < m ->
  filled_before m M C0 kern i j C ->
  filled_before m M C0 kern i (S j) (mat_set C j (i + m) (kern i j)).
Proof.
  intros Hi Hj (Hwf & Hr & Hc & Hpt).
  split; [by apply mat_wf_set|]. split_and!; try done.
  intros r c Hrr Hcc.
  destruct (decide (j = r /\ i + m = c)) as [[<- <-]|Hne].
  - rewrite mat_get_set_eq by (done || lia). f_equal.
    case_decide; [|lia]. by replace (i + m - m) with i by lia.
  - rewrite mat_get_set_ne by lia. rewrite Hpt by done. f_equal.
    repeat case_decide; try done; lia.
Qed.

(** An array equal to its transposed buffer entry by entry. *)
Lemma filled_before_all m M Wv kern C :
  mat_wf Wv -> nrows Wv = m -> ncols Wv = m ->
  filled_before m M (mat_T (A_expected m M Wv (fun _ _ => 0%R))) kern M 0 C ->
  C = mat_T (A_expected m M Wv kern).
Proof.
  intros HwfW HrW HcW (Hwf & Hr & Hc & Hpt).
  assert (mat_wf (A_expected m M Wv kern)) as HwfA by by apply mat_wf_A_expected.
  assert (mat_wf (A_expected m M Wv (fun _ _ => 0%R))) as HwfZ
    by by apply mat_wf_A_expected.
  apply mat_ext; [done|apply mat_wf_T|simpl; lia|simpl; lia|].
  intros r c Hrr Hcc. rewrite Hpt by lia.
  rewrite mat_get_T by (simpl; lia). f_equal.
  rewrite mat_at_T by (simpl; lia).
  unfold mat_at. rewrite !mat_get_A_expected by (done || lia). simpl.
  rewrite HrW. repeat case_decide; try done; lia.
Qed.

Section TestStageRuns.

Variables m M : nat.
Variable epsilon : R.
Variable cov_matrices : list mat.
Variable feature_Vector_testPos : nat -> result vec.
Variable feature_Vector_src : nat -> result vec.
Variable np_linalg_inv : mat -> result mat.

Local Abbreviation entry :=
  (affinity_entry epsilon cov_matrices feature_Vector_testPos feature_Vector_src
     np_linalg_inv).
Local Abbreviation fill :=
  (cell5 m M epsilon cov_matrices feature_Vector_testPos feature_Vector_src
     np_linalg_inv).
Local Abbreviation stage :=
  (test_stage m M epsilon cov_matrices feature_Vector_testPos feature_Vector_src
     np_linalg_inv).

(** Cell 4 on an array with [m] columns, whatever its number of rows. *)
Lemma cell4_returns h W w :
  h !! base W = Some (Buf2 w) -> ncols (view W w) = m ->
  cell4 m M W h =
    (h ++ [Buf2 (view W w); Buf2 (zeros m M);
           Buf2 (hstack (mat_T (view W w)) (zeros m M))],
     inr (NdArray (length h + 2) true)).
Proof.
  intros Hw Hc. set (Wv := view W w) in *.
  unfold cell4, ndarray_copy, np_zeros, np_c_, read_array, run_bind, alloc, run_ret.
  unfold load2 at 1. rewrite Hw. fold Wv. simpl.
  unfold load2 at 1.
  rewrite (lookup_app_l (h ++ [Buf2 Wv])) by (rewrite length_app; simpl; lia).
  rewrite (list_lookup_middle h [] (Buf2 Wv) (length h) eq_refl).
  unfold load2 at 1. rewrite length_app. simpl.
  rewrite (list_lookup_middle (h ++ [Buf2 Wv]) [] (Buf2 (zeros m M)) (length h + 1))
    by (rewrite length_app; simpl; lia).
  unfold view at 1 2 3 4. simpl.
  destruct (decide (ncols Wv = m)) as [_|Hn]; [|done].
  rewrite !length_app. simpl. rewrite <- !app_assoc. simpl.
  unfold view, ndarray_T. simpl. do 3 f_equal. lia.
Qed.

Lemma cell4_raises h W w :
  h !! base W = Some (Buf2 w) -> ncols (view W w) <> m ->
  cell4 m M W h = (h ++ [Buf2 (view W w); Buf2 (zeros m M)], inl ValueError).
Proof.
  intros Hw Hc. set (Wv := view W w) in *.
  unfold cell4, ndarray_copy, np_zeros, np_c_, read_array, run_bind, alloc, run_ret.
  unfold load2 at 1. rewrite Hw. fold Wv. simpl.
  unfold load2 at 1.
  rewrite (lookup_app_l (h ++ [Buf2 Wv])) by (rewrite length_app; simpl; lia).
  rewrite (list_lookup_middle h [] (Buf2 Wv) (length h) eq_refl).
  unfold load2 at 1. rewrite length_app. simpl.
  rewrite (list_lookup_middle (h ++ [Buf2 Wv]) [] (Buf2 (zeros m M)) (length h + 1))
    by (rewrite length_app; simpl; lia).
  unfold view at 1 2 3 4. simpl.
  destruct (decide (ncols Wv = m)) as [Hn|_]; [done|].
  unfold run_raise. by rewrite <- !app_assoc.
Qed.

(** X1: cell 4 turns an array [W] with [m] columns, whatever its number
    of rows, into a fresh array [A] that reads as [W] with [M] rows of zeros
    under it: the two transpositions around [np.c_] make the column stack a
    row stack. [W] reads as before. *)
Theorem cell4_appends_zero_rows h W w :
  h !! base W = Some (Buf2 w) -> mat_wf (view W w) -> ncols (view W w) = m ->
  exists h' A,
    cell4 m M W h = (h', inr A) /\ length h <= base A /\
    read_array A h' = (h', inr (A_expected m M (view W w) (fun _ _ => 0%R))) /\
    read_array W h' = (h', inr (view W w)).
Proof.
  intros Hw Hwf Hc. eexists _, _. split; [by apply cell4_returns|].
  split; [simpl; lia|].
  rewrite hstack_T_zeros by done. split.
  - apply test_stage_read. by apply mat_wf_A_expected.
  - pose proof (lookup_lt_Some _ _ _ Hw) as Hlt.
    unfold read_array, run_bind, load2, run_ret.
    rewrite lookup_app_l by done. by rewrite Hw.
Qed.

(** X2: cell 4 returns exactly when [W] has [m] columns; otherwise
    [np.c_] raises [ValueError], after the copy of [W] and the block of
    zeros were made. *)
Theorem cell4_column_check h W w :
  h !! base W = Some (Buf2 w) ->
  ((exists A, snd (cell4 m M W h) = inr A) <-> ncols (view W w) = m) /\
  (ncols (view W w) <> m ->
   cell4 m M W h = (h ++ [Buf2 (view W w); Buf2 (zeros m M)], inl ValueError)).
Proof.
  intros Hw. split; [|by apply cell4_raises]. split.
  - intros [A HA]. destruct (decide (ncols (view W w) = m)) as [|Hn]; [done|].
    by rewrite (cell4_raises h W w Hw Hn) in HA.
  - intros Hc. eexists. by rewrite (cell4_returns h W w Hw Hc).
Qed.

Local Abbreviation body h1 i j :=
  (do v <- lift (entry i j); setitem (NdArray (length h1) true) (i + m) j v).

Lemma cell5_inner_step h1 C0 kern i j C :
  i < M -> j < m -> entry i j = inr (kern i j) ->
  filled_before m M C0 kern i j C ->
  body h1 i j (h1 ++ [Buf2 C]) =
    (h1 ++ [Buf2 (mat_set C j (i + m) (kern i j))], inr tt).
Proof.
  intros Hi Hj He (Hwf & Hr & Hc & _).
  unfold run_bind, lift. rewrite He. apply setitem_transposed_last; lia.
Qed.

(** One pass of the inner loop. *)
Lemma cell5_row_returns h1 C0 kern i C :
  i < M -> (forall j, j < m -> entry i j = inr (kern i j)) ->
  filled_before m M C0 kern i 0 C ->
  exists C',
    for_range m (fun j => body h1 i j) (h1 ++ [Buf2 C]) = (h1 ++ [Buf2 C'], inr tt) /\
    filled_before m M C0 kern (S i) 0 C'.
Proof.
  intros Hi Hk HC.
  destruct (for_range_inv
              (fun j hh => exists C', hh = h1 ++ [Buf2 C'] /\
                                      filled_before m M C0 kern i j C')
              (fun j => body h1 i j) m (h1 ++ [Buf2 C])) as (h' & Hrun & C' & -> & HC').
  - by exists C.
  - intros j hh Hj (C2 & -> & HC2). eexists. split.
    + apply (cell5_inner_step h1 C0 kern); [done|done|by apply Hk|done].
    + eexists. split; [done|]. by apply filled_before_set.
  - exists C'. split; [done|]. by apply filled_before_next_row.
Qed.

(** The double loop on any buffer of the right shape: it returns, writes
    the kernel values into the columns of the test samples and leaves the
    other entries as they were. *)
Lemma cell5_returns h1 C kern :
  (forall i j, i < M -> j < m -> entry i j = inr (kern i j)) ->
  mat_wf C -> nrows C = m -> ncols C = m + M ->
  exists C',
    fill (NdArray (length h1) true) (h1 ++ [Buf2 C]) = (h1 ++ [Buf2 C'], inr tt) /\
    filled_before m M C kern M 0 C'.
Proof.
  intros Hk Hwf Hr Hc.
  destruct (for_range_inv
              (fun i hh => exists C', hh = h1 ++ [Buf2 C'] /\
                                      filled_before m M C kern i 0 C')
              (fun i => for_range m (fun j => body h1 i j))
              M (h1 ++ [Buf2 C])) as (h' & Hrun & C' & -> & HC').
  - exists C. split; [done|]. by apply filled_before_start.
  - intros i hh Hi (C2 & -> & HC2).
    destruct (cell5_row_returns h1 C kern i C2 Hi) as (C3 & Hrow & HC3); [|done|].
    { intros j Hj. by apply Hk. }
    exists (h1 ++ [Buf2 C3]). split; [done|]. by exists C3.
  - exists C'. split; [|done]. exact Hrun.
Qed.

(** X3: running cell 5 a second time changes nothing: every entry it
    writes depends on the indices only, so a finished test stage followed by
    the loops of cell 5 again returns with the store as it was. *)
Theorem cell5_rerun h W w kern :
  h !! base W = Some (Buf2 w) ->
  mat_wf (view W w) -> nrows (view W w) = m -> ncols (view W w) = m ->
  (forall i j, i < M -> j < m -> entry i j = inr (kern i j)) ->
  exists h' A, stage W h = (h', inr A) /\ fill A h' = (h', inr tt).
Proof.
  intros Hw Hwf Hr Hc Hk. set (Wv := view W w) in *.
  eexists _, _. split; [by apply test_stage_spec|]. fold Wv.
  set (h1 := h ++ [Buf2 Wv; Buf2 (zeros m M)]).
  assert (length h + 2 = length h1) as ->.
  { unfold h1. rewrite length_app. simpl. lia. }
  assert (forall b, h ++ [Buf2 Wv; Buf2 (zeros m M); b] = h1 ++ [b]) as Happ.
  { intros b. unfold h1. by rewrite <- app_assoc. }
  rewrite !Happ.
  assert (mat_wf (A_expected m M Wv kern)) as HwfA by by apply mat_wf_A_expected.
  assert (mat_wf (A_expected m M Wv (fun _ _ => 0%R))) as HwfZ
    by by apply mat_wf_A_expected.
  destruct (cell5_returns h1 (mat_T (A_expected m M Wv kern)) kern Hk)
    as (C' & Hrun & HC'); [apply mat_wf_T|done|simpl; lia|].
  rewrite Hrun. do 4 f_equal.
  apply (filled_before_all m M Wv kern C' Hwf Hr Hc).
  destruct HC' as (Hwf' & Hr' & Hc' & Hpt). split_and!; try done.
  intros r c Hrr Hcc. rewrite Hpt by done. f_equal.
  rewrite !mat_at_T by (simpl; lia).
  unfold mat_at. rewrite !mat_get_A_expected by (done || lia). simpl.
  rewrite Hr. repeat case_decide; try done; lia.
Qed.

(** One pass of the inner loop that stops at training sample [j0]. *)
Lemma cell5_row_raises h1 C0 kern i j0 e C :
  i < M -> j0 < m ->
  (forall j, j < j0 -> entry i j = inr (kern i j)) ->
  entry i j0 = inl e ->
  filled_before m M C0 kern i 0 C ->
  exists C',
    for_range m (fun j => body h1 i j) (h1 ++ [Buf2 C]) = (h1 ++ [Buf2 C'], inl e) /\
    filled_before m M C0 kern i j0 C'.
Proof.
  intros Hi Hj0 Hk He HC. unfold for_range.
  destruct (for_each_seq_fail_at
              (fun j hh => exists C', hh = h1 ++ [Buf2 C'] /\
                                      filled_before m M C0 kern i j C')
              (fun hh => exists C', hh = h1 ++ [Buf2 C'] /\
                                    filled_before m M C0 kern i j0 C')
              (fun j => body h1 i j) e j0 m 0 (h1 ++ [Buf2 C]) Hj0)
    as (h' & Hrun & C' & -> & HC').
  - by exists C.
  - intros j hh Hj (C2 & -> & HC2). eexists. split.
    + apply (cell5_inner_step h1 C0 kern); [done|lia|apply Hk; lia|done].
    + eexists. split; [done|]. apply filled_before_set; [done|lia|done].
  - intros hh (C2 & -> & HC2). simpl. exists (h1 ++ [Buf2 C2]). split.
    + unfold run_bind, lift. by rewrite He.
    + by exists C2.
  - by exists C'.
Qed.

(** The double loop when the kernel evaluation for [(i0, j0)] is the first
    to raise. *)
Lemma cell5_raises h1 C kern i0 j0 e :
  i0 < M -> j0 < m ->
  (forall i j, i < M -> j < m -> i < i0 \/ (i = i0 /\ j < j0) ->
     entry i j = inr (kern i j)) ->
  entry i0 j0 = inl e ->
  mat_wf C -> nrows C = m -> ncols C = m + M ->
  exists C',
    fill (NdArray (length h1) true) (h1 ++ [Buf2 C]) = (h1 ++ [Buf2 C'], inl e) /\
    filled_before m M C kern i0 j0 C'.
Proof.
  intros Hi0 Hj0 Hk He Hwf Hr Hc. unfold cell5. unfold for_range at 1.
  destruct (for_each_seq_fail_at
              (fun i hh => exists C', hh = h1 ++ [Buf2 C'] /\
                                      filled_before m M C kern i 0 C')
              (fun hh => exists C', hh = h1 ++ [Buf2 C'] /\
                                    filled_before m M C kern i0 j0 C')
              (fun i => for_range m (fun j => body h1 i j))
              e i0 M 0 (h1 ++ [Buf2 C]) Hi0)
    as (h' & Hrun & C' & -> & HC').
  - exists C. split; [done|]. by apply filled_before_start.
  - intros i hh Hi (C2 & -> & HC2).
    destruct (cell5_row_returns h1 C kern i C2) as (C3 & Hrow & HC3); [lia| |done|].
    { intros j Hj. apply Hk; lia. }
    exists (h1 ++ [Buf2 C3]). split; [done|]. by exists C3.
  - intros hh (C2 & -> & HC2). simpl.
    destruct (cell5_row_raises h1 C kern i0 j0 e C2) as (C3 & Hrow & HC3);
      [done|done| |done|done|].
    { intros j Hj. apply Hk; lia. }
    exists (h1 ++ [Buf2 C3]). split; [done|]. by exists C3.
  - by exists C'.
Qed.

Lemma filled_before_read Wv kern i0 j0 C :
  mat_wf Wv -> nrows Wv = m -> ncols Wv = m ->
  filled_before m M (mat_T (A_expected m M Wv (fun _ _ => 0%R))) kern i0 j0 C ->
  C = mat_T (A_expected m M Wv (written_before i0 j0 kern)).
Proof.
  intros HwfW HrW HcW (Hwf & Hr & Hc & Hpt).
  assert (mat_wf (A_expected m M Wv (written_before i0 j0 kern))) as HwfA
    by by apply mat_wf_A_expected.
  assert (mat_wf (A_expected m M Wv (fun _ _ => 0%R))) as HwfZ
    by by apply mat_wf_A_expected.
  apply mat_ext; [done|apply mat_wf_T|simpl; lia|simpl; lia|].
  intros r c Hrr Hcc. rewrite Hpt by lia.
  rewrite mat_get_T by (simpl; lia). f_equal.
  rewrite mat_at_T by (simpl; lia).
  unfold mat_at. rewrite !mat_get_A_expected by (done || lia). simpl.
  rewrite HrW. unfold written_before. repeat case_decide; try done; lia.
Qed.

(** X4: when the kernel evaluation for test sample [i0] and training
    sample [j0] is the first to raise, the test stage stops with that
    exception and leaves [A] partly filled: the rows of [W], the kernel
    values of the entries handled before [(i0, j0)], zeros in the entries
    not reached. [W] reads as before. *)
Theorem test_stage_partial_fill h W w kern i0 j0 e :
  h !! base W = Some (Buf2 w) ->
  mat_wf (view W w) -> nrows (view W w) = m -> ncols (view W w) = m ->
  i0 < M -> j0 < m ->
  (forall i j, i < M -> j < m -> i < i0 \/ (i = i0 /\ j < j0) ->
     entry i j = inr (kern i j)) ->
  entry i0 j0 = inl e ->
  exists h',
    stage W h = (h', inl e) /\
    read_array (NdArray (length h + 2) true) h' =
      (h', inr (A_expected m M (view W w) (written_before i0 j0 kern))) /\
    read_array W h' = (h', inr (view W w)).
Proof.
  intros Hw Hwf Hr Hc Hi0 Hj0 Hk He. set (Wv := view W w) in *.
  assert (mat_wf (A_expected m M Wv (written_before i0 j0 kern))) as HwfA
    by by apply mat_wf_A_expected.
  assert (mat_wf (A_expected m M Wv (fun _ _ => 0%R))) as HwfZ
    by by apply mat_wf_A_expected.
  exists (h ++ [Buf2 Wv; Buf2 (zeros m M);
                Buf2 (mat_T (A_expected m M Wv (written_before i0 j0 kern)))]).
  split; [|split].
  - unfold test_stage, run_bind. rewrite (cell4_returns h W w Hw Hc). fold Wv.
    rewrite hstack_T_zeros by done.
    set (h1 := h ++ [Buf2 Wv; Buf2 (zeros m M)]).
    assert (length h + 2 = length h1) as ->.
    { unfold h1. rewrite length_app. simpl. lia. }
    assert (forall b, h ++ [Buf2 Wv; Buf2 (zeros m M); b] = h1 ++ [b]) as Happ.
    { intros b. unfold h1. by rewrite <- app_assoc. }
    rewrite !Happ.
    destruct (cell5_raises h1 (mat_T (A_expected m M Wv (fun _ _ => 0%R)))
                kern i0 j0 e Hi0 Hj0 Hk He)
      as (C' & Hrun & HC'); [apply mat_wf_T|done|simpl; lia|].
    rewrite Hrun. do 4 f_equal. by apply filled_before_read.
  - by apply test_stage_read.
  - pose proof (lookup_lt_Some _ _ _ Hw) as Hlt.
    unfold read_array, run_bind, load2, run_ret.
    rewrite lookup_app_l by done. by rewrite Hw.
Qed.

(** X5: with fewer covariance matrices than training sources the test
    stage raises [IndexError] in the first pass of the outer loop, at the
    first training source that has none, provided the kernel evaluations
    before it return and the two feature vectors exist. *)
Theorem test_stage_missing_covariance h W w kern t s :
  h !! base W = Some (Buf2 w) ->
  mat_wf (view W w) -> nrows (view W w) = m -> ncols (view W w) = m ->
  0 < M -> length cov_matrices < m ->
  (forall j, j < length cov_matrices -> entry 0 j = inr (kern j)) ->
  feature_Vector_testPos 0 = inr t ->
  feature_Vector_src (length cov_matrices) = inr s ->
  snd (stage W h) = inl IndexError.
Proof.
  intros Hw Hwf Hr Hc HM Hlen Hk Ht Hs.
  apply (test_stage_raises m M epsilon cov_matrices feature_Vector_testPos
           feature_Vector_src np_linalg_inv h W w kern (length cov_matrices));
    try done.
  unfold affinity_entry. rewrite Ht, Hs. simpl.
  by rewrite (proj2 (lookup_ge_None cov_matrices (length cov_matrices))).
Qed.


End TestStageRuns.

Lemma wide_W_wf : mat_wf Wide.W.
Proof. split; [done|]. by repeat constructor. Qed.

Lemma cell4_appends_zero_rows_witness :
  exists h' A,
    cell4 2 1 Wide.W_ref Wide.store = (h', inr A) /\ length Wide.store <= base A /\
    read_array A h' = (h', inr (A_expected 2 1 Wide.W (fun _ _ => 0%R))) /\
    read_array Wide.W_ref h' = (h', inr Wide.W).
Proof.
  apply (cell4_appends_zero_rows 2 1 Wide.store Wide.W_ref Wide.W).
  - reflexivity.
  - exact wide_W_wf.
  - reflexivity.
Defined.

Lemma cell4_column_check_witness :
  ((exists A, snd (cell4 Wide.m Wide.M Wide.W_ref Wide.store) = inr A) <->
   ncols Wide.W = Wide.m) /\
  (ncols Wide.W <> Wide.m ->
   cell4 Wide.m Wide.M Wide.W_ref Wide.store =
     (Wide.store ++ [Buf2 Wide.W; Buf2 (zeros Wide.m Wide.M)], inl ValueError)).
Proof.
  apply (cell4_column_check Wide.m Wide.M Wide.store Wide.W_ref Wide.W).
  reflexivity.
Defined.

Lemma cell5_rerun_witness :
  exists h' A,
    test_stage Duo.m Duo.M Duo.epsilon Duo.cov_matrices Duo.feature_Vector_testPos
      Duo.feature_Vector_src inv_1x1 Duo.W_ref Duo.store = (h', inr A) /\
    cell5 Duo.m Duo.M Duo.epsilon Duo.cov_matrices Duo.feature_Vector_testPos
      Duo.feature_Vector_src inv_1x1 A h' = (h', inr tt).
Proof.
  apply (cell5_rerun Duo.m Duo.M Duo.epsilon Duo.cov_matrices
           Duo.feature_Vector_testPos Duo.feature_Vector_src inv_1x1
           Duo.store Duo.W_ref Duo.W Duo.kern).
  - reflexivity.
  - exact duo_W_wf.
  - reflexivity.
  - reflexivity.
  - exact duo_entry_kern.
Defined.

Lemma singular_entry_first : Singular.entry 0 0 = inr (Singular.kern 0 0).
Proof.
  unfold Singular.kern. destruct duo_singular_1_first as [v Hv].
  fold Singular.entry in Hv. by rewrite Hv.
Qed.

Lemma singular_entry_raises : Singular.entry 0 1 = inl LinAlgError.
Proof.
  unfold Singular.entry, affinity_entry, gaussian_kernel.
  cbn [Duo.feature_Vector_testPos Duo.feature_Vector_src features of_option rbind
       lookup list_lookup Duo.singular_1].
  by rewrite inv_1x1_zero.
Qed.

Lemma test_stage_partial_fill_witness :
  exists h',
    test_stage Duo.m Duo.M Duo.epsilon Duo.singular_1 Duo.feature_Vector_testPos
      Duo.feature_Vector_src inv_1x1 Duo.W_ref Duo.store = (h', inl LinAlgError) /\
    read_array (NdArray (length Duo.store + 2) true) h' =
      (h', inr (A_expected Duo.m Duo.M Duo.W (written_before 0 1 Singular.kern))) /\
    read_array Duo.W_ref h' = (h', inr Duo.W).
Proof.
  apply (test_stage_partial_fill Duo.m Duo.M Duo.epsilon Duo.singular_1
           Duo.feature_Vector_testPos Duo.feature_Vector_src inv_1x1
           Duo.store Duo.W_ref Duo.W Singular.kern 0 1 LinAlgError).
  - reflexivity.
  - exact duo_W_wf.
  - reflexivity.
  - reflexivity.
  - unfold Duo.M. lia.
  - unfold Duo.m. lia.
  - intros i j Hi Hj Hij. replace i with 0 by lia. replace j with 0 by lia.
    exact singular_entry_first.
  - exact singular_entry_raises.
Defined.

Lemma short_entry_first : Short.entry 0 0 = inr (Short.kern 0 0).
Proof.
  assert (exists v, Short.entry 0 0 = inr v) as [v Hv].
  { unfold Short.entry, affinity_entry, gaussian_kernel. simpl.
    rewrite inv_1x1_spec by lra. simpl. by eexists. }
  unfold Short.kern. by rewrite Hv.
Qed.

Lemma test_stage_missing_covariance_witness :
  snd (test_stage Duo.m Duo.M Duo.epsilon Short.cov_matrices Duo.feature_Vector_testPos
         Duo.feature_Vector_src inv_1x1 Duo.W_ref Duo.store) = inl IndexError.
Proof.
  apply (test_stage_missing_covariance Duo.m Duo.M Duo.epsilon Short.cov_matrices
           Duo.feature_Vector_testPos Duo.feature_Vector_src inv_1x1
           Duo.store Duo.W_ref Duo.W (fun j => Short.kern 0 j) [1%R] [1%R]).
  - reflexivity.
  - exact duo_W_wf.
  - reflexivity.
  - reflexivity.
  - unfold Duo.M. lia.
  - unfold Duo.m. simpl. lia.
  - intros j Hj. simpl in Hj. replace j with 0 by lia. exact short_entry_first.
  - reflexivity.
  - reflexivity.
Defined.

(** ** The kernel of cell 5 *)

Lemma zip_with_minus_swap (a b : vec) :
  zip_with Rminus b a = Ropp <$> zip_with Rminus a b.
Proof.
  revert b. induction a as [|x a IH]; intros [|y b]; try done.
  cbn [zip_with]. rewrite fmap_cons. f_equal; [lra|apply IH].
Qed.

Lemma fmap_minus_swap_l x (l : vec) :
  (fun y => (y - x)%R) <$> l = Ropp <$> ((fun y => (x - y)%R) <$> l).
Proof.
  induction l as [|y l IH]; [done|]. rewrite !fmap_cons. f_equal; [lra|apply IH].
Qed.

Lemma fmap_minus_swap_r x (l : vec) :
  (fun y => (x - y)%R) <$> l = Ropp <$> ((fun y => (y - x)%R) <$> l).
Proof.
  induction l as [|y l IH]; [done|]. rewrite !fmap_cons. f_equal; [lra|apply IH].
Qed.

(** [b - a] is [-(a - b)], with the same broadcasting and the same
    failures. *)
Lemma np_sub_swap (a b : vec) :
  np_sub b a = match np_sub a b with
               | inr d => inr (Ropp <$> d)
               | inl e => inl e
               end.
Proof.
  destruct a as [|x [|x' a]], b as [|y [|y' b]]; unfold np_sub;
    try done.
  - rewrite !fmap_cons. do 2 f_equal. lra.
  - by rewrite fmap_minus_swap_l.
  - by rewrite fmap_minus_swap_r.
  - repeat case_decide; try done; try (exfalso; congruence).
    by rewrite zip_with_minus_swap.
Qed.

Lemma dot_raw_opp_l (u v : vec) : dot_raw (Ropp <$> u) v = (- dot_raw u v)%R.
Proof.
  unfold dot_raw, rsum. revert v. induction u as [|x u IH]; intros [|y v];
    try (simpl; lra).
  rewrite fmap_cons. cbn [zip_with foldr]. rewrite IH. lra.
Qed.

Lemma dot_raw_opp_r (u v : vec) : dot_raw u (Ropp <$> v) = (- dot_raw u v)%R.
Proof.
  unfold dot_raw, rsum. revert v. induction u as [|x u IH]; intros [|y v];
    try (simpl; lra).
  rewrite fmap_cons. cbn [zip_with foldr]. rewrite IH. lra.
Qed.

Lemma np_vecmat_opp (d : vec) P :
  np_vecmat (Ropp <$> d) P = match np_vecmat d P with
                             | inr u => inr (Ropp <$> u)
                             | inl e => inl e
                             end.
Proof.
  unfold np_vecmat. rewrite length_fmap. case_decide; [|done]. f_equal.
  induction (seq 0 (ncols P)) as [|j l IH]; [done|].
  rewrite !fmap_cons. f_equal; [apply dot_raw_opp_l|apply IH].
Qed.

Lemma np_dot_opp (u d : vec) : np_dot (Ropp <$> u) (Ropp <$> d) = np_dot u d.
Proof.
  unfold np_dot. rewrite !length_fmap. case_decide; [|done]. f_equal.
  rewrite dot_raw_opp_l, dot_raw_opp_r. lra.
Qed.

(** The quadratic form is even in the difference of the two vectors. *)
Lemma mahalanobis_nom_swap (t s : vec) P : mahalanobis_nom s t P = mahalanobis_nom t s P.
Proof.
  unfold mahalanobis_nom. rewrite (np_sub_swap t s).
  destruct (np_sub t s) as [e|d]; simpl; [done|].
  rewrite np_vecmat_opp. destruct (np_vecmat d P) as [e|u]; simpl; [done|].
  apply np_dot_opp.
Qed.

Lemma exp_le_iff x y : (exp x <= exp y)%R <-> (x <= y)%R.
Proof.
  split.
  - intros Hle. destruct (Rle_or_lt x y) as [|Hlt]; [done|].
    apply exp_increasing in Hlt. lra.
  - intros [Hlt| ->]; [|lra]. apply exp_increasing in Hlt. lra.
Qed.

(** X6: the kernel value does not change when the test and the training
    feature vector are swapped (for the same covariance matrix), and the
    two calls raise the same exception when one of them raises: the
    quadratic form of line 173 is even in the difference. *)
Theorem gaussian_kernel_swap epsilon np_linalg_inv (t s : vec) cov :
  gaussian_kernel epsilon np_linalg_inv s t cov =
  gaussian_kernel epsilon np_linalg_inv t s cov.
Proof.
  unfold gaussian_kernel. destruct (np_linalg_inv cov) as [e|P]; simpl; [done|].
  by rewrite mahalanobis_nom_swap.
Qed.

(** X8: for two feature vectors of the same length [D] the quadratic form
    of line 173 is computed exactly when the inverse covariance has [D]
    rows and [D] columns; with any other shape one of the two products
    raises [ValueError]. *)
Theorem mahalanobis_nom_shape_check (t s : vec) P :
  length s = length t ->
  (nrows P = length t /\ ncols P = length t -> exists nom, mahalanobis_nom t s P = inr nom) /\
  (~ (nrows P = length t /\ ncols P = length t) -> mahalanobis_nom t s P = inl ValueError).
Proof.
  intros Hl. unfold mahalanobis_nom. rewrite np_sub_same_length by done. simpl.
  assert (length (zip_with Rminus t s) = length t) as Hd.
  { rewrite length_zip_with. lia. }
  unfold np_vecmat, np_dot. rewrite Hd. split.
  - intros [Hr Hc]. case_decide; [|lia]. simpl.
    rewrite length_fmap, length_seq. case_decide; [|lia]. by eexists.
  - intros Hn. case_decide; [|done]. simpl.
    rewrite length_fmap, length_seq. case_decide; [|done]. lia.
Qed.

(** X9: for a quadratic form that is not negative, a larger [epsilon]
    gives a kernel value that is at least as large, and never above 1. *)
Theorem gaussian_kernel_bandwidth np_linalg_inv (t s : vec) cov P nom eps1 eps2 :
  np_linalg_inv cov = inr P -> mahalanobis_nom t s P = inr nom ->
  (0 <= nom)%R -> (0 < eps1)%R -> (eps1 <= eps2)%R ->
  exists v1 v2,
    gaussian_kernel eps1 np_linalg_inv t s cov = inr v1 /\
    gaussian_kernel eps2 np_linalg_inv t s cov = inr v2 /\
    (v1 <= v2)%R /\ (v2 <= 1)%R.
Proof.
  intros HP Hnom Hge H1 H12. unfold gaussian_kernel. rewrite HP. simpl.
  rewrite Hnom. simpl. eexists _, _. split; [done|]. split; [done|].
  pose proof (Rinv_le_contravar eps1 eps2 H1 H12) as Hinv.
  assert (0 < / eps2)%R as Hpos by (apply Rinv_0_lt_compat; lra).
  split.
  - apply exp_le_iff. unfold Rdiv. nra.
  - apply (Rle_trans _ (exp 0)); [|rewrite exp_0; lra].
    apply exp_le_iff. unfold Rdiv. nra.
Qed.

Lemma mahalanobis_nom_shape_check_witness :
  (nrows (Mat 1 1 [[1%R]]) = 2 /\ ncols (Mat 1 1 [[1%R]]) = 2 ->
   exists nom, mahalanobis_nom [1; 2]%R [0; 0]%R (Mat 1 1 [[1%R]]) = inr nom) /\
  (~ (nrows (Mat 1 1 [[1%R]]) = 2 /\ ncols (Mat 1 1 [[1%R]]) = 2) ->
   mahalanobis_nom [1; 2]%R [0; 0]%R (Mat 1 1 [[1%R]]) = inl ValueError).
Proof.
  apply (mahalanobis_nom_shape_check [1; 2]%R [0; 0]%R (Mat 1 1 [[1%R]])).
  reflexivity.
Defined.

Lemma gaussian_kernel_bandwidth_witness :
  exists v1 v2,
    gaussian_kernel 1 inv_1x1 [1%R] [0%R] (Mat 1 1 [[1%R]]) = inr v1 /\
    gaussian_kernel 2 inv_1x1 [1%R] [0%R] (Mat 1 1 [[1%R]]) = inr v2 /\
    (v1 <= v2)%R /\ (v2 <= 1)%R.
Proof.
  apply (gaussian_kernel_bandwidth inv_1x1 [1%R] [0%R] (Mat 1 1 [[1%R]])
           (Mat 1 1 [[(1 / 1)%R]])
           (mahalanobis_sq (zip_with Rminus [1%R] [0%R]) (Mat 1 1 [[(1 / 1)%R]]))
           1 2).
  - apply inv_1x1_spec. lra.
  - apply mahalanobis_nom_spec.
    + split; [reflexivity|]. by repeat constructor.
    + reflexivity.
    + reflexivity.
    + reflexivity.
  - unfold mahalanobis_sq, sum_upto, vec_at, mat_at. simpl. lra.
  - lra.
  - lra.
Defined.

(** ** Cell 7: when it returns *)

Lemma A_tilde_wrong_shape m A : ncols A <> m -> A_tilde m A = inl ValueError.
Proof.
  intros Hn. unfold A_tilde, np_matmul. simpl.
  destruct (decide (nrows A = nrows A)) as [_|Hne]; [|done]. simpl.
  by destruct (decide (ncols A = m)).
Qed.

(** X10: cell 7 returns exactly when [A] has [m] columns; otherwise the
    product with [np.ones((m, 1))] raises [ValueError]. *)
Theorem A_tilde_column_check m A :
  mat_wf A ->
  ((exists At, A_tilde m A = inr At) <-> ncols A = m) /\
  (ncols A <> m -> A_tilde m A = inl ValueError).
Proof.
  intros Hwf. split; [|apply A_tilde_wrong_shape]. split.
  - intros [At HAt]. destruct (decide (ncols A = m)) as [|Hn]; [done|].
    by rewrite A_tilde_wrong_shape in HAt.
  - intros Hm. destruct (A_tilde_spec m A Hwf Hm) as (At & HAt & _). by exists At.
Qed.

Lemma A_tilde_column_check_witness :
  ((exists At, A_tilde 2 Solo.A = inr At) <-> ncols Solo.A = 2) /\
  (ncols Solo.A <> 2 -> A_tilde 2 Solo.A = inl ValueError).
Proof. apply (A_tilde_column_check 2 Solo.A). exact solo_A_wf. Defined.

(** ** Cell 9: the two lists *)

Section Cell9Facts.

Variable estimate_theta_i : nat -> mat -> list vec -> list spherical -> result (R * R).
Variable singular_vects : mat.
Variable train_featVects : list vec.
Variable training_Set_spherical : list spherical.

Local Abbreviation loop :=
  (cell9_loop estimate_theta_i singular_vects train_featVects training_Set_spherical).
Local Abbreviation run9 :=
  (cell9 estimate_theta_i singular_vects train_featVects training_Set_spherical).
Local Abbreviation predict i :=
  (estimate_theta_i i singular_vects train_featVects training_Set_spherical).
Local Abbreviation angles := (fun s : spherical => (azimuth s, elevation s)).

Lemma cell9_loop_app (gt : list spherical) l1 l2 st :
  loop gt (l1 ++ l2) st =
    match loop gt l1 st with
    | (st', inr _) => loop gt l2 st'
    | (st', inl e) => (st', inl e)
    end.
Proof.
  revert st. induction l1 as [|i l1 IH]; intros st; simpl; [done|].
  destruct (cell9_body _ _ _ _ _ _ _) as [st1 [e|u]]; [done|apply IH].
Qed.

(** The loop over indices that all have a prediction and a ground
    truth. *)
Lemma cell9_loop_returns (gt : list spherical) theta n :
  forall s st,
    s + n <= length gt ->
    (forall i, s <= i < s + n -> predict i = inr (theta i)) ->
    loop gt (seq s n) st =
      (Cell9 (thetas_pred st ++ (theta <$> seq s n))
             (thetas_gt st ++ (angles <$> take n (drop s gt))),
       inr tt).
Proof.
  induction n as [|n IH]; intros s st Hlen Hp.
  - simpl. rewrite !app_nil_r. by destruct st.
  - cbn [seq cell9_loop]. unfold cell9_body. rewrite Hp by lia.
    destruct (lookup_lt_is_Some_2 gt s) as [x Hx]; [lia|]. rewrite Hx.
    rewrite IH by (lia || (intros i Hi; apply Hp; lia)).
    cbn [thetas_pred thetas_gt]. rewrite <- !app_assoc.
    rewrite (drop_S gt x s Hx). cbn [take]. rewrite !fmap_cons. done.
Qed.

(** X14: when [test_Set_spherical] has at least [M] entries and
    [estimate_theta_i] returns for every test sample, cell 9 finishes;
    [thetas_pred] holds the [M] predictions in order and [thetas_gt] the
    azimuth and elevation (indices 1 and 2) of the first [M] entries of
    [test_Set_spherical]. *)
Theorem cell9_finishes M (gt : list spherical) theta :
  M <= length gt ->
  (forall i, i < M -> predict i = inr (theta i)) ->
  run9 M gt = (Cell9 (theta <$> seq 0 M) (angles <$> take M gt), inr tt).
Proof.
  intros Hlen Hp. unfold cell9.
  rewrite (cell9_loop_returns gt theta M 0 (Cell9 [] [])); [|lia|].
  - by rewrite drop_0.
  - intros i Hi. apply Hp. lia.
Qed.

(** X15: when [test_Set_spherical] has fewer than [M] entries, cell 9
    stops with [IndexError] at the first index that has no entry; the
    prediction for that index was already appended, so [thetas_pred] is one
    element longer than [thetas_gt]. *)
Theorem cell9_short_ground_truth M (gt : list spherical) theta :
  length gt < M ->
  (forall i, i <= length gt -> predict i = inr (theta i)) ->
  run9 M gt =
    (Cell9 (theta <$> seq 0 (S (length gt))) (angles <$> gt), inl IndexError).
Proof.
  intros Hlen Hp. unfold cell9. rewrite seq_S, fmap_app.
  replace M with (length gt + S (M - S (length gt))) by lia.
  rewrite seq_app, cell9_loop_app.
  rewrite (cell9_loop_returns gt theta (length gt) 0 (Cell9 [] [])); [|lia|].
  - cbn [seq cell9_loop]. unfold cell9_body. rewrite Hp by lia.
    rewrite (proj2 (lookup_ge_None gt (0 + length gt))) by lia.
    cbn [thetas_pred thetas_gt]. by rewrite drop_0, take_ge by done.
  - intros i Hi. apply Hp. lia.
Qed.

Lemma cell9_loop_lengths (gt : list spherical) todo :
  forall st,
    length (thetas_pred st) = length (thetas_gt st) ->
    let st' := fst (loop gt todo st) in
    length (thetas_gt st') <= length (thetas_pred st') <= length (thetas_gt st') + 1 /\
    length (thetas_pred st') <= length (thetas_pred st) + length todo /\
    (snd (loop gt todo st) = inr tt ->
     length (thetas_pred st') = length (thetas_pred st) + length todo /\
     length (thetas_gt st') = length (thetas_pred st')) /\
    (length (thetas_gt st') < length (thetas_pred st') ->
     snd (loop gt todo st) = inl IndexError).
Proof.
  induction todo as [|i todo IH]; intros st Hst; cbn [cell9_loop].
  - simpl. split_and!; lia.
  - unfold cell9_body. destruct (predict i) as [e|theta].
    { simpl. split_and!; try lia; done. }
    destruct (gt !! i) as [s|].
    + cbn [thetas_pred thetas_gt].
      specialize (IH (Cell9 (thetas_pred st ++ [theta]) (thetas_gt st ++ [angles s]))).
      cbn [thetas_pred thetas_gt] in IH. rewrite !length_app in IH. simpl in IH.
      destruct IH as (H1 & H2 & H3 & H4); [lia|].
      cbn [length]. split_and!; try lia; try done.
      intros Hok. specialize (H3 Hok). lia.
    + simpl. rewrite length_app. simpl. split_and!; try lia; done.
Qed.

(** X16: whatever the outcome of cell 9, [thetas_pred] has as many
    elements as [thetas_gt] or one more, and at most [M]; both have exactly
    [M] when the cell finishes, and [thetas_pred] is the longer one only
    when the cell stopped with [IndexError]. *)
Theorem cell9_lengths M (gt : list spherical) :
  let st := fst (run9 M gt) in
  length (thetas_gt st) <= length (thetas_pred st) <= length (thetas_gt st) + 1 /\
  length (thetas_pred st) <= M /\
  (snd (run9 M gt) = inr tt ->
   length (thetas_pred st) = M /\ length (thetas_gt st) = M) /\
  (length (thetas_gt st) < length (thetas_pred st) ->
   snd (run9 M gt) = inl IndexError).
Proof.
  unfold cell9.
  destruct (cell9_loop_lengths gt (seq 0 M) (Cell9 [] []) eq_refl)
    as (H1 & H2 & H3 & H4).
  rewrite length_seq in *. simpl in *. split_and!; try done; try lia.
  intros Hok. specialize (H3 Hok). lia.
Qed.

End Cell9Facts.

Lemma cell9_finishes_witness :
  cell9 (fun _ _ _ _ => inr (0%R, 0%R)) Solo.A Solo.train_featVects
    Solo.training_Set_spherical 1 Solo.test_Set_spherical =
  (Cell9 ((fun _ => (0%R, 0%R)) <$> seq 0 1)
     ((fun s => (azimuth s, elevation s)) <$> take 1 Solo.test_Set_spherical),
   inr tt).
Proof.
  apply (cell9_finishes (fun _ _ _ _ => inr (0%R, 0%R)) Solo.A
           Solo.train_featVects Solo.training_Set_spherical 1
           Solo.test_Set_spherical (fun _ => (0%R, 0%R))).
  - simpl. lia.
  - intros i Hi. reflexivity.
Defined.

Lemma cell9_short_ground_truth_witness :
  cell9 (fun _ _ _ _ => inr (0%R, 0%R)) Solo.A Solo.train_featVects
    Solo.training_Set_spherical 1 [] =
  (Cell9 ((fun _ => (0%R, 0%R)) <$> seq 0 1)
     ((fun s => (azimuth s, elevation s)) <$> []),
   inl IndexError).
Proof.
  apply (cell9_short_ground_truth (fun _ _ _ _ => inr (0%R, 0%R)) Solo.A
           Solo.train_featVects Solo.training_Set_spherical 1 []
           (fun _ => (0%R, 0%R))).
  - simpl. lia.
  - intros i Hi. reflexivity.
Defined.

(** ** Cells 3 to 8 and the store *)

Lemma keeps_load1 L l : keeps L (load1 l) (fun _ => True).
Proof.
  intros h Hh. unfold load1. by destruct (h !! l) as [[v|a]|]; simpl; repeat split.
Qed.

Section EmbeddingFrame.

Variables m M d : nat.
Variable epsilon : R.
Variable cov_matrices : list mat.
Variable feature_Vector_testPos : nat -> result vec.
Variable feature_Vector_src : nat -> result vec.
Variable np_linalg_inv : mat -> result mat.
Variable np_linalg_eig : mat -> result (vec * mat).
Variable compute_train_featVects : nat -> result (list vec).
Variable compute_d_left_sing_vect : nat -> vec -> mat -> mat -> nat -> result mat.

Local Abbreviation stage :=
  (test_stage m M epsilon cov_matrices feature_Vector_testPos feature_Vector_src
     np_linalg_inv).
Local Abbreviation embed :=
  (embedding m M d epsilon cov_matrices feature_Vector_testPos feature_Vector_src
     np_linalg_inv np_linalg_eig compute_train_featVects compute_d_left_sing_vect).
Local Abbreviation after_eig e W :=
  (do A <- stage W;
   do At <- cell7 m A;
   cell8 m M d compute_train_featVects compute_d_left_sing_vect (fst e) (snd e) At).

Lemma cell3_eig_keeps L W : keeps L (cell3_eig np_linalg_eig W) (fun _ => True).
Proof.
  unfold cell3_eig.
  apply (keeps_bind L _ _ (fun _ => True)); [apply keeps_read_array|]. intros w _.
  apply (keeps_bind L _ _ (fun _ => True)); [apply keeps_lift|]. intros p _.
  apply (keeps_bind L _ _ (fun _ => True)).
  { intros h Hh. destruct (keeps_alloc L (Buf1 (fst p)) h Hh) as (? & ? & _). done. }
  intros l1 _.
  apply (keeps_bind L _ _ (fun _ => True)).
  { intros h Hh. destruct (keeps_alloc L (Buf2 (snd p)) h Hh) as (? & ? & _). done. }
  intros l2 _. by apply keeps_ret.
Qed.

Lemma after_eig_keeps L (e : nat * ndarray) W : keeps L (after_eig e W) (fun _ => True).
Proof.
  apply (keeps_bind L _ _ (fun A => L <= base A)); [apply test_stage_keeps|].
  intros A _.
  apply (keeps_bind L _ _ (fun _ => True)).
  { unfold cell7.
    apply (keeps_bind L _ _ (fun _ => True)); [apply keeps_read_array|].
    intros a _. apply keeps_lift. }
  intros At _. unfold cell8.
  apply (keeps_bind L _ _ (fun _ => True)); [apply keeps_lift|]. intros tf _.
  apply (keeps_bind L _ _ (fun _ => True)); [apply keeps_load1|]. intros vals _.
  apply (keeps_bind L _ _ (fun _ => True)); [apply keeps_read_array|]. intros vects _.
  apply (keeps_bind L _ _ (fun _ => True)); [apply keeps_lift|]. intros sv _.
  by apply keeps_ret.
Qed.

(** X17: cells 3 to 8 in a row, whatever their outcome, leave every
    array that existed before them as it was: they only allocate. *)
Theorem embedding_frame h W l :
  l < length h -> fst (embed W h) !! l = h !! l.
Proof.
  intros Hl.
  assert (keeps (length h) (embed W) (fun _ => True)) as Hkeeps.
  { unfold embedding.
    apply (keeps_bind _ _ _ (fun _ => True)); [apply cell3_eig_keeps|].
    intros e _. apply after_eig_keeps. }
  destruct (Hkeeps h (le_n _)) as (_ & Hframe & _). by apply Hframe.
Qed.

Lemma cells_4_to_7_keeps L W :
  keeps L (do A <- stage W; cell7 m A) (fun _ => True).
Proof.
  apply (keeps_bind L _ _ (fun A => L <= base A)); [apply test_stage_keeps|].
  intros A _. unfold cell7.
  apply (keeps_bind L _ _ (fun _ => True)); [apply keeps_read_array|].
  intros a _. apply keeps_lift.
Qed.

(** X18: once [np.linalg.eig] has returned for [W], [eig_vals] and
    [eig_vects] read as it returned them at the end of cells 4 to 7, where
    cell 8 hands them to the Nystrom step, also when one of these cells
    raised. *)
Theorem eigenpairs_persist h W w vals vects :
  h !! base W = Some (Buf2 w) ->
  np_linalg_eig (view W w) = inr (vals, vects) ->
  exists he,
    cell3_eig np_linalg_eig W h = (he, inr (length h, NdArray (length h + 1) false)) /\
    load1 (length h) (fst ((do A <- stage W; cell7 m A) he)) =
      (fst ((do A <- stage W; cell7 m A) he), inr vals) /\
    read_array (NdArray (length h + 1) false) (fst ((do A <- stage W; cell7 m A) he)) =
      (fst ((do A <- stage W; cell7 m A) he), inr vects).
Proof.
  intros Hw Heig. exists (h ++ [Buf1 vals; Buf2 vects]). split.
  { unfold cell3_eig, read_array, run_bind, load2, lift, alloc, run_ret.
    rewrite Hw, Heig. simpl. rewrite <- app_assoc, length_app. simpl. done. }
  destruct (cells_4_to_7_keeps (length h + 2) W (h ++ [Buf1 vals; Buf2 vects]))
    as (_ & Hframe & _).
  { rewrite length_app. simpl. lia. }
  set (h' := fst ((do A <- stage W; cell7 m A) (h ++ [Buf1 vals; Buf2 vects]))) in *.
  assert (h' !! length h = Some (Buf1 vals)) as H1.
  { rewrite Hframe by lia.
    by rewrite (list_lookup_middle h _ (Buf1 vals) (length h) eq_refl). }
  assert (h' !! (length h + 1) = Some (Buf2 vects)) as H2.
  { rewrite Hframe by lia. rewrite lookup_app_r by lia.
    by replace (length h + 1 - length h) with 1 by lia. }
  split.
  - unfold load1. by rewrite H1.
  - unfold read_array, run_bind, load2, run_ret. simpl. by rewrite H2.
Qed.

End EmbeddingFrame.

Lemma embedding_frame_witness :
  fst (embedding Solo.m Solo.M Solo.d Solo.epsilon Solo.cov_matrices
         Solo.feature_Vector_testPos Solo.feature_Vector_src inv_1x1 eig_1x1
         Solo.compute_train_featVects (compute_d_left_sing_vect Solo.tol Solo.select)
         Solo.W_ref Solo.store) !! 0 = Solo.store !! 0.
Proof.
  apply (embedding_frame Solo.m Solo.M Solo.d Solo.epsilon Solo.cov_matrices
           Solo.feature_Vector_testPos Solo.feature_Vector_src inv_1x1 eig_1x1
           Solo.compute_train_featVects (compute_d_left_sing_vect Solo.tol Solo.select)
           Solo.store Solo.W_ref 0).
  simpl. lia.
Defined.

Lemma eigenpairs_persist_witness :
  exists he,
    cell3_eig eig_1x1 Solo.W_ref Solo.store =
      (he, inr (length Solo.store, NdArray (length Solo.store + 1) false)) /\
    load1 (length Solo.store)
      (fst ((do A <- test_stage Solo.m Solo.M Solo.epsilon Solo.cov_matrices
                       Solo.feature_Vector_testPos Solo.feature_Vector_src inv_1x1
                       Solo.W_ref;
             cell7 Solo.m A) he)) =
      (fst ((do A <- test_stage Solo.m Solo.M Solo.epsilon Solo.cov_matrices
                       Solo.feature_Vector_testPos Solo.feature_Vector_src inv_1x1
                       Solo.W_ref;
             cell7 Solo.m A) he), inr Solo.eig_vals) /\
    read_array (NdArray (length Solo.store + 1) false)
      (fst ((do A <- test_stage Solo.m Solo.M Solo.epsilon Solo.cov_matrices
                       Solo.feature_Vector_testPos Solo.feature_Vector_src inv_1x1
                       Solo.W_ref;
             cell7 Solo.m A) he)) =
      (fst ((do A <- test_stage Solo.m Solo.M Solo.epsilon Solo.cov_matrices
                       Solo.feature_Vector_testPos Solo.feature_Vector_src inv_1x1
                       Solo.W_ref;
             cell7 Solo.m A) he), inr Solo.eig_vects).
Proof.
  apply (eigenpairs_persist Solo.m Solo.M Solo.epsilon Solo.cov_matrices
           Solo.feature_Vector_testPos Solo.feature_Vector_src inv_1x1 eig_1x1
           Solo.store Solo.W_ref Solo.W Solo.eig_vals Solo.eig_vects).
  - reflexivity.
  - reflexivity.
Defined.

(** ** The shape of [A] *)

Lemma keeps_shape_pure {A} l (c : Run A) : (forall h, fst (c h) = h) -> keeps_shape l c.
Proof. intros Hc h a Ha. exists a. by rewrite Hc. Qed.

Lemma keeps_shape_bind {A B} l (c : Run A) (f : A -> Run B) :
  keeps_shape l c -> (forall x, keeps_shape l (f x)) -> keeps_shape l (run_bind c f).
Proof.
  intros Hc Hf h a Ha. destruct (Hc h a Ha) as (a1 & H1 & Hr1 & Hc1).
  unfold run_bind. destruct (c h) as [h1 [e|x]]; simpl in *.
  - by exists a1.
  - destruct (Hf x h1 a1 H1) as (a2 & H2 & Hr2 & Hc2).
    exists a2. split_and!; [done|congruence..].
Qed.

Lemma keeps_shape_for_each {A} l (xs : list A) (body : A -> Run unit) :
  (forall x, keeps_shape l (body x)) -> keeps_shape l (for_each xs body).
Proof.
  intros Hb. induction xs as [|x xs IH]; simpl.
  - by apply keeps_shape_pure.
  - by apply keeps_shape_bind.
Qed.

Lemma keeps_shape_setitem l a i j v : keeps_shape l (setitem a i j v).
Proof.
  intros h a0 Ha0. unfold setitem, run_bind, load2.
  destruct (h !! base a) as [[u|b]|] eqn:Eb; simpl; try by exists a0.
  case_decide; simpl; [|by exists a0].
  destruct (decide (l = base a)) as [->|Hne].
  - rewrite Eb in Ha0. injection Ha0 as <-.
    eexists. split; [apply list_lookup_insert_eq; by eapply lookup_lt_Some|done].
  - exists a0. by rewrite list_lookup_insert_ne.
Qed.

Section ShapeOfA.

Variables m M : nat.
Variable epsilon : R.
Variable cov_matrices : list mat.
Variable feature_Vector_testPos : nat -> result vec.
Variable feature_Vector_src : nat -> result vec.
Variable np_linalg_inv : mat -> result mat.

Local Abbreviation entry :=
  (affinity_entry epsilon cov_matrices feature_Vector_testPos feature_Vector_src
     np_linalg_inv).
Local Abbreviation fill :=
  (cell5 m M epsilon cov_matrices feature_Vector_testPos feature_Vector_src
     np_linalg_inv).
Local Abbreviation stage :=
  (test_stage m M epsilon cov_matrices feature_Vector_testPos feature_Vector_src
     np_linalg_inv).

Lemma cell5_keeps_shape l A : keeps_shape l (fill A).
Proof.
  unfold cell5, for_range. apply keeps_shape_for_each. intros i.
  apply keeps_shape_for_each. intros j.
  apply keeps_shape_bind; [by apply keeps_shape_pure|].
  intros v. apply keeps_shape_setitem.
Qed.

(** X19: after cells 4 and 5, [A.shape] (cell 6) is the number of rows
    of [W] plus [M], and [m], whether cell 5 finished or stopped with an
    exception: the loops only write entries. With the sizes of cell 2 this
    is [(99, 50)], the output the notebook shows. *)
Theorem shape_after_test_stage h W w :
  h !! base W = Some (Buf2 w) -> ncols (view W w) = m ->
  ndarray_shape (NdArray (length h + 2) true) (fst (stage W h)) =
    (fst (stage W h), inr (nrows (view W w) + M, m)).
Proof.
  intros Hw Hc. set (Wv := view W w) in *.
  unfold test_stage, run_bind. rewrite (cell4_returns m M h W w Hw Hc). fold Wv.
  set (h1 := h ++ [Buf2 Wv; Buf2 (zeros m M);
                   Buf2 (hstack (mat_T Wv) (zeros m M))]).
  destruct (cell5_keeps_shape (length h + 2) (NdArray (length h + 2) true) h1
              (hstack (mat_T Wv) (zeros m M))) as (a' & Ha' & Hr' & Hc').
  { unfold h1. rewrite lookup_app_r by lia.
    by replace (length h + 2 - length h) with 2 by lia. }
  simpl in Hr', Hc'.
  destruct (fill (NdArray (length h + 2) true) h1) as [h2 [e|u]] eqn:E;
    try rewrite E in Ha'; simpl in Ha'; simpl;
    unfold ndarray_shape, read_array, run_bind, load2, run_ret, view; simpl;
    rewrite Ha'; simpl; do 3 f_equal; lia.
Qed.

(** X20: two test samples with the same feature vector get the same row
    in [A]. *)
Theorem duplicate_test_samples h W w kern i1 i2 :
  h !! base W = Some (Buf2 w) ->
  mat_wf (view W w) -> nrows (view W w) = m -> ncols (view W w) = m ->
  (forall i j, i < M -> j < m -> entry i j = inr (kern i j)) ->
  i1 < M -> i2 < M ->
  feature_Vector_testPos i1 = feature_Vector_testPos i2 ->
  exists h' A Av row,
    stage W h = (h', inr A) /\ read_array A h' = (h', inr Av) /\
    cells Av !! (m + i1) = Some row /\ cells Av !! (m + i2) = Some row.
Proof.
  intros Hw Hwf Hr Hc Hk H1 H2 Heq.
  assert (mat_wf (A_expected m M (view W w) kern)) as HwfA
    by by apply mat_wf_A_expected.
  eexists _, _, (A_expected m M (view W w) kern), ((fun j => kern i1 j) <$> seq 0 m).
  split; [by apply test_stage_spec|].
  split; [by apply test_stage_read|].
  destruct Hwf as [Hlen _]. simpl.
  rewrite !lookup_app_r by lia. rewrite Hlen, Hr.
  replace (m + i1 - m) with i1 by lia. replace (m + i2 - m) with i2 by lia.
  rewrite !list_lookup_fmap, !lookup_seq_lt by done. simpl.
  split; [done|]. f_equal. apply list_eq. intros j.
  rewrite !list_lookup_fmap. destruct (seq 0 m !! j) as [j'|] eqn:Ej; [|done].
  apply lookup_seq in Ej as [-> Hj]. simpl. f_equal.
  pose proof (Hk i1 j H1 Hj) as E1. pose proof (Hk i2 j H2 Hj) as E2.
  unfold affinity_entry in E1, E2. rewrite Heq in E1. rewrite E1 in E2.
  by injection E2.
Qed.

End ShapeOfA.

Lemma shape_after_test_stage_witness :
  ndarray_shape (NdArray (length Full.store + 2) true)
    (fst (test_stage Cell2.m Cell2.M Cell2.epsilon [] Full.no_features
            Full.no_features inv_1x1 Full.W_ref Full.store)) =
  (fst (test_stage Cell2.m Cell2.M Cell2.epsilon [] Full.no_features
          Full.no_features inv_1x1 Full.W_ref Full.store),
   inr (50 + 49, 50)).
Proof.
  apply (shape_after_test_stage Cell2.m Cell2.M Cell2.epsilon [] Full.no_features
           Full.no_features inv_1x1 Full.store Full.W_ref Full.W).
  - reflexivity.
  - reflexivity.
Defined.

Lemma pair_entry_kern i j :
  i < Pair.M -> j < Pair.m ->
  affinity_entry Solo.epsilon Solo.cov_matrices Pair.feature_Vector_testPos
    Solo.feature_Vector_src inv_1x1 i j = inr (Pair.kern i j).
Proof.
  unfold Pair.M, Pair.m. intros Hi Hj. destruct j as [|j]; [|lia].
  assert (exists v, Pair.entry i 0 = inr v) as [v Hv].
  { destruct i as [|[|i]]; [| |lia];
      unfold Pair.entry, affinity_entry, gaussian_kernel; simpl;
      rewrite inv_1x1_spec by lra; simpl; by eexists. }
  unfold Pair.kern. fold Pair.entry. by rewrite Hv.
Qed.

Lemma duplicate_test_samples_witness :
  exists h' A Av row,
    test_stage Pair.m Pair.M Solo.epsilon Solo.cov_matrices Pair.feature_Vector_testPos
      Solo.feature_Vector_src inv_1x1 Solo.W_ref Solo.store = (h', inr A) /\
    read_array A h' = (h', inr Av) /\
    cells Av !! (Pair.m + 0) = Some row /\ cells Av !! (Pair.m + 1) = Some row.
Proof.
  apply (duplicate_test_samples Pair.m Pair.M Solo.epsilon Solo.cov_matrices
           Pair.feature_Vector_testPos Solo.feature_Vector_src inv_1x1
           Solo.store Solo.W_ref Solo.W Pair.kern 0 1).
  - reflexivity.
  - exact solo_W_wf.
  - reflexivity.
  - reflexivity.
  - exact pair_entry_kern.
  - unfold Pair.M. lia.
  - unfold Pair.M. lia.
  - reflexivity.
Defined.
